(** * plur / arrowed / oamap: nested data as flat arrays

    A shallow embedding of
      - [oamap/proxy.py] and [oamap/generator.py] (views over flat arrays),
      - [arrowed/schema.py] (schema nodes, resolution, projection, proxies),
      - [plur/python/convert.py] (the flattener [toarrays]),
    followed by the properties established about them.

    Python objects live in a heap addressed by their identity ([id(x)]);
    exceptions are values of [exn]; recursion that follows object references
    (and may therefore meet a cycle) is bounded by a fuel argument. *)

From stdpp Require Import base option list gmap strings pretty.
From Stdlib Require Import ZArith Lia.

Set Warnings "-register-all".

Open Scope string_scope.
Open Scope list_scope.
Open Scope Z_scope.

(** ** Python exceptions and results *)

Inductive exn :=
  | AssertionError (msg : string)
  | TypeError (msg : string)
  | ValueError (msg : string)
  | KeyError (msg : string)
  | IndexError (msg : string)
  | NameError (msg : string)
  | OverflowError (msg : string).

(** [Timeout] is the embedding's own outcome: the fuel ran out. *)
Inductive res (A : Type) :=
  | Ok (a : A)
  | Raise (e : exn)
  | Timeout.
Arguments Ok {A} a.
Arguments Raise {A} e.
Arguments Timeout {A}.

#[global] Instance res_ret : MRet res := fun A a => Ok a.
#[global] Instance res_bind : MBind res := fun A B f m =>
  match m with
  | Ok a => f a
  | Raise e => Raise e
  | Timeout => Timeout
  end.

Definition is_ok {A} (r : res A) : bool :=
  match r with Ok _ => true | _ => false end.

(** [container[index]] on a Python sequence or a one-dimensional array:
    a negative index counts from the end, an index out of range raises. *)
Definition out_of_range : string := "index out of range".

Definition getitem {A} (l : list A) (index : Z) : res A :=
  let n := Z.of_nat (length l) in
  let i := if index <? 0 then index + n else index in
  if (0 <=? i) && (i <? n)
  then match l !! Z.to_nat i with
       | Some x => Ok x
       | None => Raise (IndexError out_of_range)
       end
  else Raise (IndexError out_of_range).

(** [mapping[key]] on a dict. *)
Definition dict_get {V} (m : gmap string V) (key : string) : res V :=
  match m !! key with
  | Some v => Ok v
  | None => Raise (KeyError key)
  end.

(** ** numpy arrays *)

Module Numpy.

Inductive dtype :=
  | DInt (signed : bool) (bits : N)
  | DBool
  | DFloat.

Definition int64 : dtype := DInt true 64.
Definition uint64 : dtype := DInt false 64.
Definition int32 : dtype := DInt true 32.
Definition bool_ : dtype := DBool.

#[global] Instance dtype_eq_dec : EqDecision dtype.
Proof. solve_decision. Defined.

(** [issubclass(x.dtype.type, numpy.integer)] *)
Definition is_integer (d : dtype) : bool :=
  match d with DInt _ _ => true | _ => false end.

(** Element values are integers; [shape_tail] is [shape[1:]], [recarray]
    tells a [numpy.recarray], [mask] is the validity mask of a
    [numpy.ma.MaskedArray] ([true] flags an invalid row). *)
Record ndarray := {
  dtype_of : dtype;
  shape_tail : list nat;
  recarray : bool;
  data : list Z;
  mask : option (list bool)
}.

Definition len (a : ndarray) : nat := length (data a).

(** A plain one-dimensional array. *)
Definition array (d : dtype) (l : list Z) : ndarray :=
  {| dtype_of := d; shape_tail := []; recarray := false; data := l; mask := None |}.

Definition masked_array (d : dtype) (l : list Z) (m : list bool) : ndarray :=
  {| dtype_of := d; shape_tail := []; recarray := false; data := l; mask := Some m |}.

(** Two's complement wrap-around of a cast to [int64]. *)
Definition wrap64 (z : Z) : Z := (z + 2 ^ 63) mod 2 ^ 64 - 2 ^ 63.

(** [values.cumsum()] accumulated in [int64], starting from [acc]. *)
Fixpoint cumsum_from (acc : Z) (l : list Z) : list Z :=
  match l with
  | [] => []
  | c :: l' => let s := wrap64 (acc + c) in s :: cumsum_from s l'
  end.

(** [a.filled(0)]: what [MaskedArray.cumsum] sums. *)
Fixpoint filled0 (l : list Z) (m : list bool) : list Z :=
  match l, m with
  | x :: l', b :: m' => (if b then 0 else x) :: filled0 l' m'
  | _, _ => l
  end.

Definition summands (a : ndarray) : list Z :=
  match mask a with
  | Some m => filled0 (data a) m
  | None => data a
  end.


(** The rows of an array: [None] where the mask flags the row. *)
Fixpoint rows (l : list Z) (m : list bool) : list (option Z) :=
  match l, m with
  | x :: l', b :: m' => (if b then None else Some x) :: rows l' m'
  | _, _ => Some <$> l
  end.

Definition valid_rows (a : ndarray) : list (option Z) :=
  match mask a with
  | Some m => rows (data a) m
  | None => Some <$> data a
  end.

(** [a[:-1]] and [a[1:]] on the first axis (mask included). *)
Definition init_view (a : ndarray) : ndarray :=
  {| dtype_of := dtype_of a; shape_tail := shape_tail a; recarray := recarray a;
     data := removelast (data a); mask := (λ m, removelast m) <$> mask a |}.

Definition tail_view (a : ndarray) : ndarray :=
  {| dtype_of := dtype_of a; shape_tail := shape_tail a; recarray := recarray a;
     data := tail (data a); mask := (λ m, tail m) <$> mask a |}.

(** [mask[index]] of an array known to carry a mask. *)
Definition masked_at (a : ndarray) (index : Z) : res bool :=
  match mask a with
  | Some m => getitem m index
  | None => Ok false
  end.

End Numpy.
Import Numpy.

(** ** oamap/proxy.py *)

Module Proxy.

(** The proxy classes.  Their class attributes ([_data], [_starts], ...) are
    set where the classes are generated; [Masked m base] is a class with
    bases [(Masked, base)] and [_mask = m]. *)
Inductive cls :=
  | PrimitiveProxy (_data : string)
  | ListProxy (_starts _stops : string) (_content : cls)
  | UnionProxy (_tags _offsets : string) (_possibilities : list cls)
  | RecordProxy (_fields : list (string * cls))
  | TupleProxy (_types : list cls)
  | PointerProxy (_positions : string) (_target : cls)
  | Masked (_mask : string) (base : cls).

Abbreviation arrays_t := (gmap string (list Z)).

(** The instance attributes of a [ListProxy] ([__slots__]) and its class'
    [_content]. *)
Record listproxy := {
  _content : cls;
  _arrays : arrays_t;
  _start : Z;
  _stop : Z;
  _step : Z
}.

Inductive obj :=
  | None_
  | Scalar (z : Z)
  | ListObj (l : listproxy)
  | RecordObj (_fields : list (string * cls)) (_arrays : arrays_t) (_index : Z)
  | TupleObj (_types : list cls) (_arrays : arrays_t) (_index : Z).

(** [ListProxy._slice] *)
Definition _slice (content : cls) (arrays : arrays_t) (start stop step : Z) : listproxy :=
  {| _content := content; _arrays := arrays; _start := start; _stop := stop; _step := step |}.

(** [cls(arrays, index)]: the [__new__] of each proxy class. *)
Fixpoint new (c : cls) (arrays : arrays_t) (index : Z) : res obj :=
  match c with
  | PrimitiveProxy d =>
      a ← dict_get arrays d;
      x ← getitem a index;
      Ok (Scalar x)
  | ListProxy starts stops content =>
      a ← dict_get arrays starts;
      start ← getitem a index;
      b ← dict_get arrays stops;
      stop ← getitem b index;
      Ok (ListObj (_slice content arrays start stop 1))
  | UnionProxy tags offsets possibilities =>
      t ← dict_get arrays tags;
      tag ← getitem t index;
      let n := Z.of_nat (length possibilities) in
      let k := if tag <? 0 then tag + n else tag in
      if (0 <=? k) && (k <? n)
      then (fix pick (ps : list cls) (i : nat) {struct ps} : res obj :=
              match ps, i with
              | [], _ => Raise (IndexError out_of_range)
              | p :: _, O =>
                  o ← dict_get arrays offsets;
                  offset ← getitem o index;
                  new p arrays offset
              | _ :: ps', S i' => pick ps' i'
              end) possibilities (Z.to_nat k)
      else Raise (IndexError out_of_range)
  | RecordProxy fields => Ok (RecordObj fields arrays index)
  | TupleProxy types => Ok (TupleObj types arrays index)
  | PointerProxy positions target =>
      p ← dict_get arrays positions;
      position ← getitem p index;
      new target arrays position
  | Masked m base =>
      a ← dict_get arrays m;
      flag ← getitem a index;
      if negb (flag =? 0) then mret None_ else new base arrays index
  end.

(** [ListProxy.__len__] ([//] is floor division; on numpy integers a zero
    divisor yields 0) and the builtin [len], which rejects a negative
    [__len__]. *)
Definition __len__ (self : listproxy) : Z :=
  (_stop self - _start self) `div` _step self.

Definition negative_len : string := "__len__() should return >= 0".

Definition len (self : listproxy) : res Z :=
  let n := __len__ self in
  if n <? 0 then Raise (ValueError negative_len) else Ok n.

Record slice := { start : option Z; stop : option Z; step : option Z }.

Inductive index :=
  | ISlice (s : slice)
  | IInt (i : Z).

Definition zero_step : string := "slice step cannot be zero".
Definition out_of_bounds : string := "index {0} is out of bounds for size {1}".

(** [ListProxy.__getitem__] *)
Definition __getitem__ (self : listproxy) (idx : index) : res obj :=
  match idx with
  | ISlice s =>
      lenself ← len self;
      let start0 := default 0 (start s) in
      let stop0 := default lenself (stop s) in
      let step0 := default 1 (step s) in
      let start1 := Z.min lenself (Z.max 0 start0) in
      let stop1 := Z.min lenself (Z.max 0 stop0) in
      let stop2 := if stop1 <? start1 then start1 else stop1 in
      if step0 =? 0
      then Raise (ValueError zero_step)
      else Ok (ListObj (_slice (_content self) (_arrays self)
                            (_start self + _step self * start1)
                            (_start self + _step self * stop2)
                            (_step self * step0)))
  | IInt i =>
      lenself ← len self;
      let normalindex := if i >=? 0 then i else i + lenself in
      if negb ((0 <=? normalindex) && (normalindex <? lenself))
      then Raise (IndexError out_of_bounds)
      else new (_content self) (_arrays self) (_start self + _step self * normalindex)
  end.

(** [xrange(start, stop, step)]: the positions [start], [start + step], ...
    before [stop]. *)
Definition zero_xrange : string := "xrange() arg 3 must not be zero".

Definition xrange (start stop step : Z) : res (list Z) :=
  if step =? 0 then Raise (ValueError zero_xrange)
  else let n := if 0 <? step then (stop - start + step - 1) `div` step
                else (start - stop - step - 1) `div` (- step) in
       Ok ((λ k, start + step * k) <$> seqZ 0 n).

(** A comprehension or generator consumed to its end; the first element that
    raises ends it. *)
Fixpoint mapM {A B} (f : A → res B) (l : list A) : res (list B) :=
  match l with
  | [] => Ok []
  | x :: l' => y ← f x; ys ← mapM f l'; Ok (y :: ys)
  end.

(** [list(self)]: [ListProxy.__iter__], consumed. *)
Definition __iter__ (self : listproxy) : res (list obj) :=
  idxs ← xrange (_start self) (_stop self) (_step self);
  mapM (new (_content self) (_arrays self)) idxs.

(** [list(reversed(self))]: [ListProxy.__reversed__], consumed. *)
Definition __reversed__ (self : listproxy) : res (list obj) :=
  lenself ← len self;
  idxs ← xrange lenself 0 (-1);
  mapM (λ i, __getitem__ self (IInt (i - 1))) idxs.

(** [TupleProxy.__len__], [__getitem__] at an integer and at a slice, and
    [__iter__] (consumed), for the tuple view of class attribute [_types] over
    [_arrays] at [_index]. *)
Definition TupleProxy__len__ (_types : list cls) : Z := Z.of_nat (length _types).

Definition TupleProxy_item (_types : list cls) (_arrays : arrays_t) (_index : Z) (i : Z)
    : res obj :=
  t ← getitem _types i;
  new t _arrays _index.

Definition TupleProxy__getitem__ (_types : list cls) (_arrays : arrays_t) (_index : Z)
    (s : slice) : res (list obj) :=
  let lenself := TupleProxy__len__ _types in
  let start0 := default 0 (start s) in
  let stop0 := default lenself (stop s) in
  let step0 := default 1 (step s) in
  idxs ← xrange start0 stop0 step0;
  mapM (TupleProxy_item _types _arrays _index) idxs.

Definition TupleProxy__iter__ (_types : list cls) (_arrays : arrays_t) (_index : Z)
    : res (list obj) :=
  mapM (λ t, new t _arrays _index) _types.

End Proxy.

(** ** oamap/generator.py *)

Module Generator.

(** [Cache.arraylist]; the [ptr] and [len] arrays are only written and read
    by compiled code. *)
Abbreviation cache := (list (option ndarray)).

Definition Cache (cachelen : nat) : cache := replicate cachelen None.

Definition bad_dtype : string := "arrays[{0}].dtype is {1} but expected {2}".
Definition bad_shape : string := "arrays[{0}].shape[1:] is {1} but expected {2}".

(** [Generator._getarray]: the array is loaded once into its cache slot and
    checked when it is loaded. *)
Definition _getarray (arrays : gmap string ndarray) (name : string) (c : cache)
    (cacheidx : nat) (dtype : dtype) (dims : list nat) : res (ndarray * cache) :=
  match c !! cacheidx with
  | None => Raise (IndexError out_of_range)
  | Some (Some a) => Ok (a, c)
  | Some None =>
      a ← dict_get arrays name;
      let c' := <[cacheidx := Some a]> c in
      if negb (bool_decide (dtype_of a = dtype)) then Raise (TypeError bad_dtype)
      else if negb (bool_decide (shape_tail a = dims)) then Raise (TypeError bad_shape)
      else Ok (a, c')
  end.

(** The generator classes; [Masked mask maskidx base] is a class with bases
    [(Masked, base)].  The [name] every generator carries is only used to
    label generated types. *)
Inductive gen :=
  | PrimitiveGenerator (data : string) (dataidx : nat) (dtype : dtype) (dims : list nat)
  | ListGenerator (starts : string) (startsidx : nat) (stops : string) (stopsidx : nat)
      (content : gen)
  | UnionGenerator (tags : string) (tagsidx : nat) (offsets : string) (offsetsidx : nat)
      (possibilities : list gen)
  | RecordGenerator (fields : list (string * gen))
  | TupleGenerator (types : list gen)
  | PointerGenerator (positions : string) (positionsidx : nat) (target : gen)
  | Masked (mask : string) (maskidx : nat) (base : gen).

(** What [_generate] returns: [None] or an element of a data array.  The
    list, record and tuple generators call the proxy classes with the
    generator, the arrays, the cache and the positions, where
    [__new__(cls, arrays, index=0)] of [oamap/proxy.py] takes the arrays and
    one position: the call raises [TypeError] once its arguments are
    evaluated. *)
Inductive gobj :=
  | GNone
  | GScalar (z : Z).

Definition bad_arity : string :=
  "__new__() takes from 2 to 3 positional arguments but {0} were given".

Fixpoint _generate (self : gen) (arrays : gmap string ndarray) (index : Z) (c : cache)
    : res (gobj * cache) :=
  match self with
  | PrimitiveGenerator d dataidx dtype dims =>
      '(a, c) ← _getarray arrays d c dataidx dtype dims;
      x ← getitem (data a) index;
      Ok (GScalar x, c)
  | ListGenerator starts startsidx stops stopsidx content =>
      '(a, c) ← _getarray arrays starts c startsidx int32 [];
      '(b, c) ← _getarray arrays stops c stopsidx int32 [];
      start ← getitem (data a) index;
      stop ← getitem (data b) index;
      Raise (TypeError bad_arity)
  | UnionGenerator tags tagsidx offsets offsetsidx possibilities =>
      '(t, c) ← _getarray arrays tags c tagsidx int32 [];
      '(o, c) ← _getarray arrays offsets c offsetsidx int32 [];
      tag ← getitem (data t) index;
      let n := Z.of_nat (length possibilities) in
      let k := if tag <? 0 then tag + n else tag in
      if (0 <=? k) && (k <? n)
      then (fix pick (ps : list gen) (i : nat) {struct ps} : res (gobj * cache) :=
              match ps, i with
              | [], _ => Raise (IndexError out_of_range)
              | p :: _, O =>
                  offset ← getitem (data o) index;
                  _generate p arrays offset c
              | _ :: ps', S i' => pick ps' i'
              end) possibilities (Z.to_nat k)
      else Raise (IndexError out_of_range)
  | RecordGenerator _ => Raise (TypeError bad_arity)
  | TupleGenerator _ => Raise (TypeError bad_arity)
  | PointerGenerator positions positionsidx target =>
      '(p, c) ← _getarray arrays positions c positionsidx int32 [];
      position ← getitem (data p) index;
      _generate target arrays position c
  | Masked m maskidx base =>
      '(a, c) ← _getarray arrays m c maskidx bool_ [];
      flag ← getitem (data a) index;
      if negb (flag =? 0) then Ok (GNone, c) else _generate base arrays index c
  end.

(** [Generator.__call__] *)
Definition call (self : gen) (cachelen : nat) (arrays : gmap string ndarray) : res (gobj * cache) :=
  _generate self arrays 0 (Cache cachelen).

(** A later state of a cache: no slot was added or dropped, and a slot that
    held an array holds the same array. *)
Definition kept (c c' : cache) : Prop :=
  length c' = length c ∧ ∀ i a, c !! i = Some (Some a) → c' !! i = Some (Some a).

End Generator.

(** ** arrowed/schema.py *)

Module Schema.

(** [id(x)]: the position of the object in the heap. *)
Abbreviation id := nat (only parsing).

(** What a source holds under a key and what a callable returns: an array, a
    pair of arrays (the [resolve] closures of lists and unions return one), or
    something that is not an array. *)
Inductive sobj :=
  | SArray (a : ndarray)
  | SPair (a b : ndarray)
  | SOther.

Abbreviation source := (gmap string sobj).

(** The value of an array attribute ([array], [countarray], [startarray], ...):
    [None], a hashable key, an array, a user callable with
    [__code__.co_argcount = argc] (no [__code__]: [None]), the closure
    [resolve] that [resolved(source, lazy=True)] of node [self] builds, or
    another object. *)
Inductive aref :=
  | ANone
  | AKey (k : string)
  | AArray (a : ndarray)
  | AUser (argc : option nat) (f : option source → option id → sobj)
  | AResolve (self : id) (src : source)
  | AOther.

Definition callable (a : aref) : bool :=
  match a with AUser _ _ | AResolve _ _ => true | _ => false end.

Inductive node :=
  | Primitive (array : aref) (masked : bool) (base : option id)
  | ListCount (countarray : aref) (contents : id) (masked : bool) (base : option id)
  | ListOffset (offsetarray : aref) (contents : id) (masked : bool) (base : option id)
  | ListStartEnd (startarray endarray : aref) (contents : id) (masked : bool)
      (base : option id)
  | Record (contents : list (string * id)) (base : option id) (_name : string)
  | Tuple (contents : list id) (base : option id)
  | UnionSparse (tagarray : aref) (contents : list id) (masked : bool) (base : option id)
  | UnionSparseOffset (tagarray offsetarray : aref) (contents : list id) (masked : bool)
      (base : option id)
  | Pointer (indexarray : aref) (target : id) (masked : bool) (base : option id).

Abbreviation heap := (list node).

(** A constructor call: the new object gets the next identity. *)
Definition alloc (n : node) (h : heap) : id * heap := (length h, h ++ [n]).

Definition dangling : exn := KeyError "no object with this id".

Definition deref (h : heap) (i : id) : res node :=
  match h !! i with
  | Some n => Ok n
  | None => Raise dangling
  end.

(** [Record.__init__] with [name=None]: the class attribute [__nameindex] is
    never advanced (the increment creates an instance attribute). *)
Definition default_name : string := "Record-0".

(** [Pointer.__init__]: [assert isinstance(self.target, ObjectArrayMapping)] *)
Definition bad_target : string := "target must be an ObjectArrayMapping".

Definition new_Pointer (indexarray : aref) (target : option id) (masked : bool)
    (base : option id) (h : heap) : res (id * heap) :=
  match target with
  | Some t => Ok (alloc (Pointer indexarray t masked base) h)
  | None => Raise (AssertionError bad_target)
  end.

(** [ObjectArrayMapping._toint64] *)
Definition _toint64 (a : ndarray) : ndarray :=
  if bool_decide (dtype_of a = int64) then a
  else {| dtype_of := int64; shape_tail := shape_tail a; recarray := recarray a;
          data := wrap64 <$> data a; mask := mask a |}.

(** [ObjectArrayMapping._resolved_check]; the exception carries the message
    template. *)
Definition _resolved_check (o : sobj) (message : string) (masked : bool)
    (extracheck : ndarray → bool) : res ndarray :=
  match o with
  | SArray a =>
      let extracheck2 := if masked then bool_decide (is_Some (mask a))
                         else bool_decide (mask a = None) in
      if negb (recarray a) && bool_decide (shape_tail a = []) && extracheck a && extracheck2
      then Ok a
      else Raise (AssertionError message)
  | _ => Raise (AssertionError message)
  end.

Definition msg_Primitive : string :=
  "Primitive array must map to a one-dimensional, {0}, non-record array".
Definition msg_ListCount : string :=
  "ListCount countarray must map to a one-dimensional, {0}, non-record array of integers".
Definition msg_ListOffset : string :=
  "ListOffset offsetarray must map to a one-dimensional, {0}, non-record array of integers".
Definition msg_ListStartEnd_start : string :=
  "ListStartEnd startarray must map to a one-dimensional, {0}, non-record array of integers".
Definition msg_ListStartEnd_end : string :=
  "ListStartEnd endarray must map to a one-dimensional, {0}, non-record array of integers".
Definition msg_UnionSparse : string :=
  "UnionSparse tagarray must map to a one-dimensional, {0}, non-record array of integers".
Definition msg_UnionSparseOffset_tag : string :=
  "UnionSparseOffset tagarray must map to a one-dimensional, {0}, non-record array of integers".
Definition msg_UnionSparseOffset_offset : string :=
  "UnionSparseOffset offsetarray must map to a one-dimensional, {0}, non-record array of integers".
Definition msg_Pointer : string :=
  "Pointer indexarray must map to a one-dimensional, {0}, non-record array of integers".
Definition msg_not_found : string := "array cannot be found for key {0}".
Definition msg_not_callable : string := "object is not callable".
Definition msg_no_resolve : string := "no resolve closure for this class".

Definition integer (x : ndarray) : bool := is_integer (dtype_of x).
Definition anything (x : ndarray) : bool := true.

(** *** The arrays a [resolve] closure computes *)

(** [ListCount.resolved.resolve] after the count array is bound: a fresh
    offset buffer, and two views of it.  [cumsum(out=offsetarray[1:])]
    accumulates in the dtype of [out], the counts cast to [int64] (the dtype
    of a reduction defaults to that of the output array), where the cast is
    safe: for every integer dtype but [uint64], whose sum into an [int64]
    buffer depends on the version of numpy.  The properties of this function
    are stated for the other dtypes. *)
Definition offsets_of_counts (countarray : ndarray) : ndarray :=
  array int64 (0 :: cumsum_from 0 (summands countarray)).

Definition ListCount_arrays (countarray : ndarray) : ndarray * ndarray :=
  let offsetarray := offsets_of_counts countarray in
  let startarray := init_view offsetarray in
  let endarray := tail_view offsetarray in
  match mask countarray with
  | Some m => (masked_array int64 (data startarray) m, endarray)
  | None => (startarray, endarray)
  end.

(** [ListOffset.resolved.resolve] after the offset array is bound. *)
Definition ListOffset_arrays (offsetarray : ndarray) : ndarray * ndarray :=
  let offsetarray := _toint64 offsetarray in
  (init_view offsetarray, tail_view offsetarray).

Section Uninitialised.

(** [numpy.empty] does not initialise its buffer: [garbage i] is what the
    fresh memory holds at position [i]. *)
Variable garbage : nat → Z.

Definition numpy_empty (n : nat) : list Z := garbage <$> seq 0 n.

(** [offsetarray[matches] = numpy.linspace(0, nummatches - 1, nummatches)]
    for [matches = (tagarray == tag)]: the matching rows receive 0, 1, 2, ...
    in row order ([next] is the next value to hand out).  A row that the mask
    flags does not match. *)
Fixpoint assign_matches (tag : Z) (tags : list (option Z)) (offsetarray : list Z)
    (next : Z) : list Z :=
  match tags, offsetarray with
  | t :: tags', o :: offsetarray' =>
      if bool_decide (t = Some tag)
      then next :: assign_matches tag tags' offsetarray' (next + 1)
      else o :: assign_matches tag tags' offsetarray' next
  | _, _ => offsetarray
  end.

(** [for tag in range(len(self.contents))] *)
Definition UnionSparse_offsets (ncontents : nat) (tagarray : ndarray) : list Z :=
  foldl (λ offsetarray tag, assign_matches (Z.of_nat tag) (valid_rows tagarray) offsetarray 0)
        (numpy_empty (len tagarray)) (seq 0 ncontents).

(** [UnionSparse.resolved.resolve] after the tag array is bound. *)
Definition UnionSparse_arrays (ncontents : nat) (tagarray : ndarray) : ndarray * ndarray :=
  let tagarray := _toint64 tagarray in
  (tagarray, array int64 (UnionSparse_offsets ncontents tagarray)).

(** [ObjectArrayMapping._resolved], and [force]: the body of the closure
    [resolve] of node [self], which reads the attributes [self] has when the
    closure is called. *)
Fixpoint _resolved (fuel : nat) (h : heap) (self : id) (obj : aref) (src : source)
    (message : string) (masked : bool) (extracheck : ndarray → bool) {struct fuel}
    : res ndarray :=
  match fuel with
  | O => Timeout
  | S fuel =>
      match obj with
      | AArray a => _resolved_check (SArray a) message masked extracheck
      | AUser argc f =>
          let r := match argc with
                   | Some 0%nat => f None None
                   | Some 1%nat => f (Some src) None
                   | _ => f (Some src) (Some self)
                   end in
          _resolved_check r message masked extracheck
      | AResolve n s =>
          r ← force fuel h n s;
          _resolved_check r message masked extracheck
      | AKey k =>
          match src !! k with
          | Some o => _resolved_check o message masked extracheck
          | None => Raise (ValueError msg_not_found)
          end
      | ANone | AOther => Raise (ValueError msg_not_found)
      end
  end

with force (fuel : nat) (h : heap) (self : id) (src : source) {struct fuel} : res sobj :=
  match fuel with
  | O => Timeout
  | S fuel =>
      n ← deref h self;
      match n with
      | Primitive array masked _ =>
          a ← _resolved fuel h self array src msg_Primitive masked anything;
          Ok (SArray a)
      | ListCount countarray _ masked _ =>
          c ← _resolved fuel h self countarray src msg_ListCount masked integer;
          let '(s, e) := ListCount_arrays c in Ok (SPair s e)
      | ListOffset offsetarray _ masked _ =>
          o ← _resolved fuel h self offsetarray src msg_ListOffset masked integer;
          let '(s, e) := ListOffset_arrays o in Ok (SPair s e)
      | ListStartEnd startarray endarray _ masked _ =>
          s ← _resolved fuel h self startarray src msg_ListStartEnd_start masked integer;
          e ← _resolved fuel h self startarray src msg_ListStartEnd_end masked integer;
          Ok (SPair (_toint64 s) (_toint64 e))
      | UnionSparse tagarray contents masked _ =>
          t ← _resolved fuel h self tagarray src msg_UnionSparse masked integer;
          let '(t, o) := UnionSparse_arrays (length contents) t in Ok (SPair t o)
      | UnionSparseOffset tagarray offsetarray _ masked _ =>
          t ← _resolved fuel h self tagarray src msg_UnionSparseOffset_tag masked integer;
          o ← _resolved fuel h self offsetarray src msg_UnionSparseOffset_offset masked integer;
          Ok (SPair (_toint64 t) (_toint64 o))
      | Pointer indexarray _ masked _ =>
          i ← _resolved fuel h self indexarray src msg_Pointer masked integer;
          Ok (SArray (_toint64 i))
      | Record _ _ _ | Tuple _ _ => Raise (TypeError msg_no_resolve)
      end
  end.


(** *** Resolution *)

(** The per-pass memo: [id] of a node of the template to its resolved node;
    [None] is the placeholder of a node whose children are being resolved. *)
Definition msg_twice : string :=
  "a container type cannot be included more than once in the same nested tree".

(** [ObjectArrayMapping._recursion_check] ([_memo is None] is the empty dict
    the top-level call starts from). *)
Definition _recursion_check (self : id) (memo : gmap id (option id))
    : res (gmap id (option id)) :=
  match memo !! self with
  | Some _ => Raise (TypeError msg_twice)
  | None => Ok (<[self := None]> memo)
  end.

(** [memo[key]] *)
Definition memo_get (memo : gmap id (option id)) (key : id) : res (option id) :=
  match memo !! key with
  | Some v => Ok v
  | None => Raise (KeyError "id")
  end.

(** A comprehension over [l] whose body threads the state [s]. *)
Fixpoint mapM_st {A B S} (f : A → S → res (B * S)) (l : list A) (s : S)
    : res (list B * S) :=
  match l with
  | [] => Ok ([], s)
  | x :: l' =>
      '(y, s) ← f x s;
      '(ys, s) ← mapM_st f l' s;
      Ok (y :: ys, s)
  end.

(** [self.resolved(source, lazy, _memo)]; the state is the memo and the heap
    the new nodes are allocated in. *)
Fixpoint resolved (fuel : nat) (src : source) (lazy : bool) (self : id)
    (st : gmap id (option id) * heap) {struct fuel}
    : res (id * (gmap id (option id) * heap)) :=
  match fuel with
  | O => Timeout
  | S fuel =>
      let '(memo, h) := st in
      let children (contents : list id) st :=
        mapM_st (resolved fuel src lazy) contents st in
      n ← deref h self;
      match n with
      | Primitive array masked _ =>
          if lazy
          then let '(r, h) := alloc (Primitive (AResolve self src) masked (Some self)) h in
               Ok (r, (memo, h))
          else a ← _resolved fuel h self array src msg_Primitive masked anything;
               let '(r, h) := alloc (Primitive (AArray a) masked (Some self)) h in
               Ok (r, (memo, h))
      | ListCount _ contents masked _
      | ListOffset _ contents masked _
      | ListStartEnd _ _ contents masked _ =>
          memo ← _recursion_check self memo;
          if lazy
          then '(c, (memo, h)) ← resolved fuel src lazy contents (memo, h);
               let '(r, h) :=
                 alloc (ListStartEnd (AResolve self src) ANone c masked (Some self)) h in
               Ok (r, (<[self := Some r]> memo, h))
          else p ← force fuel h self src;
               match p with
               | SPair startarray endarray =>
                   '(c, (memo, h)) ← resolved fuel src lazy contents (memo, h);
                   let '(r, h) :=
                     alloc (ListStartEnd (AArray startarray) (AArray endarray) c masked
                              (Some self)) h in
                   Ok (r, (<[self := Some r]> memo, h))
               | _ => Raise (TypeError msg_no_resolve)
               end
      | Record contents _ _ =>
          memo ← _recursion_check self memo;
          '(cs, (memo, h)) ←
            mapM_st (λ '(k, v) st, '(r, st) ← resolved fuel src lazy v st; Ok ((k, r), st))
              contents (memo, h);
          let '(r, h) := alloc (Record cs (Some self) default_name) h in
          Ok (r, (<[self := Some r]> memo, h))
      | Tuple contents _ =>
          memo ← _recursion_check self memo;
          '(cs, (memo, h)) ← children contents (memo, h);
          let '(r, h) := alloc (Tuple cs (Some self)) h in
          Ok (r, (<[self := Some r]> memo, h))
      | UnionSparse _ contents masked _
      | UnionSparseOffset _ _ contents masked _ =>
          memo ← _recursion_check self memo;
          if lazy
          then '(cs, (memo, h)) ← children contents (memo, h);
               let '(r, h) :=
                 alloc (UnionSparseOffset (AResolve self src) ANone cs masked (Some self)) h in
               Ok (r, (<[self := Some r]> memo, h))
          else p ← force fuel h self src;
               match p with
               | SPair tagarray offsetarray =>
                   '(cs, (memo, h)) ← children contents (memo, h);
                   let '(r, h) :=
                     alloc (UnionSparseOffset (AArray tagarray) (AArray offsetarray) cs masked
                              (Some self)) h in
                   Ok (r, (<[self := Some r]> memo, h))
               | _ => Raise (TypeError msg_no_resolve)
               end
      | Pointer _ target masked _ =>
          '(memo, h) ← match memo !! target with
                       | None => '(_, st) ← resolved fuel src lazy target (memo, h); mret st
                       | Some _ => Ok (memo, h)
                       end;
          if lazy
          then t ← memo_get memo target;
               '(r, h) ← new_Pointer (AResolve self src) t masked (Some self) h;
               Ok (r, (<[self := Some r]> memo, h))
          else p ← force fuel h self src;
               match p with
               | SArray indexarray =>
                   t ← memo_get memo target;
                   '(r, h) ← new_Pointer (AArray indexarray) t masked (Some self) h;
                   Ok (r, (<[self := Some r]> memo, h))
               | _ => Raise (TypeError msg_no_resolve)
               end
      end
  end.

(** [node.resolved(source, lazy)] as a caller writes it ([_memo=None]). *)
Definition resolve (fuel : nat) (src : source) (lazy : bool) (self : id) (h : heap)
    : res (id * heap) :=
  '(r, (_, h)) ← resolved fuel src lazy self (∅, h);
  Ok (r, h).


(** *** Projection *)

(** [any(x is self for x in others)] *)
Definition is_in (self : id) (others : list id) : bool := bool_decide (self ∈ others).

(** [for x in contents: if id(x) not in _memo: ...]: the first child the
    loop body is entered for. *)
Fixpoint first_unseen (contents : list id) (memo : gset id) : option id :=
  match contents with
  | [] => None
  | x :: contents' =>
      if bool_decide (x ∈ memo) then first_unseen contents' memo else Some x
  end.

(** [if content is not None: contents.append(content)] *)
Fixpoint not_None {A} (l : list (option A)) : list A :=
  match l with
  | [] => []
  | Some x :: l' => x :: not_None l'
  | None :: l' => not_None l'
  end.

(** [self.hasany(others, _memo)]; [_memo] is a set of ids. *)
Fixpoint hasany (fuel : nat) (h : heap) (self : id) (others : list id) (memo : gset id)
    {struct fuel} : res (bool * gset id) :=
  match fuel with
  | O => Timeout
  | S fuel =>
      n ← deref h self;
      let one (child : id) :=
        if is_in self others then Ok (true, memo)
        else if bool_decide (child ∈ memo) then Ok (false, memo)
        else hasany fuel h child others ({[child]} ∪ memo) in
      let several (contents : list id) :=
        if is_in self others then Ok (true, memo)
        else match first_unseen contents memo with
             | Some x => hasany fuel h x others ({[x]} ∪ memo)
             | None => Ok (false, memo)
             end in
      match n with
      | Primitive _ _ _ => Ok (is_in self others, memo)
      | ListCount _ contents _ _
      | ListOffset _ contents _ _
      | ListStartEnd _ _ contents _ _ => one contents
      | Record contents _ _ => several contents.*2
      | Tuple contents _
      | UnionSparse _ contents _ _
      | UnionSparseOffset _ _ contents _ _ => several contents
      | Pointer _ target _ _ => one target
      end
  end.

(** [if id(x) not in _memo: _memo[id(x)] = None;
        _memo[id(x)] = x.projection(required, _memo)], then [_memo[id(x)]];
    [project] is the method [projection] of the child. *)
Definition memoized
    (project : id → gmap id (option id) * heap → res (option id * (gmap id (option id) * heap)))
    (x : id) (st : gmap id (option id) * heap)
    : res (option id * (gmap id (option id) * heap)) :=
  let '(memo, h) := st in
  match memo !! x with
  | Some content => Ok (content, (memo, h))
  | None =>
      '(content, (memo, h)) ← project x (<[x := None]> memo, h);
      Ok (content, (<[x := content]> memo, h))
  end.

(** The loop over the children of a tuple or a union: the projections that
    are not [None]. *)
Definition surviving
    (project : id → gmap id (option id) * heap → res (option id * (gmap id (option id) * heap)))
    (contents : list id) (st : gmap id (option id) * heap)
    : res (list id * (gmap id (option id) * heap)) :=
  '(cs, st) ← mapM_st (memoized project) contents st;
  Ok (not_None cs, st).

(** The same loop over the fields of a record. *)
Definition surviving_fields
    (project : id → gmap id (option id) * heap → res (option id * (gmap id (option id) * heap)))
    (contents : list (string * id)) (st : gmap id (option id) * heap)
    : res (list (string * id) * (gmap id (option id) * heap)) :=
  '(cs, st) ← mapM_st (λ '(n, x) st,
                         '(content, st) ← memoized project x st; Ok ((n, content), st))
                contents st;
  Ok (not_None ((λ '(n, content), c ← content; Some (n, c)) <$> cs), st).

(** The nodes a node refers to as its contents or target. *)
Definition children_of (n : node) : list id :=
  match n with
  | Primitive _ _ _ => []
  | ListCount _ c _ _ | ListOffset _ c _ _ | ListStartEnd _ _ c _ _ => [c]
  | Record cs _ _ => cs.*2
  | Tuple cs _ | UnionSparse _ cs _ _ | UnionSparseOffset _ _ cs _ _ => cs
  | Pointer _ t _ _ => [t]
  end.

(** [self.projection(required, _memo)]; the result is [None] or the rebuilt
    node. *)
Fixpoint projection (fuel : nat) (required : list id) (self : id)
    (st : gmap id (option id) * heap) {struct fuel}
    : res (option id * (gmap id (option id) * heap)) :=
  match fuel with
  | O => Timeout
  | S fuel =>
      let '(memo, h) := st in
      let child := memoized (projection fuel required) in
      n ← deref h self;
      '(any, _) ← hasany fuel h self required ∅;
      if negb any then Ok (None, (memo, h))
      else
        match n with
        | Primitive array masked _ =>
            let '(r, h) := alloc (Primitive array masked (Some self)) h in
            Ok (Some r, (memo, h))
        | ListCount countarray contents masked _ =>
            '(content, (memo, h)) ← child contents (memo, h);
            let '(c, h) := match content with
                           | Some c => (c, h)
                           | None => alloc (Primitive countarray masked None) h
                           end in
            let '(r, h) := alloc (ListCount countarray c masked (Some self)) h in
            Ok (Some r, (memo, h))
        | ListOffset offsetarray contents masked _ =>
            '(content, (memo, h)) ← child contents (memo, h);
            let '(c, h) := match content with
                           | Some c => (c, h)
                           | None => alloc (Primitive offsetarray masked None) h
                           end in
            let '(r, h) := alloc (ListOffset offsetarray c masked (Some self)) h in
            Ok (Some r, (memo, h))
        | ListStartEnd startarray endarray contents masked _ =>
            '(content, (memo, h)) ← child contents (memo, h);
            let '(c, h) := match content with
                           | Some c => (c, h)
                           | None => alloc (Primitive startarray masked None) h
                           end in
            let '(r, h) := alloc (ListStartEnd startarray endarray c masked (Some self)) h in
            Ok (Some r, (memo, h))
        | Record contents _ _ =>
            '(kept, (memo, h)) ←
              surviving_fields (projection fuel required) contents (memo, h);
            match kept with
            | [] => Ok (None, (memo, h))
            | _ => let '(r, h) := alloc (Record kept (Some self) default_name) h in
                   Ok (Some r, (memo, h))
            end
        | Tuple contents _ =>
            '(kept, (memo, h)) ← surviving (projection fuel required) contents (memo, h);
            match kept with
            | [] => Ok (None, (memo, h))
            | _ => let '(r, h) := alloc (Tuple kept (Some self)) h in
                   Ok (Some r, (memo, h))
            end
        | UnionSparse tagarray contents masked _ =>
            '(kept, (memo, h)) ← surviving (projection fuel required) contents (memo, h);
            match kept with
            | [] => Ok (None, (memo, h))
            | _ => let '(r, h) := alloc (UnionSparse tagarray kept masked (Some self)) h in
                   Ok (Some r, (memo, h))
            end
        | UnionSparseOffset tagarray offsetarray contents masked _ =>
            '(kept, (memo, h)) ← surviving (projection fuel required) contents (memo, h);
            match kept with
            | [] => Ok (None, (memo, h))
            | _ => let '(r, h) :=
                     alloc (UnionSparseOffset tagarray offsetarray kept masked (Some self)) h in
                   Ok (Some r, (memo, h))
            end
        | Pointer indexarray target masked _ =>
            '(content, (memo, h)) ← child target (memo, h);
            let '(t, h) := match content with
                           | Some t => (t, h)
                           | None => alloc (Primitive indexarray masked None) h
                           end in
            let '(r, h) := alloc (Pointer indexarray t masked (Some self)) h in
            Ok (Some r, (memo, h))
        end
  end.

(** [node.projection(required)] as a caller writes it ([_memo=None]). *)
Definition project (fuel : nat) (required : list id) (self : id) (h : heap)
    : res (option id * heap) :=
  '(r, (_, h)) ← projection fuel required self (∅, h);
  Ok (r, h).


(** *** Proxies *)

(** What [proxy] returns: [None], an element of an array, a character of a
    key (an unresolved [Primitive] indexes its key), or a view that holds its
    schema node and a row index. *)
Inductive value :=
  | VNone
  | VScalar (z : Z)
  | VStr (c : string)
  | VListProxy (schema : id) (index : Z)
  | VRecordProxy (schema : id) (index : Z)
  | VTupleProxy (schema : id) (index : Z).

Definition msg_unresolved : string :=
  "cannot get a proxy for an unresolved ObjectArrayMap; call the resolved method first or pass a source to this method".
Definition msg_missing_argument : string := "missing required positional argument".
Definition msg_unpack : string := "cannot unpack".
Definition msg_subscript : string := "object is not subscriptable".
Definition msg_tuple_index : string := "tuple indices must be integers".

(** [self.array()]: the call without arguments of a callable attribute. *)
Definition call0 (fuel : nat) (h : heap) (a : aref) : res sobj :=
  match a with
  | AUser (Some (S _)) _ => Raise (TypeError msg_missing_argument)
  | AUser _ f => Ok (f None None)
  | AResolve n s => force fuel h n s
  | _ => Raise (TypeError msg_not_callable)
  end.

Definition aref_of (o : sobj) : aref :=
  match o with SArray a => AArray a | _ => AOther end.

(** [getattr(a, "mask", None) is not None and a.mask[index]] *)
Definition invalid_at (a : aref) (index : Z) : res bool :=
  match a with
  | AArray a => masked_at a index
  | _ => Ok false
  end.

(** [a[index]] for an attribute that should hold an array of integers. *)
Definition index_at (a : aref) (index : Z) : res Z :=
  match a with
  | AArray a => getitem (data a) index
  | AKey _ => Raise (TypeError msg_tuple_index)
  | _ => Raise (TypeError msg_subscript)
  end.

(** [self.proxy(index)].  Forcing a callable attribute stores the result in
    the node: the heap is part of the result. *)
Fixpoint proxy (fuel : nat) (self : id) (index : Z) (h : heap) {struct fuel}
    : res (value * heap) :=
  match fuel with
  | O => Timeout
  | S fuel =>
      n ← deref h self;
      match n with
      | Primitive array masked base =>
          '(array, h) ← (if callable array
                         then r ← call0 fuel h array;
                              let a := aref_of r in
                              Ok (a, <[self := Primitive a masked base]> h)
                         else Ok (array, h));
          flag ← invalid_at array index;
          if (flag : bool) then Ok (VNone, h)
          else match array with
               | AArray a => x ← getitem (data a) index; Ok (VScalar x, h)
               | AKey k =>
                   c ← getitem (String.list_ascii_of_string k) index;
                   Ok (VStr (String c EmptyString), h)
               | _ => Raise (TypeError msg_subscript)
               end
      | ListStartEnd startarray endarray contents masked base =>
          '(startarray, h) ← (if callable startarray
                              then r ← call0 fuel h startarray;
                                   match r with
                                   | SPair s e =>
                                       Ok (AArray s,
                                             <[self := ListStartEnd (AArray s) (AArray e)
                                                         contents masked base]> h)
                                   | _ => Raise (ValueError msg_unpack)
                                   end
                              else Ok (startarray, h));
          flag ← invalid_at startarray index;
          if (flag : bool) then Ok (VNone, h) else Ok (VListProxy self index, h)
      | Record _ _ _ => Ok (VRecordProxy self index, h)
      | Tuple _ _ => Ok (VTupleProxy self index, h)
      | UnionSparseOffset tagarray offsetarray contents masked base =>
          '(tagarray, offsetarray, h) ←
            (if callable tagarray
             then r ← call0 fuel h tagarray;
                  match r with
                  | SPair t o =>
                      Ok (AArray t, AArray o,
                            <[self := UnionSparseOffset (AArray t) (AArray o)
                                        contents masked base]> h)
                  | _ => Raise (ValueError msg_unpack)
                  end
             else Ok (tagarray, offsetarray, h));
          flag ← invalid_at tagarray index;
          if (flag : bool) then Ok (VNone, h)
          else tag ← index_at tagarray index;
               offset ← index_at offsetarray index;
               c ← getitem contents tag;
               proxy fuel c offset h
      | Pointer indexarray target masked base =>
          '(indexarray, h) ← (if callable indexarray
                              then r ← call0 fuel h indexarray;
                                   let a := aref_of r in
                                   Ok (a, <[self := Pointer a target masked base]> h)
                              else Ok (indexarray, h));
          flag ← invalid_at indexarray index;
          if (flag : bool) then Ok (VNone, h)
          else offset ← index_at indexarray index;
               proxy fuel target offset h
      | ListCount _ _ _ _ | ListOffset _ _ _ _ | UnionSparse _ _ _ _ =>
          Raise (TypeError msg_unresolved)
      end
  end.





End Uninitialised.

(** *** Equality *)

Definition msg_ndarray : string := "name 'ndarray' is not defined".

(** [self.__eq__(other)].  The classes that carry an array compare it with
    [isinstance(self.array, ndarray)], and the module binds no name [ndarray]:
    past the [isinstance(other, <class>)] test they raise.  The [contents] of
    two records are compared as the [OrderedDict]s that [resolved] and
    [projection] build; items of a container are equal when identical. *)
Fixpoint __eq__ (fuel : nat) (h : heap) (self : id) (other : option id) {struct fuel}
    : res bool :=
  match fuel with
  | O => Timeout
  | S fuel =>
      let eq (a b : option id) : res bool :=
        match a, b with
        | None, None => Ok true
        | Some x, _ => __eq__ fuel h x b
        | None, Some y => __eq__ fuel h y None
        end in
      let item_eq (x y : id) : res bool :=
        if bool_decide (x = y) then Ok true else __eq__ fuel h x (Some y) in
      n ← deref h self;
      o ← match other with
          | Some x => n' ← deref h x; Ok (Some n')
          | None => Ok None
          end;
      match n, o with
      | Primitive _ _ _, Some (Primitive _ _ _)
      | ListCount _ _ _ _, Some (ListCount _ _ _ _)
      | ListOffset _ _ _ _, Some (ListOffset _ _ _ _)
      | ListStartEnd _ _ _ _ _, Some (ListStartEnd _ _ _ _ _)
      | UnionSparse _ _ _ _, Some (UnionSparse _ _ _ _)
      | UnionSparseOffset _ _ _ _ _, Some (UnionSparseOffset _ _ _ _ _)
      | Pointer _ _ _ _, Some (Pointer _ _ _ _) => Raise (NameError msg_ndarray)
      | Record c1 b1 n1, Some (Record c2 b2 n2) =>
          if negb (bool_decide (length c1 = length c2)) then Ok false
          else
            same ← (fix items (l : list (string * id)) : res bool :=
                      match l with
                      | [] => Ok true
                      | (k, x) :: l' =>
                          match list_find (λ kv, kv.1 = k) c2 with
                          | None => Ok false
                          | Some (_, (_, y)) =>
                              e ← item_eq x y;
                              if (e : bool) then items l' else Ok false
                          end
                      end) c1;
            if negb same then Ok false
            else if negb (bool_decide (c1.*1 = c2.*1)) then Ok false
            else e ← eq b1 b2;
                 if (e : bool) then Ok (bool_decide (n1 = n2)) else Ok false
      | Tuple c1 b1, Some (Tuple c2 b2) =>
          same ← (fix items (l1 l2 : list id) : res bool :=
                    match l1, l2 with
                    | x :: l1', y :: l2' =>
                        e ← item_eq x y;
                        if (e : bool) then items l1' l2' else Ok false
                    | [], [] => Ok true
                    | _, _ => Ok false
                    end) c1 c2;
          if (same : bool) then eq b1 b2 else Ok false
      | _, _ => Ok false
      end
  end.

(** [a == b] where either side may be [None]. *)
Definition py_eq (fuel : nat) (h : heap) (a b : option id) : res bool :=
  match a, b with
  | None, None => Ok true
  | Some x, _ => __eq__ fuel h x b
  | None, Some y => __eq__ fuel h y None
  end.

(** *** Bases and names *)

Definition base_of (n : node) : option id :=
  match n with
  | Primitive _ _ b | ListCount _ _ _ b | ListOffset _ _ _ b | ListStartEnd _ _ _ _ b
  | Record _ b _ | Tuple _ b | UnionSparse _ _ _ b | UnionSparseOffset _ _ _ _ b
  | Pointer _ _ _ b => b
  end.

(** [self.hasbase(base)]: the walk along the chain of bases; [base] is any
    object, also [None]. *)
Fixpoint hasbase (fuel : nat) (h : heap) (self : id) (base : option id) {struct fuel}
    : res bool :=
  match fuel with
  | O => Timeout
  | S fuel =>
      if bool_decide (Some self = base) then Ok true
      else n ← deref h self;
           match base_of n with
           | Some b => hasbase fuel h b base
           | None => Ok false
           end
  end.

(** What [_name] is: the array attribute of a node that has one, a string
    for a record or a tuple. *)
Inductive name_t :=
  | NArray (a : aref)
  | NStr (s : string).

Definition _name (n : node) : name_t :=
  match n with
  | Primitive array _ _ => NArray array
  | ListCount countarray _ _ _ => NArray countarray
  | ListOffset offsetarray _ _ _ => NArray offsetarray
  | ListStartEnd startarray _ _ _ _ => NArray startarray
  | Record _ _ nm => NStr nm
  | Tuple contents _ => NStr ("tuple" +:+ pretty (length contents))
  | UnionSparse tagarray _ _ _ => NArray tagarray
  | UnionSparseOffset tagarray _ _ _ _ => NArray tagarray
  | Pointer indexarray _ _ _ => NArray indexarray
  end.

(** The property [name]: the [_name] of the node the chain of bases ends
    at. *)
Fixpoint name (fuel : nat) (h : heap) (self : id) {struct fuel} : res name_t :=
  match fuel with
  | O => Timeout
  | S fuel =>
      n ← deref h self;
      match base_of n with
      | Some b => name fuel h b
      | None => Ok (_name n)
      end
  end.

(** [self.findbybase(base, _memo)]; [_memo] is a set of ids shared by the
    whole search. *)
Fixpoint findbybase (fuel : nat) (h : heap) (self : id) (base : option id) (memo : gset id)
    {struct fuel} : res (option id * gset id) :=
  match fuel with
  | O => Timeout
  | S fuel =>
      n ← deref h self;
      found ← hasbase fuel h self base;
      if (found : bool) then Ok (Some self, memo)
      else
        let one (child : id) :=
          if bool_decide (child ∈ memo) then Ok (None, memo)
          else findbybase fuel h child base ({[child]} ∪ memo) in
        let several :=
          fix loop (contents : list id) (memo : gset id) {struct contents}
              : res (option id * gset id) :=
            match contents with
            | [] => Ok (None, memo)
            | x :: contents' =>
                if bool_decide (x ∈ memo) then loop contents' memo
                else '(out, memo) ← findbybase fuel h x base ({[x]} ∪ memo);
                     match out with
                     | Some r => Ok (Some r, memo)
                     | None => loop contents' memo
                     end
            end in
        match n with
        | Primitive _ _ _ => Ok (None, memo)
        | ListCount _ contents _ _
        | ListOffset _ contents _ _
        | ListStartEnd _ _ contents _ _ => one contents
        | Record contents _ _ => several contents.*2 memo
        | Tuple contents _
        | UnionSparse _ contents _ _
        | UnionSparseOffset _ _ contents _ _ => several contents memo
        | Pointer _ target _ _ => one target
        end
  end.

(** The classes whose [resolved] starts with [_recursion_check]. *)
Definition is_container (n : node) : bool :=
  match n with
  | Primitive _ _ _ | Pointer _ _ _ _ => false
  | _ => true
  end.

End Schema.

(** ** plur/python/convert.py *)

Module Convert.

(** The type objects of [plur.types]; [Other] is any type object that is not
    one of the four. *)
Inductive ty :=
  | Primitive (dtype : dtype)
  | List (of_ : ty)
  | Union (of_ : list ty)
  | Record (of_ : list (string * ty))
  | Other.

(** The Python values handed to the flattener: a number, a list, a dict, or
    an object that is read through its attributes. *)
Inductive pyobj :=
  | PNum (z : Z)
  | PList (items : list pyobj)
  | PDict (items : list (string * pyobj))
  | PObject (attrs : list (string * pyobj)).

(** Modelled from the spec: [plur.types.arrayname.ArrayName] is not part of
    the sources.  A name is a structured path key: a prefix and path segments
    per list, union branch and field, joined by the delimiter. *)
Inductive segment :=
  | Lo
  | Ld
  | Ut
  | Uo
  | Ud (tag : nat)
  | R_ (fn : string).

Record ArrayName := {
  prefix : string;
  delimiter : string;
  path : list segment
}.

Definition extend (name : ArrayName) (s : segment) : ArrayName :=
  {| prefix := prefix name; delimiter := delimiter name; path := path name ++ [s] |}.

Definition toListOffset (name : ArrayName) := extend name Lo.
Definition toListData (name : ArrayName) := extend name Ld.
Definition toUnionTag (name : ArrayName) := extend name Ut.
Definition toUnionOffset (name : ArrayName) := extend name Uo.
Definition toUnionData (name : ArrayName) (tag : nat) := extend name (Ud tag).
Definition toRecord (name : ArrayName) (fn : string) := extend name (R_ fn).

Definition segment_str (s : segment) : string :=
  match s with
  | Lo => "Lo"
  | Ld => "Ld"
  | Ut => "Ut"
  | Uo => "Uo"
  | Ud tag => "Ud" +:+ pretty tag
  | R_ fn => "R_" +:+ fn
  end.

Definition str (name : ArrayName) : string :=
  foldl (λ acc s, acc +:+ delimiter name +:+ segment_str s) (prefix name) (path name).
#[global] Arguments str : simpl never.

(** Modelled from the spec: [plur.types.columns.type2columns] is not part of
    the sources.  One column per primitive, an offset column per list, a tag
    and an offset column per union, each under the name [recurse] fills.
    What the function does with a type object of another kind is not
    described; here it declares no column for it. *)
Fixpoint type2columns (tpe : ty) (name : ArrayName) (indextype : dtype)
    : list (string * dtype) :=
  match tpe with
  | Primitive d => [(str name, d)]
  | List of_ =>
      (str (toListOffset name), indextype) :: type2columns of_ (toListData name) indextype
  | Union of_ =>
      (str (toUnionTag name), indextype) :: (str (toUnionOffset name), indextype) ::
      (fix branches (ts : list ty) (tag : nat) : list (string * dtype) :=
         match ts with
         | [] => []
         | t :: ts' => type2columns t (toUnionData name tag) indextype ++ branches ts' (S tag)
         end) of_ 0%nat
  | Record of_ =>
      (fix fields (fs : list (string * ty)) : list (string * dtype) :=
         match fs with
         | [] => []
         | (fn, ft) :: fs' => type2columns ft (toRecord name fn) indextype ++ fields fs'
         end) of_
  | Other => []
  end.

(** Modelled from the spec: the domain of a dtype.  An integer is in the
    domain of an integer dtype when it is within its range, in the domain of
    [float64] when a double holds it exactly (53 bits of mantissa). *)
Definition f64_exact (z : Z) : bool :=
  let a := Z.abs z in
  (a <? 2 ^ 53) || ((a <? 2 ^ 1024) && (a mod 2 ^ (Z.log2 a - 52) =? 0)).

Definition in_domain (d : Numpy.dtype) (z : Z) : bool :=
  match d with
  | DInt true bits => (- 2 ^ (Z.of_N bits - 1) <=? z) && (z <? 2 ^ (Z.of_N bits - 1))
  | DInt false bits => (0 <=? z) && (z <? 2 ^ Z.of_N bits)
  | DBool => (0 <=? z) && (z <=? 1)
  | DFloat => f64_exact z
  end.

(** The name of a column of list offsets ends with the segment [Lo]. *)
Fixpoint ends_Lo (n : string) : bool :=
  match n with
  | EmptyString => false
  | String _ n' => bool_decide (n = "Lo") || ends_Lo n'
  end.

(** Modelled from the spec: [plur.python.fillmemory.FillableInMemory] is not
    part of the sources.  A fillable is a column under construction: [fill]
    appends a value, [finalize] returns the array.  A column of list offsets
    starts with the initial offset 0, as in the columns the spec lists for a
    flattened value (the offsets [0, 3] for one list of three elements); every
    other column starts empty.  Nothing is coerced: [finalize] fails where a
    value is outside the domain of the dtype. *)
Record fillable := { dtype : Numpy.dtype; filled : list Z }.

Definition FillableInMemory (n : string) (d : Numpy.dtype) : fillable :=
  {| dtype := d; filled := if ends_Lo n then [0] else [] |}.

Definition fill (f : fillable) (value : Z) : fillable :=
  {| dtype := dtype f; filled := filled f ++ [value] |}.

Definition msg_overflow : string := "value out of bounds for {0}".

Definition finalize (f : fillable) : res ndarray :=
  if forallb (in_domain (dtype f)) (filled f) then Ok (array (dtype f) (filled f))
  else Raise (OverflowError msg_overflow).

(** [dict((k, g(v)) for k, v in m.items())] *)
Definition comprehension {A B} (g : A → res B) (m : gmap string A) : res (gmap string B) :=
  kvs ← Proxy.mapM (λ kv, b ← g kv.2; Ok (kv.1, b)) (map_to_list m);
  Ok (list_to_map kvs).

(** Modelled from the spec: [plur.types.Primitive.__contains__] is not part
    of the sources.  A number is in a primitive type when it is in the domain
    of its dtype. *)
Definition contains (d : Numpy.dtype) (obj : pyobj) : bool :=
  match obj with
  | PNum z => in_domain d z
  | _ => false
  end.

(** The closure state of [toarrays]: [fillables], [last_list_offset] and
    [last_union_offset], keyed by the rendered name. *)
Record state := {
  fillables : gmap string fillable;
  last_list_offset : gmap string Z;
  last_union_offset : gmap string Z
}.

Definition msg_cannot_fill : string :=
  "cannot fill {0} where an object of type {1} is expected".
Definition msg_missing_field : string :=
  "cannot fill {0} (missing field {1}) where an object of type {2} is expected".
Definition msg_unexpected : string := "unexpected type object: {0}".

(** [fillables[name].fill(value)] *)
Definition fill_at (name : ArrayName) (value : Z) (st : state) : res state :=
  f ← dict_get (fillables st) (str name);
  Ok {| fillables := <[str name := fill f value]> (fillables st);
        last_list_offset := last_list_offset st;
        last_union_offset := last_union_offset st |}.

(** [obj[fn]] on a dict, [getattr(obj, fn)] on an object. *)
Fixpoint lookup_field (fn : string) (items : list (string * pyobj)) : option pyobj :=
  match items with
  | [] => None
  | (k, v) :: items' => if bool_decide (k = fn) then Some v else lookup_field fn items'
  end.

(** [for x in xs: body(x)], the body threading the state. *)
Fixpoint each {A} (body : A → state → res state) (xs : list A) (st : state) : res state :=
  match xs with
  | [] => Ok st
  | x :: xs' => st ← body x st; each body xs' st
  end.

(** [for i, t in enumerate(ts): if test(t): ...; break]: [found i t] at the
    first [t] that passes the test, [none] when the loop ends without one. *)
Fixpoint first_match {A R} (test : A → bool) (found : nat → A → R) (none : R) (i : nat)
    (ts : list A) : R :=
  match ts with
  | [] => none
  | t :: ts' => if test t then found i t else first_match test found none (S i) ts'
  end.

Section Classification.

(** [infertype(obj).issubtype(possibility)]: type inference is outside the
    sources; the flattener only uses this test. *)
Variable issubtype : pyobj → ty → bool.

(** [recurse(obj, tpe, name)] of [toarrays] *)
Fixpoint recurse (tpe : ty) (obj : pyobj) (name : ArrayName) (st : state) {struct tpe}
    : res state :=
  match tpe with
  | Primitive d =>
      if negb (contains d obj) then Raise (TypeError msg_cannot_fill)
      else match obj with
           | PNum z => fill_at name z st
           | _ => Raise (TypeError msg_cannot_fill)
           end
  | List of_ =>
      match obj with
      | PList items =>
          let nameoffset := toListOffset name in
          let namedata := toListData name in
          let last := default 0 (last_list_offset st !! str nameoffset)
                      + Z.of_nat (length items) in
          let st := {| fillables := fillables st;
                       last_list_offset := <[str nameoffset := last]> (last_list_offset st);
                       last_union_offset := last_union_offset st |} in
          st ← fill_at nameoffset last st;
          each (λ x st, recurse of_ x namedata st) items st
      | _ => Raise (TypeError msg_cannot_fill)
      end
  | Union of_ =>
      first_match (issubtype obj)
        (λ tag possibility,
           let nametag := toUnionTag name in
           let nameoffset := toUnionOffset name in
           let namedata := toUnionData name tag in
           let offset := default 0 (last_union_offset st !! str namedata) in
           st ← fill_at nametag (Z.of_nat tag) st;
           st ← fill_at nameoffset offset st;
           let st := {| fillables := fillables st;
                        last_list_offset := last_list_offset st;
                        last_union_offset :=
                          <[str namedata := offset + 1]> (last_union_offset st) |} in
           recurse possibility obj namedata st)
        (Raise (TypeError msg_cannot_fill)) 0%nat of_
  | Record of_ =>
      let items := match obj with
                   | PDict items => items
                   | PObject attrs => attrs
                   | _ => []
                   end in
      each (λ field st,
              match lookup_field field.1 items with
              | None => Raise (TypeError msg_missing_field)
              | Some v => recurse field.2 v (toRecord name field.1) st
              end) of_ st
  | Other => Raise (AssertionError msg_unexpected)
  end.


(** [toarrays(prefix, obj, tpe, delimiter=, indextype=)] with the default
    [fillable]. *)
Definition toarrays (prefix : string) (obj : pyobj) (tpe : ty) (delimiter : string)
    (indextype : Numpy.dtype) : res (gmap string ndarray) :=
  let name := {| prefix := prefix; delimiter := delimiter; path := [] |} in
  let dtypes := type2columns tpe name indextype in
  let fillables : gmap string fillable :=
    list_to_map ((λ '(n, d), (n, FillableInMemory n d)) <$> dtypes) in
  st ← recurse tpe obj name
         {| fillables := fillables; last_list_offset := ∅; last_union_offset := ∅ |};
  comprehension finalize (Convert.fillables st).

End Classification.

End Convert.

(** ** From the flattener's columns to a resolved schema *)

Module Pipeline.
Import Convert.

(** The children of a node, built one after the other in the heap. *)
Fixpoint build {A B} (f : nat → A → Schema.heap → option (B * Schema.heap)) (tag : nat)
    (ts : list A) (h : Schema.heap) : option (list B * Schema.heap) :=
  match ts with
  | [] => Some ([], h)
  | t :: ts' =>
      '(c, h) ← f tag t h;
      '(cs, h) ← build f (S tag) ts' h;
      Some (c :: cs, h)
  end.

(** Modelled from the spec: the sources hold no function that turns a
    [plur] type into an [arrowed] schema.  The schema of [tpe] refers to the
    columns by the names [recurse] fills (the key algebra shared by the
    flattener and the resolver): a list reads its offset column, a union its
    tag and offset columns.  Children are constructed before their parent. *)
Fixpoint schema_of (tpe : ty) (name : ArrayName) (h : Schema.heap) {struct tpe}
    : option (Schema.id * Schema.heap) :=
  match tpe with
  | Primitive _ => Some (Schema.alloc (Schema.Primitive (Schema.AKey (str name)) false None) h)
  | List of_ =>
      '(c, h) ← schema_of of_ (toListData name) h;
      Some (Schema.alloc
              (Schema.ListOffset (Schema.AKey (str (toListOffset name))) c false None) h)
  | Union of_ =>
      '(cs, h) ← build (λ tag t h, schema_of t (toUnionData name tag) h) 0%nat of_ h;
      Some (Schema.alloc
              (Schema.UnionSparseOffset (Schema.AKey (str (toUnionTag name)))
                 (Schema.AKey (str (toUnionOffset name))) cs false None) h)
  | Record of_ =>
      '(cs, h) ← build (λ _ field h,
                          '(c, h) ← schema_of field.2 (toRecord name field.1) h;
                          Some ((field.1, c), h)) 0%nat of_ h;
      Some (Schema.alloc (Schema.Record cs None Schema.default_name) h)
  | Other => None
  end.

(** The results of [f] at the branches of a union, numbered from [tag]. *)
Fixpoint branches {A B} (f : nat → A → B) (tag : nat) (ts : list A) : list B :=
  match ts with
  | [] => []
  | t :: ts' => f tag t :: branches f (S tag) ts'
  end.

(** What a column holds: data of a primitive, offsets of a list, tags or
    offsets of a union. *)
Inductive kind := KData | KOffset | KTag | KUnionOffset.

#[global] Instance kind_eq_dec : EqDecision kind.
Proof. solve_decision. Defined.

(** The columns of a type at a name, with their kinds, in the order of
    [type2columns]. *)
Fixpoint kinded (tpe : ty) (name : ArrayName) : list (string * kind) :=
  match tpe with
  | Primitive _ => [(str name, KData)]
  | List of_ => (str (toListOffset name), KOffset) :: kinded of_ (toListData name)
  | Union of_ =>
      (str (toUnionTag name), KTag) :: (str (toUnionOffset name), KUnionOffset) ::
      concat (branches (λ tag t, kinded t (toUnionData name tag)) 0%nat of_)
  | Record of_ => concat (map (λ p, kinded p.2 (toRecord name p.1)) of_)
  | Other => []
  end.





(** The name [toarrays] starts from, with its default delimiter. *)
Definition root (prefix : string) : ArrayName :=
  {| prefix := prefix; delimiter := "-"; path := [] |}.


End Pipeline.

(** ** The round trip, position by position *)

Module RoundTrip.
Import Convert Pipeline.


(** [P tag t lo c]: the subtree of the child [c] lies in [lo .. c]; the
    subtrees follow each other and end before [hi]. *)
Fixpoint chain {A} (P : nat → A → nat → nat → Prop) (tag : nat) (ts : list A)
    (cs : list nat) (lo hi : nat) : Prop :=
  match ts, cs with
  | [], [] => (lo ≤ hi)%nat
  | t :: ts', c :: cs' => P tag t lo c ∧ chain P (S tag) ts' cs' (S c) hi
  | _, _ => False
  end.


(** The nesting depth of a type: the fuel a walk over it needs. *)
Fixpoint depth (tpe : ty) : nat :=
  match tpe with
  | Primitive _ | Other => 1
  | List of_ => S (depth of_)
  | Union of_ => S (foldr max 0%nat (map depth of_))
  | Record of_ => S (foldr max 0%nat (map (λ p, depth p.2) of_))
  end.

Definition columns (tpe : ty) (name : ArrayName) : list string := (kinded tpe name).*1.










(** The template that [schema_of] builds for a type at a name: node [t] of
    the heap, its subtree in the positions [lo .. t]. *)
Fixpoint Template (H : Schema.heap) (tpe : ty) (name : ArrayName) (lo t : nat)
    {struct tpe} : Prop :=
  match tpe with
  | Primitive _ =>
      (lo ≤ t)%nat
      ∧ H !! t = Some (Schema.Primitive (Schema.AKey (str name)) false None)
  | List of_ =>
      ∃ c, H !! t = Some (Schema.ListOffset (Schema.AKey (str (toListOffset name))) c
                            false None)
           ∧ (c < t)%nat ∧ Template H of_ (toListData name) lo c
  | Union of_ =>
      ∃ cs, H !! t = Some (Schema.UnionSparseOffset (Schema.AKey (str (toUnionTag name)))
                             (Schema.AKey (str (toUnionOffset name))) cs false None)
            ∧ chain (λ tag t lo c, Template H t (toUnionData name tag) lo c) 0%nat of_ cs lo t
  | Record of_ =>
      ∃ cs, H !! t = Some (Schema.Record cs None Schema.default_name)
            ∧ cs.*1 = of_.*1
            ∧ chain (λ _ p lo c, Template H p.2 (toRecord name p.1) lo c) 0%nat of_ cs.*2 lo t
  | Other => False
  end.

Definition plain (a : ndarray) : Prop :=
  shape_tail a = [] ∧ recarray a = false ∧ mask a = None.




(** The columns only grow at their end. *)
Definition grows (st st' : state) : Prop :=
  ∀ k f, fillables st !! k = Some f →
    ∃ f', fillables st' !! k = Some f' ∧ dtype f' = dtype f
          ∧ ∃ more, filled f' = filled f ++ more.

(** Outside the columns [C] and the union counters [U] nothing changed. *)
Definition frame (C U : list string) (st st' : state) : Prop :=
  (∀ k, k ∉ C → fillables st' !! k = fillables st !! k
                ∧ last_list_offset st' !! k = last_list_offset st !! k)
  ∧ (∀ k, k ∉ U → last_union_offset st' !! k = last_union_offset st !! k).


(** A type built from the four type objects the flattener knows. *)
Fixpoint supported (tpe : ty) : bool :=
  match tpe with
  | Primitive _ => true
  | List of_ => supported of_
  | Union of_ => forallb supported of_
  | Record of_ => forallb (λ p, supported p.2) of_
  | Other => false
  end.






(** What the lazy resolver does at the template of a type: whatever the
    source holds, it returns a tree. *)
Definition resolves_lazily (garbage : nat → Z) (tpe : ty) : Prop :=
  ∀ src name lo t memo H fuel,
    Template H tpe name lo t →
    (∀ k, (lo ≤ k ≤ t)%nat → memo !! k = None) →
    (depth tpe ≤ fuel)%nat →
    ∃ r memo' ext,
      Schema.resolved garbage fuel src true t (memo, H) = Ok (r, (memo', H ++ ext))
      ∧ ∀ k, ¬ (lo ≤ k ≤ t)%nat → memo' !! k = memo !! k.

(** What a successful eager resolution of the template of a type has
    checked: every column of the type is in the source, as a one-dimensional
    non-record array without a mask, of integers where it is an index. *)
Definition validates (garbage : nat → Z) (tpe : ty) : Prop :=
  ∀ src name lo t memo H fuel r st',
    Template H tpe name lo t →
    Schema.resolved garbage fuel src false t (memo, H) = Ok (r, st') →
    ∀ k kd, (k, kd) ∈ kinded tpe name →
      ∃ a, src !! k = Some (Schema.SArray a) ∧ plain a
           ∧ (kd ≠ KData → is_integer (dtype_of a) = true).

(** The columns only grow at their end and no column is added. *)
Definition appended (st st' : state) : Prop :=
  grows st st' ∧ ∀ k, fillables st !! k = None → fillables st' !! k = None.

(** A value fits a type: a number of the domain of a primitive, a list of
    fitting values, a value that fits the first possibility the
    classification accepts, a value on which every declared field is found
    and fits. *)
Fixpoint fitsb (issubtype : pyobj → ty → bool) (tpe : ty) (obj : pyobj) : bool :=
  match tpe with
  | Primitive d => contains d obj
  | List of_ =>
      match obj with
      | PList items => forallb (fitsb issubtype of_) items
      | _ => false
      end
  | Union of_ => first_match (issubtype obj) (λ _ t, fitsb issubtype t obj) false 0%nat of_
  | Record of_ =>
      let items := match obj with
                   | PDict items => items
                   | PObject attrs => attrs
                   | _ => []
                   end in
      forallb (λ field, match lookup_field field.1 items with
                        | Some v => fitsb issubtype field.2 v
                        | None => false
                        end) of_
  | Other => false
  end.





End RoundTrip.

(** ** Nodes built by one projection *)

Module Fresh.
Import Schema.

(** From position [n0] on, a node refers only to nodes that were built
    after [n0] and before itself. *)
Definition built_after (n0 : nat) (h : heap) : Prop :=
  ∀ i n, h !! i = Some n → (n0 ≤ i)%nat → Forall (λ c, (n0 ≤ c < i)%nat) (children_of n).

(** The memo of a projection that started at [n0] holds nodes built after
    [n0]. *)
Definition memo_after (n0 : nat) (memo : gmap id (option id)) (h : heap) : Prop :=
  ∀ k c, memo !! k = Some (Some c) → (n0 ≤ c < length h)%nat.

Definition state_after (n0 : nat) (st : gmap id (option id) * heap) : Prop :=
  (n0 ≤ length st.2)%nat ∧ built_after n0 st.2 ∧ memo_after n0 st.1 st.2.

(** A method that only adds nodes, and returns [None] or a node built
    after [n0]. *)
Definition adds_after (n0 : nat) {R} (fresh : R → heap → Prop)
    (f : gmap id (option id) * heap → res (R * (gmap id (option id) * heap))) : Prop :=
  ∀ st r st', f st = Ok (r, st') → state_after n0 st →
    state_after n0 st' ∧ (length st.2 ≤ length st'.2)%nat ∧ fresh r st'.2.

Definition fresh_id (n0 : nat) (c : id) (h : heap) : Prop := (n0 ≤ c < length h)%nat.

Definition fresh_option (n0 : nat) (r : option id) (h : heap) : Prop :=
  ∀ p, r = Some p → fresh_id n0 p h.

(** The equation [project(project(S, R), R) == project(S, R)] at a tree
    [self] whose projection is a node. *)
Definition idempotent_at (fuel : nat) (required : list id) (self : id) (h : heap) : Prop :=
  ∀ p h1, project fuel required self h = Ok (Some p, h1) →
    ∃ q h2, project fuel required p h1 = Ok (q, h2) ∧ py_eq fuel h2 q (Some p) = Ok true.

(** A later state of a resolution pass: nodes were only added to the heap,
    and what the memo held an entry for it still holds an entry for. *)
Definition grown (st st' : gmap id (option id) * heap) : Prop :=
  (∃ ext, st'.2 = st.2 ++ ext) ∧ ∀ k, is_Some (st.1 !! k) → is_Some (st'.1 !! k).

(** [y] is [x] or is reached from [x] through contents and targets. *)
Inductive reaches (h : heap) : id → id → Prop :=
  | reaches_here x : reaches h x x
  | reaches_child x n c y :
      h !! x = Some n → c ∈ children_of n → reaches h c y → reaches h x y.

End Fresh.

(** * Properties *)

(** ** Sequence views ([oamap/proxy.py]) *)

Section ListProxy_facts.
Import Proxy.









End ListProxy_facts.

(** ** Masked rows *)

(** C9. A row that the validity mask of a nullable node flags as invalid
    materializes to [None], whatever the data arrays hold at that row: for the
    resolved [Primitive], list, union and [Pointer] nodes of [arrowed/schema.py]
    (the mask is the one of the array, start, tag and index array), for the
    [Masked] proxy classes of [oamap/proxy.py] and for the [Masked] generators
    of [oamap/generator.py]. *)
Theorem masked_row_is_None :
  (∀ garbage fuel (h : Schema.heap) (self : Schema.id) index a masked base,
     masked_at a index = Ok true →
     (h !! self = Some (Schema.Primitive (Schema.AArray a) masked base) →
      Schema.proxy garbage (S fuel) self index h = Ok (Schema.VNone, h))
     ∧ (∀ e c, h !! self = Some (Schema.ListStartEnd (Schema.AArray a) e c masked base) →
        Schema.proxy garbage (S fuel) self index h = Ok (Schema.VNone, h))
     ∧ (∀ o cs, h !! self = Some (Schema.UnionSparseOffset (Schema.AArray a) o cs masked base) →
        Schema.proxy garbage (S fuel) self index h = Ok (Schema.VNone, h))
     ∧ (∀ t, h !! self = Some (Schema.Pointer (Schema.AArray a) t masked base) →
        Schema.proxy garbage (S fuel) self index h = Ok (Schema.VNone, h)))
  ∧ (∀ m base (arrays : Proxy.arrays_t) index a flag,
       arrays !! m = Some a → getitem a index = Ok flag → flag ≠ 0 →
       Proxy.new (Proxy.Masked m base) arrays index = Ok Proxy.None_)
  ∧ (∀ m maskidx base arrays index c a c' flag,
       Generator._getarray arrays m c maskidx bool_ [] = Ok (a, c') →
       getitem (data a) index = Ok flag → flag ≠ 0 →
       Generator._generate (Generator.Masked m maskidx base) arrays index c
         = Ok (Generator.GNone, c')).
Proof.
  split; [|split].
  - intros garbage fuel h self index a masked base Hflag.
    repeat split; intros; cbn; unfold Schema.deref;
      match goal with H : h !! self = Some _ |- _ => rewrite H end;
      cbn; rewrite Hflag; reflexivity.
  - intros m base arrays index a flag Ha Hflag Hnz. cbn [Proxy.new].
    unfold dict_get in *. rewrite Ha. cbn. rewrite Hflag. cbn.
    destruct (flag =? 0) eqn:E; [lia | reflexivity].
  - intros m maskidx base arrays index c a c' flag Ha Hflag Hnz. cbn.
    rewrite Ha. cbn. rewrite Hflag. cbn.
    destruct (flag =? 0) eqn:E; [lia | reflexivity].
Qed.

(** The theorem at row 1 of a column whose mask flags row 1: the raw content
    20 is not read. *)
Lemma masked_row_is_None_witness :
  Schema.proxy (λ _, 0) 1
    0%nat 1 [Schema.Primitive
               (Schema.AArray (masked_array int64 [10; 20; 30] [false; true; false]))
               true None]
    = Ok (Schema.VNone,
          [Schema.Primitive
             (Schema.AArray (masked_array int64 [10; 20; 30] [false; true; false]))
             true None])
  ∧ Proxy.new (Proxy.Masked "m" (Proxy.PrimitiveProxy "d"))
      (<["m" := [0; 1; 0]]> {["d" := [10; 20; 30]]}) 1 = Ok Proxy.None_
  ∧ Generator._generate
      (Generator.Masked "m" 0 (Generator.PrimitiveGenerator "d" 1 int64 []))
      (<["m" := array bool_ [0; 1; 0]]> {["d" := array int64 [10; 20; 30]]}) 1
      (Generator.Cache 2)
    = Ok (Generator.GNone, [Some (array bool_ [0; 1; 0]); None]).
Proof.
  destruct masked_row_is_None as (HS & HP & HG).
  split; [|split].
  - destruct (HS (λ _, 0) 0%nat
                [Schema.Primitive
                   (Schema.AArray (masked_array int64 [10; 20; 30] [false; true; false]))
                   true None]
                0%nat 1 (masked_array int64 [10; 20; 30] [false; true; false]) true None
                eq_refl) as [H _].
    apply H. reflexivity.
  - apply (HP "m" (Proxy.PrimitiveProxy "d") _ 1 [0; 1; 0] 1); [reflexivity | reflexivity | lia].
  - apply (HG "m" 0%nat _ _ 1 _ (array bool_ [0; 1; 0]) _ 1); [reflexivity | reflexivity | lia].
Defined.

(** ** Lists: from counts to offsets *)

Section ListCount_facts.
Import Schema.











End ListCount_facts.

(** ** Unions: offsets synthesised from tags *)

Section UnionSparse_facts.
Import Schema.
Variable garbage : nat → Z.











End UnionSparse_facts.


(** ** Lists: start and end references *)

Section ListStartEnd_facts.
Import Schema.
Variable garbage : nat → Z.

Lemma _resolved_check_message (o : sobj) (m1 m2 : string) masked chk (a : ndarray) :
  _resolved_check o m1 masked chk = Ok a → _resolved_check o m2 masked chk = Ok a.
Proof.
  unfold _resolved_check. destruct o; try discriminate.
  case_match; [done | discriminate].
Qed.

(** The message only matters when the check fails. *)
Lemma _resolved_message fuel (h : heap) self obj (src : source) (m1 m2 : string) masked chk a :
  _resolved garbage fuel h self obj src m1 masked chk = Ok a →
  _resolved garbage fuel h self obj src m2 masked chk = Ok a.
Proof.
  destruct fuel as [|fuel]; [discriminate|]. cbn [_resolved].
  destruct obj as [|k|a0|argc f|n s|]; try discriminate.
  - destruct (src !! k); [apply _resolved_check_message | discriminate].
  - apply _resolved_check_message.
  - apply _resolved_check_message.
  - destruct (force garbage fuel h n s); cbn; try discriminate.
    apply _resolved_check_message.
Qed.

(** Whatever the end reference is, a resolved [ListStartEnd] node holds the
    array of the start reference twice. *)
Lemma ListStartEnd_resolved_end_is_start fuel (src : source) (h : heap) (self : id)
    startarray endarray contents masked base (a : ndarray) memo rc memo1 h1 :
  h !! self = Some (ListStartEnd startarray endarray contents masked base) →
  _resolved garbage (S fuel) h self startarray src msg_ListStartEnd_start masked integer
    = Ok a →
  memo !! self = None →
  resolved garbage (S (S fuel)) src false contents (<[self := None]> memo, h)
    = Ok (rc, (memo1, h1)) →
  resolved garbage (S (S (S fuel))) src false self (memo, h)
    = Ok (length h1,
          (<[self := Some (length h1)]> memo1,
           h1 ++ [ListStartEnd (AArray (_toint64 a)) (AArray (_toint64 a)) rc masked
                    (Some self)])).
Proof.
  intros Hself Ha Hmemo Hrc.
  remember (S (S fuel)) as f2 eqn:Hf2 in *.
  cbn [resolved]. unfold deref. rewrite Hself. cbn [mbind res_bind].
  unfold _recursion_check. rewrite Hmemo. cbn [mbind res_bind].
  rewrite Hf2 at 1. remember (S fuel) as f1 eqn:Hf1 in *.
  cbn [force]. unfold deref. rewrite Hself. cbn [mbind res_bind].
  rewrite Ha, (_resolved_message _ _ _ _ _ _ msg_ListStartEnd_end _ _ _ Ha).
  cbn [mbind res_bind]. rewrite Hrc. reflexivity.
Qed.

End ListStartEnd_facts.

(** C5 (the code departs from the claim). A [ListStartEnd] node whose start
    and end references name the distinct arrays [0, 2] and [2, 5] of the
    source resolves to the pair ([0, 2], [0, 2]): the end array is bound from
    the start reference.  The [ListOffset] node over the offsets [0, 2, 5]
    resolves to ([0, 2], [2, 5]). *)
Theorem ListStartEnd_resolved_binds_end_from_start :
  Schema.resolve (λ _, 0) 3
    {["s" := Schema.SArray (array int64 [0; 2]);
      "e" := Schema.SArray (array int64 [2; 5]);
      "d" := Schema.SArray (array int64 [1; 2; 3; 4; 5])]} false 1%nat
    [Schema.Primitive (Schema.AKey "d") false None;
     Schema.ListStartEnd (Schema.AKey "s") (Schema.AKey "e") 0%nat false None]
  = Ok (3%nat,
        [Schema.Primitive (Schema.AKey "d") false None;
         Schema.ListStartEnd (Schema.AKey "s") (Schema.AKey "e") 0%nat false None;
         Schema.Primitive (Schema.AArray (array int64 [1; 2; 3; 4; 5])) false (Some 0%nat);
         Schema.ListStartEnd (Schema.AArray (array int64 [0; 2]))
           (Schema.AArray (array int64 [0; 2])) 2%nat false (Some 1%nat)])
  ∧ Schema.resolve (λ _, 0) 3
      {["o" := Schema.SArray (array int64 [0; 2; 5]);
        "d" := Schema.SArray (array int64 [1; 2; 3; 4; 5])]} false 1%nat
      [Schema.Primitive (Schema.AKey "d") false None;
       Schema.ListOffset (Schema.AKey "o") 0%nat false None]
    = Ok (3%nat,
          [Schema.Primitive (Schema.AKey "d") false None;
           Schema.ListOffset (Schema.AKey "o") 0%nat false None;
           Schema.Primitive (Schema.AArray (array int64 [1; 2; 3; 4; 5])) false (Some 0%nat);
           Schema.ListStartEnd (Schema.AArray (array int64 [0; 2]))
             (Schema.AArray (array int64 [2; 5])) 2%nat false (Some 1%nat)]).
Proof. split; reflexivity. Qed.

(** ** The flattener and other kinds of type objects *)

(** An induction principle that reaches the types nested in lists. *)
Lemma ty_nested_ind (P : Convert.ty → Prop) :
  (∀ d, P (Convert.Primitive d)) →
  (∀ t, P t → P (Convert.List t)) →
  (∀ ts, Forall P ts → P (Convert.Union ts)) →
  (∀ fs, Forall (λ p, P p.2) fs → P (Convert.Record fs)) →
  P Convert.Other →
  ∀ t, P t.
Proof.
  intros HP HL HU HR HO. fix IH 1. intros [d|t|ts|fs|].
  - apply HP.
  - apply HL, IH.
  - apply HU. induction ts as [|t ts IHts]; constructor; [apply IH | apply IHts].
  - apply HR. induction fs as [|[fn ft] fs IHfs]; constructor; [apply IH | apply IHfs].
  - apply HO.
Qed.


Section Other_kinds.
Import Convert.
Variable issubtype : pyobj → ty → bool.









End Other_kinds.

Section Other_kinds_examples.
Import Convert.



End Other_kinds_examples.

(** ** Pointers and cycles *)

Section Pointer_cycle_facts.
Import Schema.

(** Two pointers that target each other: every resolution step moves to the
    other pointer with the memo unchanged, so no amount of fuel suffices. *)
Lemma Pointer_pair_diverges garbage (src : source) lazy a b m1 m2 b1 b2 (fuel : nat) :
  ∀ root, (root < 2)%nat →
    resolved garbage fuel src lazy root
      (∅, [Pointer a 1%nat m1 b1; Pointer b 0%nat m2 b2]) = Timeout.
Proof.
  induction fuel as [|fuel IH]; intros root Hroot; [done|].
  destruct root as [|[|root]]; [| |lia]; cbn [resolved]; cbn; by rewrite IH by lia.
Qed.

Lemma is_ok_bind_l {A B} (m : res A) (f : A → res B) :
  is_ok m = false → is_ok (m ≫= f) = false.
Proof. by destruct m. Qed.

Lemma is_ok_bind_r {A B} (m : res A) (f : A → res B) :
  (∀ a, is_ok (f a) = false) → is_ok (m ≫= f) = false.
Proof. intros Hf. destruct m; [apply Hf | done | done]. Qed.

(** The pointer met again below its target: the memo holds the placeholder
    of the target, and the new [Pointer] is refused. *)
Lemma Pointer_below_target garbage fuel (src : source) lazy (h : heap) self indexarray
    target masked base memo :
  h !! self = Some (Pointer indexarray target masked base) →
  memo !! target = Some None →
  is_ok (resolved garbage fuel src lazy self (memo, h)) = false.
Proof.
  intros Hself Hmemo. destruct fuel as [|fuel]; [done|].
  cbn [resolved]. unfold deref. rewrite Hself. cbn [mbind res_bind].
  rewrite Hmemo. cbn [mbind res_bind mret res_ret].
  unfold memo_get. rewrite Hmemo.
  destruct lazy; [done|].
  apply is_ok_bind_r. by intros [].
Qed.

(** A list whose contents is a pointer back to the list. *)
Lemma List_of_Pointer_to_self garbage fuel (src : source) lazy (h : heap) self offsetarray
    p indexarray masked base masked' base' memo :
  h !! self = Some (ListOffset offsetarray p masked base) →
  h !! p = Some (Pointer indexarray self masked' base') →
  is_ok (resolved garbage fuel src lazy self (memo, h)) = false.
Proof.
  intros Hself Hp. destruct fuel as [|fuel]; [done|].
  cbn [resolved]. unfold deref. rewrite Hself. cbn [mbind res_bind].
  unfold _recursion_check. destruct (memo !! self) eqn:Hmemo; [done|].
  cbn [mbind res_bind].
  assert (Hin : ∀ f, is_ok (resolved garbage f src lazy p (<[self := None]> memo, h)) = false).
  { intros f. eapply Pointer_below_target; [done | apply lookup_insert_eq]. }
  destruct lazy.
  - by apply is_ok_bind_l.
  - apply is_ok_bind_r. intros [| |]; try done. by apply is_ok_bind_l.
Qed.

(** C2 (the code departs from the claim). The pointer [p] whose target is
    the list [t = ListOffset("off", p)]: resolving [p] or [t] returns no
    resolved tree, whatever the source, the laziness and the fuel.  With both
    arrays in the source the resolution stops with the assertion error of
    [Pointer.__init__]: the inner visit of [p] finds the placeholder [None] of
    [t] in the memo and passes it on as the target.  Two pointers that target
    each other are resolved without end. *)
Theorem Pointer_cycle_is_not_resolved :
  (∀ garbage fuel (src : source) lazy root,
     is_ok (resolve garbage fuel src lazy root
              [Pointer (AKey "idx") 1%nat false None;
               ListOffset (AKey "off") 0%nat false None]) = false)
  ∧ (∀ root, (root < 2)%nat →
       resolve (λ _, 0) 5
         {["idx" := SArray (array int64 [0; 1]); "off" := SArray (array int64 [0; 1; 2])]}
         false root
         [Pointer (AKey "idx") 1%nat false None; ListOffset (AKey "off") 0%nat false None]
       = Raise (AssertionError bad_target))
  ∧ (∀ garbage fuel (src : source) lazy root, (root < 2)%nat →
       resolve garbage fuel src lazy root
         [Pointer (AKey "idx") 1%nat false None; Pointer (AKey "off") 0%nat false None]
       = Timeout).
Proof.
  split; [|split].
  - intros garbage fuel src lazy root. unfold resolve. apply is_ok_bind_l.
    destruct root as [|[|root]].
    + destruct fuel as [|fuel]; [done|].
      cbn [resolved]. cbn [deref lookup list_lookup mbind res_bind].
      rewrite lookup_empty. apply is_ok_bind_l, is_ok_bind_l.
      by eapply List_of_Pointer_to_self.
    + by eapply List_of_Pointer_to_self.
    + destruct fuel; done.
  - intros [|[|root]] Hroot; [reflexivity | reflexivity | lia].
  - intros garbage fuel src lazy root Hroot. unfold resolve.
    by rewrite Pointer_pair_diverges.
Qed.

End Pointer_cycle_facts.

(** ** Projection *)

Section Projection_facts.
Import Schema.

(** [Record.hasany] returns what its first child answers: a record whose
    first field is a primitive outside the required set is projected to
    [None], whatever its other fields are. *)
Lemma Record_projection_asks_first_child fuel (h : heap) (self : id) k0 c0 rest base name
    array masked base0 required memo :
  h !! self = Some (Record ((k0, c0) :: rest) base name) →
  h !! c0 = Some (Primitive array masked base0) →
  self ∉ required → c0 ∉ required →
  projection (S (S (S fuel))) required self (memo, h) = Ok (None, (memo, h)).
Proof.
  intros Hself Hc0 Hs Hc.
  remember (S (S fuel)) as f2 eqn:Hf2.
  cbn [projection]. unfold deref. rewrite Hself. cbn [mbind res_bind].
  subst f2. remember (S fuel) as f1 eqn:Hf1.
  cbn [hasany]. unfold deref. rewrite Hself. cbn [mbind res_bind].
  unfold is_in. rewrite bool_decide_eq_false_2 by done.
  cbn [fmap list_fmap snd first_unseen].
  rewrite bool_decide_eq_false_2 by set_solver.
  subst f1. cbn [hasany]. unfold deref. rewrite Hc0. cbn [mbind res_bind].
  unfold is_in. by rewrite bool_decide_eq_false_2 by done.
Qed.

(** C6 (the code departs from the claim). The record with the fields [a]
    and [b], projected on the required set that holds the node of [b], is
    [None]: the required node is pruned because it is the second child.
    Projected on the node of [a] it is the record with the field [a]. *)
Theorem Record_projection_prunes_second_child :
  project 3 [1%nat] 2%nat
    [Primitive (AKey "a") false None; Primitive (AKey "b") false None;
     Record [("a", 0%nat); ("b", 1%nat)] None "Record-0"]
  = Ok (None,
        [Primitive (AKey "a") false None; Primitive (AKey "b") false None;
         Record [("a", 0%nat); ("b", 1%nat)] None "Record-0"])
  ∧ hasany 3 [Primitive (AKey "a") false None; Primitive (AKey "b") false None;
              Record [("a", 0%nat); ("b", 1%nat)] None "Record-0"] 2%nat [1%nat] ∅
    = Ok (false, {[0%nat]})
  ∧ project 3 [0%nat] 2%nat
      [Primitive (AKey "a") false None; Primitive (AKey "b") false None;
       Record [("a", 0%nat); ("b", 1%nat)] None "Record-0"]
    = Ok (Some 4%nat,
          [Primitive (AKey "a") false None; Primitive (AKey "b") false None;
           Record [("a", 0%nat); ("b", 1%nat)] None "Record-0";
           Primitive (AKey "a") false (Some 0%nat);
           Record [("a", 3%nat)] (Some 2%nat) "Record-0"]).
Proof. split; [|split]; reflexivity. Qed.

End Projection_facts.

(** *** Projecting a projection *)

Section Reprojection.
Import Schema Fresh.
Variable n0 : nat.
Variable required : list id.

Lemma bind_Ok {A B} (m : res A) (f : A → res B) (b : B) :
  m ≫= f = Ok b → ∃ a, m = Ok a ∧ f a = Ok b.
Proof. destruct m as [a| |]; cbn; [eauto | done | done]. Qed.

Lemma fresh_id_mono c (h h' : heap) :
  fresh_id n0 c h → (length h ≤ length h')%nat → fresh_id n0 c h'.
Proof. unfold fresh_id. lia. Qed.

Lemma fresh_option_mono r (h h' : heap) :
  fresh_option n0 r h → (length h ≤ length h')%nat → fresh_option n0 r h'.
Proof. intros H Hle p Hp. eapply fresh_id_mono; eauto. Qed.

(** A constructor call whose arguments were built after [n0]. *)
Lemma alloc_after (n : node) memo (h : heap) :
  state_after n0 (memo, h) →
  Forall (λ c, fresh_id n0 c h) (children_of n) →
  state_after n0 (memo, (alloc n h).2) ∧ fresh_id n0 (alloc n h).1 (alloc n h).2.
Proof.
  intros (Hlen & Hbuilt & Hmemo) Hn. cbn in *. unfold fresh_id in *.
  split; [split; [|split]|]; cbn; rewrite ?length_app; cbn; try lia.
  - intros i m Hi Hi0.
    destruct (decide (i < length h)%nat) as [Hlt|Hge].
    + rewrite lookup_app_l in Hi by done. by eapply Hbuilt.
    + rewrite lookup_app_r in Hi by lia.
      destruct (i - length h)%nat as [|k] eqn:Hk; [|done].
      injection Hi as <-. assert (i = length h) as -> by lia. done.
  - intros k c Hk. specialize (Hmemo k c Hk). cbn in Hmemo. rewrite length_app. cbn. lia.
Qed.

Lemma memoized_after f :
  (∀ x, adds_after n0 (fresh_option n0) (f x)) →
  ∀ x, adds_after n0 (fresh_option n0) (memoized f x).
Proof.
  intros Hf x [memo h] r [memo' h'] Hr Hst. unfold memoized in Hr.
  destruct (memo !! x) as [content|] eqn:Hx.
  - injection Hr as <- <- <-. split; [done|]. split; [done|].
    intros p ->. destruct Hst as (_ & _ & Hmemo). by eapply Hmemo.
  - apply bind_Ok in Hr as ([content [memo1 h1]] & Hfx & Hr).
    injection Hr as <- <- <-.
    destruct (Hf x _ _ _ Hfx) as ((Hlen & Hbuilt & Hmemo) & Hle & Hfresh).
    { destruct Hst as (Hlen & Hbuilt & Hmemo). split; [done|]. split; [done|].
      intros k c Hk. cbn in *. destruct (decide (x = k)) as [->|Hne].
      - by rewrite lookup_insert_eq in Hk.
      - rewrite lookup_insert_ne in Hk by done. by eapply Hmemo. }
    split; [|done]. split; [done|]. split; [done|].
    intros k c Hk. cbn in *. destruct (decide (x = k)) as [->|Hne].
    + rewrite lookup_insert_eq in Hk. injection Hk as ->. by apply Hfresh.
    + rewrite lookup_insert_ne in Hk by done. by eapply Hmemo.
Qed.

Lemma mapM_st_after {A B} (fresh : B → heap → Prop) (g : A → _ → res (B * _)) :
  (∀ b (h h' : heap), fresh b h → (length h ≤ length h')%nat → fresh b h') →
  (∀ x, adds_after n0 fresh (g x)) →
  ∀ l, adds_after n0 (λ bs h, Forall (λ b, fresh b h) bs) (mapM_st g l).
Proof.
  intros Hmono Hg l. induction l as [|x l IH]; intros st r st' Hr Hst; cbn in Hr.
  - injection Hr as <- <-. done.
  - apply bind_Ok in Hr as ([y st1] & Hy & Hr).
    apply bind_Ok in Hr as ([ys st2] & Hys & Hr). injection Hr as <- <-.
    destruct (Hg x _ _ _ Hy Hst) as (Hst1 & Hle1 & Hy1).
    destruct (IH _ _ _ Hys Hst1) as (Hst2 & Hle2 & Hys2).
    split; [done|]. split; [lia|]. constructor; [by eapply Hmono | done].
Qed.

Lemma not_None_fresh (cs : list (option id)) (h : heap) :
  Forall (λ c, fresh_option n0 c h) cs → Forall (λ c, fresh_id n0 c h) (not_None cs).
Proof.
  induction 1 as [|[c|] cs Hc _ IH]; cbn; [done | | done].
  constructor; [by apply Hc | done].
Qed.

Lemma surviving_after f :
  (∀ x, adds_after n0 (fresh_option n0) (f x)) →
  ∀ l, adds_after n0 (λ cs h, Forall (λ c, fresh_id n0 c h) cs) (surviving f l).
Proof.
  intros Hf l st r st' Hr Hst. unfold surviving in Hr.
  apply bind_Ok in Hr as ([cs st1] & Hcs & Hr). injection Hr as <- <-.
  destruct (mapM_st_after (fresh_option n0) (memoized f) fresh_option_mono
              (memoized_after f Hf) l _ _ _ Hcs Hst) as (Hst1 & Hle & Hfresh).
  split; [done|]. split; [done|]. by apply not_None_fresh.
Qed.

Lemma surviving_fields_after f :
  (∀ x, adds_after n0 (fresh_option n0) (f x)) →
  ∀ l, adds_after n0 (λ cs h, Forall (λ c, fresh_id n0 c h) cs.*2) (surviving_fields f l).
Proof.
  intros Hf l st r st' Hr Hst. unfold surviving_fields in Hr.
  apply bind_Ok in Hr as ([cs st1] & Hcs & Hr). injection Hr as <- <-.
  assert (Hg : ∀ kx : string * id,
            adds_after n0 (λ (kc : string * option id) h, fresh_option n0 kc.2 h)
              ((λ '(n, x) st, '(content, st) ← memoized f x st; Ok ((n, content), st)) kx)).
  { intros [k x] st0 r0 st0' Hr0 Hst0.
    apply bind_Ok in Hr0 as ([content st2] & Hm & Hr0). injection Hr0 as <- <-.
    by destruct (memoized_after f Hf x _ _ _ Hm Hst0) as (? & ? & ?). }
  destruct (mapM_st_after _ _ (λ kc h h', fresh_option_mono kc.2 h h') Hg l _ _ _ Hcs Hst)
    as (Hst1 & Hle & Hfresh).
  split; [done|]. split; [done|]. cbn in Hfresh.
  clear Hcs. induction cs as [|[k [c|]] cs IH]; cbn.
  - constructor.
  - inversion Hfresh as [|? ? Hc Hcs]; subst. constructor; [by apply Hc | by apply IH].
  - inversion Hfresh as [|? ? Hc Hcs]; subst. by apply IH.
Qed.

(** Every node a projection builds refers only to nodes the same projection
    built before it. *)
Lemma projection_after fuel :
  ∀ self, adds_after n0 (fresh_option n0) (projection fuel required self).
Proof.
  induction fuel as [|fuel IH]; intros self [memo h] r [memo' h'] Hr Hst; [done|].
  cbn [projection] in Hr.
  apply bind_Ok in Hr as (n & Hn & Hr).
  apply bind_Ok in Hr as ([any ?] & _ & Hr).
  destruct any; cbn [negb] in Hr; [|by injection Hr as <- <- <-].
  pose proof (memoized_after _ IH) as Hchild.
  assert (Hone : ∀ contents content memo1 h1 (prim parent : id → node),
    memoized (projection fuel required) contents (memo, h) = Ok (content, (memo1, h1)) →
    (∀ c, children_of (prim c) = []) → (∀ c, children_of (parent c) = [c]) →
    (let '(c, h2) := match content with
                     | Some c => (c, h1)
                     | None => alloc (prim 0%nat) h1
                     end in
     let '(r0, h3) := alloc (parent c) h2 in Ok (Some r0, (memo1, h3)))
      = Ok (r, (memo', h')) →
    state_after n0 (memo', h') ∧ (length h ≤ length h')%nat ∧ fresh_option n0 r h').
  { intros contents content memo1 h1 prim parent Hc Hprim Hparent Hfin.
    destruct (Hchild _ _ _ _ Hc Hst) as (Hst1 & Hle & Hfresh). cbn in Hle, Hfresh.
    destruct content as [c|].
    - destruct (alloc_after (parent c) memo1 h1 Hst1) as [Hst2 Hid].
      { rewrite Hparent. constructor; [by apply Hfresh | done]. }
      cbn in Hfin. injection Hfin as <- <- <-.
      split; [done|]. split; [rewrite length_app; lia|]. by intros p [= <-].
    - destruct (alloc_after (prim 0%nat) memo1 h1 Hst1) as [Hst2 Hid].
      { by rewrite Hprim. }
      destruct (alloc_after (parent (length h1)) memo1 (h1 ++ [prim 0%nat]) Hst2)
        as [Hst3 Hid3].
      { rewrite Hparent. constructor; [done | done]. }
      cbn in Hfin. injection Hfin as <- <- <-.
      split; [done|]. split; [rewrite !length_app; lia|]. by intros p [= <-]. }
  assert (Hmany : ∀ (A : Type) (kept : list A) memo1 h1 (parent : node),
    state_after n0 (memo1, h1) → (length h ≤ length h1)%nat →
    Forall (λ c, fresh_id n0 c h1) (children_of parent) →
    match kept with
    | [] => Ok (None, (memo1, h1))
    | _ :: _ => let '(r0, h2) := alloc parent h1 in Ok (Some r0, (memo1, h2))
    end = Ok (r, (memo', h')) →
    state_after n0 (memo', h') ∧ (length h ≤ length h')%nat ∧ fresh_option n0 r h').
  { intros A kept memo1 h1 parent Hst1 Hle Hkids Hfin.
    destruct (alloc_after parent memo1 h1 Hst1 Hkids) as [Hst2 Hid].
    destruct kept; cbn in Hfin; injection Hfin as <- <- <-.
    - split; [done|]. split; [done|]. by intros p.
    - split; [done|]. split; [rewrite length_app; lia|]. by intros p [= <-]. }
  destruct n as [array masked base|countarray contents masked base
                |offsetarray contents masked base|startarray endarray contents masked base
                |contents base name|contents base|tagarray contents masked base
                |tagarray offsetarray contents masked base|indexarray target masked base].
  - destruct (alloc_after (Primitive array masked (Some self)) memo h Hst) as [Hst1 Hid];
      [done|].
    cbn in Hr. injection Hr as <- <- <-.
    split; [done|]. split; [cbn; rewrite length_app; lia|]. by intros p [= <-].
  - apply bind_Ok in Hr as ([content [memo1 h1]] & Hc & Hr).
    by eapply (Hone _ _ _ _ (λ _, Primitive countarray masked None)
                 (λ c, ListCount countarray c masked (Some self))).
  - apply bind_Ok in Hr as ([content [memo1 h1]] & Hc & Hr).
    by eapply (Hone _ _ _ _ (λ _, Primitive offsetarray masked None)
                 (λ c, ListOffset offsetarray c masked (Some self))).
  - apply bind_Ok in Hr as ([content [memo1 h1]] & Hc & Hr).
    by eapply (Hone _ _ _ _ (λ _, Primitive startarray masked None)
                 (λ c, ListStartEnd startarray endarray c masked (Some self))).
  - apply bind_Ok in Hr as ([kept [memo1 h1]] & Hk & Hr).
    destruct (surviving_fields_after _ IH _ _ _ _ Hk Hst) as (Hst1 & Hle & Hfresh).
    by eapply (Hmany _ kept memo1 h1 (Record kept (Some self) default_name)).
  - apply bind_Ok in Hr as ([kept [memo1 h1]] & Hk & Hr).
    destruct (surviving_after _ IH _ _ _ _ Hk Hst) as (Hst1 & Hle & Hfresh).
    by eapply (Hmany _ kept memo1 h1 (Tuple kept (Some self))).
  - apply bind_Ok in Hr as ([kept [memo1 h1]] & Hk & Hr).
    destruct (surviving_after _ IH _ _ _ _ Hk Hst) as (Hst1 & Hle & Hfresh).
    by eapply (Hmany _ kept memo1 h1 (UnionSparse tagarray kept masked (Some self))).
  - apply bind_Ok in Hr as ([kept [memo1 h1]] & Hk & Hr).
    destruct (surviving_after _ IH _ _ _ _ Hk Hst) as (Hst1 & Hle & Hfresh).
    by eapply (Hmany _ kept memo1 h1
                 (UnionSparseOffset tagarray offsetarray kept masked (Some self))).
  - apply bind_Ok in Hr as ([content [memo1 h1]] & Hc & Hr).
    by eapply (Hone _ _ _ _ (λ _, Primitive indexarray masked None)
                 (λ c, Pointer indexarray c masked (Some self))).
Qed.

Lemma first_unseen_elem (l : list id) (memo : gset id) (x : id) :
  first_unseen l memo = Some x → x ∈ l.
Proof.
  induction l as [|y l IH]; cbn; [done|].
  case_bool_decide; [|intros [= ->]; by left].
  intros Hl. right. by apply IH.
Qed.

(** A node built by the projection answers [False] to [hasany]: neither it
    nor a node below it is one of the required nodes, which all existed
    before. *)
Lemma hasany_built_after (h : heap) :
  built_after n0 h → Forall (λ r, (r < n0)%nat) required →
  ∀ i fuel memo, (n0 ≤ i < length h)%nat → (i < fuel)%nat →
    ∃ memo', hasany fuel h i required memo = Ok (false, memo').
Proof.
  intros Hbuilt Hreq i. induction i as [i IH] using lt_wf_ind.
  intros fuel memo Hi Hfuel. destruct fuel as [|fuel]; [lia|].
  destruct (lookup_lt_is_Some_2 h i) as [n Hn]; [lia|].
  pose proof (Hbuilt i n Hn) as Hkids.
  assert (Hnot : is_in i required = false).
  { unfold is_in. apply bool_decide_eq_false_2. intros Hin.
    rewrite Forall_forall in Hreq. specialize (Hreq i Hin). lia. }
  assert (Hkid : ∀ c memo1, c ∈ children_of n →
            ∃ memo', hasany fuel h c required memo1 = Ok (false, memo')).
  { intros c memo1 Hc. rewrite Forall_forall in Hkids.
    specialize (Hkids ltac:(lia) c Hc). apply IH; lia. }
  assert (Hone : ∀ c, c ∈ children_of n →
            ∃ memo', (if is_in i required then Ok (true, memo)
                      else if bool_decide (c ∈ memo) then Ok (false, memo)
                      else hasany fuel h c required ({[c]} ∪ memo)) = Ok (false, memo')).
  { intros c Hc. rewrite Hnot. case_bool_decide; [eauto | by apply Hkid]. }
  assert (Hmany : ∀ cs, cs ⊆ children_of n →
            ∃ memo', (if is_in i required then Ok (true, memo)
                      else match first_unseen cs memo with
                           | Some x => hasany fuel h x required ({[x]} ∪ memo)
                           | None => Ok (false, memo)
                           end) = Ok (false, memo')).
  { intros cs Hcs. rewrite Hnot.
    destruct (first_unseen cs memo) as [x|] eqn:Hx; [|eauto].
    apply Hkid, Hcs. by eapply first_unseen_elem. }
  cbn [hasany]. unfold deref. rewrite Hn. cbn [mbind res_bind].
  destruct n; cbn [children_of] in *;
    first [ apply Hone; by left | apply Hmany; done | rewrite Hnot; eauto ].
Qed.

End Reprojection.

Section Reprojection_result.
Import Schema Fresh.

(** C7 (amended). Projection rebuilds every node it keeps: when the required
    set holds nodes of the schema and [project(S, R)] is a node [P], then [P]
    and every node reached from [P] through contents and targets are new
    objects, built by the call, so none of them is one of the required nodes;
    projecting [P] with the same required set returns [None], and [None == P]
    is false.  Projecting twice is not the same as projecting once. *)
Theorem projection_of_projection_is_None fuel (required : list id) (h : heap) self p h' :
  Forall (λ r, (r < length h)%nat) required →
  project fuel required self h = Ok (Some p, h') →
  (length h ≤ p < length h')%nat
  ∧ (∀ x, reaches h' p x → (length h ≤ x < length h')%nat ∧ x ∉ required)
  ∧ (∀ f, (p + 2 ≤ f)%nat → project f required p h' = Ok (None, h'))
  ∧ (∀ f, (1 ≤ f)%nat → py_eq f h' None (Some p) = Ok false).
Proof.
  intros Hreq Hp. unfold project in Hp.
  apply bind_Ok in Hp as ([r [memo1 h1]] & Hp & Hret). injection Hret as -> ->.
  destruct (projection_after (length h) required fuel self _ _ _ Hp)
    as ((Hlen & Hbuilt & Hmemo) & Hle & Hfresh).
  { split; [done|]. split; [|done].
    intros i n Hi Hge. apply lookup_lt_Some in Hi. cbn in *. lia. }
  cbn in *. specialize (Hfresh p eq_refl). unfold fresh_id in Hfresh.
  destruct (lookup_lt_is_Some_2 h' p) as [n Hn]; [lia|].
  split; [done|]. split; [|split].
  - intros x Hx.
    assert (Hnew : (length h ≤ x < length h')%nat).
    { clear Hn Hp. revert Hfresh. induction Hx as [x|x m c y Hm Hc _ IH]; intros Hx; [done|].
      pose proof (Hbuilt x m Hm (proj1 Hx)) as Hkids. rewrite Forall_forall in Hkids.
      specialize (Hkids c Hc). cbn beta in Hkids. apply IH. lia. }
    split; [done|]. intros Hin. rewrite Forall_forall in Hreq.
    specialize (Hreq x Hin). lia.
  - intros f Hf. destruct f as [|f]; [lia|].
    destruct (hasany_built_after (length h) required h' Hbuilt Hreq p f ∅)
      as [memo' Hany]; [lia | lia |].
    unfold project. cbn [projection]. unfold deref. rewrite Hn. cbn [mbind res_bind].
    rewrite Hany. reflexivity.
  - intros f Hf. destruct f as [|f]; [lia|].
    cbn [py_eq __eq__]. unfold deref. rewrite Hn. cbn [mbind res_bind].
    by destruct n.
Qed.

(** The theorem at a one-node schema that is itself required. *)
Lemma projection_of_projection_witness :
  project 2 [0%nat] 0%nat [Primitive (AKey "a") false None]
    = Ok (Some 1%nat, [Primitive (AKey "a") false None; Primitive (AKey "a") false (Some 0%nat)])
  ∧ project 3 [0%nat] 1%nat
      [Primitive (AKey "a") false None; Primitive (AKey "a") false (Some 0%nat)]
    = Ok (None, [Primitive (AKey "a") false None; Primitive (AKey "a") false (Some 0%nat)]).
Proof.
  split; [reflexivity|].
  refine (proj1 (proj2 (proj2 (projection_of_projection_is_None 2 [0%nat]
                          [Primitive (AKey "a") false None] 0%nat 1%nat
                          [Primitive (AKey "a") false None;
                           Primitive (AKey "a") false (Some 0%nat)] _ _))) 3%nat _).
  - repeat constructor.
  - reflexivity.
  - lia.
Defined.

(** C7 (the claim fails). For the schema [S = Primitive("a")] and the
    required set [[S]], [project(S, R)] is a node but
    [project(project(S, R), R)] is [None], which is not equal to it. *)
Lemma projection_is_not_idempotent :
  ¬ idempotent_at 3 [0%nat] 0%nat [Primitive (AKey "a") false None].
Proof.
  intros H.
  destruct (H 1%nat [Primitive (AKey "a") false None;
                     Primitive (AKey "a") false (Some 0%nat)] eq_refl)
    as (q & h2 & Hq & Heq).
  vm_compute in Hq. injection Hq as <- <-. vm_compute in Heq. discriminate.
Qed.

End Reprojection_result.

(** ** The round trip through the flattener and the resolver *)

Section Lists_of_branches.
Import Pipeline RoundTrip.


Lemma branches_const {A B} (f : A → B) (ts : list A) :
  ∀ tag, branches (λ _ t, f t) tag ts = map f ts.
Proof. induction ts as [|t ts IH]; intros tag; cbn; [done | by rewrite IH]. Qed.




Lemma elem_of_concat_branches {A B} (f : nat → A → list B) (ts : list A) (tag : nat) (x : B) :
  x ∈ concat (branches f tag ts) ↔ ∃ k t, ts !! k = Some t ∧ x ∈ f (tag + k)%nat t.
Proof.
  revert tag. induction ts as [|t ts IH]; intros tag; cbn.
  - split; [by intros ?%elem_of_nil | by intros (k & t & ? & _)].
  - rewrite elem_of_app, IH. split.
    + intros [Hx|(k & t' & Hk & Hx)].
      * exists 0%nat, t. by rewrite Nat.add_0_r.
      * exists (S k), t'. by replace (tag + S k)%nat with (S tag + k)%nat by lia.
    + intros ([|k] & t' & Hk & Hx); cbn in Hk.
      * injection Hk as <-. left. by rewrite Nat.add_0_r in Hx.
      * right. exists k, t'. by replace (S tag + k)%nat with (tag + S k)%nat by lia.
Qed.

Lemma elem_of_concat_map {A B} (f : A → list B) (l : list A) (x : B) :
  x ∈ concat (map f l) ↔ ∃ k y, l !! k = Some y ∧ x ∈ f y.
Proof. rewrite <- (branches_const f l 0). apply elem_of_concat_branches. Qed.

(** In a list of distinct names, the names of each branch are distinct and
    no name belongs to two branches. *)
Lemma NoDup_concat_branches {A B} (f : nat → A → list B) (ts : list A) (tag : nat) :
  NoDup (concat (branches f tag ts)) →
  (∀ k t, ts !! k = Some t → NoDup (f (tag + k)%nat t))
  ∧ (∀ k1 k2 t1 t2 x, k1 ≠ k2 → ts !! k1 = Some t1 → ts !! k2 = Some t2 →
       x ∈ f (tag + k1)%nat t1 → x ∉ f (tag + k2)%nat t2).
Proof.
  revert tag. induction ts as [|t ts IH]; intros tag; cbn; [by split|].
  rewrite NoDup_app. intros (Hhead & Hdisj & Htail).
  destruct (IH (S tag) Htail) as [IH1 IH2]. split.
  - intros [|k] t' Hk; cbn in Hk.
    + injection Hk as <-. by rewrite Nat.add_0_r.
    + replace (tag + S k)%nat with (S tag + k)%nat by lia. by apply IH1.
  - intros [|k1] [|k2] t1 t2 x Hne H1 H2 Hx1 Hx2; cbn in H1, H2; [done| | |].
    + injection H1 as <-. rewrite Nat.add_0_r in Hx1.
      apply (Hdisj x Hx1). apply elem_of_concat_branches.
      exists k2, t2. by replace (S tag + k2)%nat with (tag + S k2)%nat by lia.
    + injection H2 as <-. rewrite Nat.add_0_r in Hx2.
      apply (Hdisj x Hx2). apply elem_of_concat_branches.
      exists k1, t1. by replace (S tag + k1)%nat with (tag + S k1)%nat by lia.
    + apply (IH2 k1 k2 t1 t2 x); [lia | done | done | |].
      * by replace (S tag + k1)%nat with (tag + S k1)%nat by lia.
      * by replace (S tag + k2)%nat with (tag + S k2)%nat by lia.
Qed.

Lemma NoDup_concat_map {A B} (f : A → list B) (l : list A) :
  NoDup (concat (map f l)) →
  (∀ k y, l !! k = Some y → NoDup (f y))
  ∧ (∀ k1 k2 y1 y2 x, k1 ≠ k2 → l !! k1 = Some y1 → l !! k2 = Some y2 →
       x ∈ f y1 → x ∉ f y2).
Proof. rewrite <- (branches_const f l 0). apply NoDup_concat_branches. Qed.


End Lists_of_branches.

Section Flattening.
Import Convert Pipeline RoundTrip.





Lemma grows_refl st : grows st st.
Proof. intros k f Hk. exists f. repeat split; [done|]. exists []. by rewrite app_nil_r. Qed.

Lemma grows_trans st1 st2 st3 : grows st1 st2 → grows st2 st3 → grows st1 st3.
Proof.
  intros H12 H23 k f Hk.
  destruct (H12 k f Hk) as (f2 & Hf2 & Hd2 & more2 & Hm2).
  destruct (H23 k f2 Hf2) as (f3 & Hf3 & Hd3 & more3 & Hm3).
  exists f3. repeat split; [done | congruence |].
  exists (more2 ++ more3). by rewrite Hm3, Hm2, app_assoc.
Qed.

Lemma frame_refl C U st : frame C U st st.
Proof. by split. Qed.













Variable issubtype : pyobj → ty → bool.
Variable indextype : Numpy.dtype.

Lemma grows_fill st k f z LL LU :
  fillables st !! k = Some f →
  grows st {| fillables := <[k := fill f z]> (fillables st);
              last_list_offset := LL; last_union_offset := LU |}.
Proof.
  intros Hf k' f' Hk'. cbn. destruct (decide (k = k')) as [<-|Hne].
  - rewrite lookup_insert_eq. exists (fill f z). rewrite Hf in Hk'. injection Hk' as <-.
    split; [done|]. split; [done|]. by exists [z].
  - rewrite lookup_insert_ne by done. exists f'. split; [done|]. split; [done|].
    exists []. by rewrite app_nil_r.
Qed.










End Flattening.

Section Flattened_columns.
Import Convert Pipeline RoundTrip.

Variable indextype : Numpy.dtype.






End Flattened_columns.

Section Source_columns.
Import Convert Pipeline RoundTrip.








(** A dict built from a list of named columns. *)
Lemma list_to_map_named {A} (g : string → Numpy.dtype → A) (l : list (string * Numpy.dtype)) k :
  (list_to_map ((λ '(n, d), (n, g n d)) <$> l) : gmap string A) !! k
  = g k <$> (list_to_map l : gmap string Numpy.dtype) !! k.
Proof.
  induction l as [|[n d] l IH]; cbn [fmap list_fmap list_to_map foldr]; [by rewrite !lookup_empty|].
  cbn. destruct (decide (n = k)) as [->|Hne].
  - by rewrite !lookup_insert_eq.
  - by rewrite !lookup_insert_ne.
Qed.


Section Seeded_walk.
Variable issubtype : pyobj → ty → bool.
Variable O : list string.





End Seeded_walk.

Lemma mapM_Forall2 {A B} (f : A → res B) (l : list A) :
  ∀ r, Proxy.mapM f l = Ok r → Forall2 (λ x y, f x = Ok y) l r.
Proof.
  induction l as [|x l IH]; intros r H; cbn in H.
  - injection H as <-. constructor.
  - apply bind_Ok in H as (y & Hy & H). apply bind_Ok in H as (ys & Hys & [= <-]).
    constructor; [done | by apply IH].
Qed.

(** What a dict comprehension returns: a value for every key, no other
    key. *)
Lemma comprehension_Ok {A B} (g : A → res B) (m : gmap string A) m' k :
  comprehension g m = Ok m' →
  match m !! k with
  | Some a => ∃ b, g a = Ok b ∧ m' !! k = Some b
  | None => m' !! k = None
  end.
Proof.
  unfold comprehension. intros (kvs & Hkvs & [= <-])%bind_Ok.
  apply mapM_Forall2 in Hkvs.
  assert (Hfst : kvs.*1 = (map_to_list m).*1).
  { induction Hkvs as [|kv kb l r Hkv _ IH]; [done|].
    apply bind_Ok in Hkv as (b & _ & [= <-]). cbn. by rewrite IH. }
  destruct (m !! k) as [a|] eqn:Hk.
  - apply elem_of_map_to_list in Hk. apply list_elem_of_lookup_1 in Hk as [i Hi].
    destruct (Forall2_lookup_l _ _ _ _ _ Hkvs Hi) as (kb & Hkb & Hg).
    apply bind_Ok in Hg as (b & Hb & [= <-]). exists b. split; [done|].
    apply elem_of_list_to_map_1.
    + rewrite Hfst. apply NoDup_fst_map_to_list.
    + by eapply list_elem_of_lookup_2.
  - apply not_elem_of_list_to_map_1. rewrite Hfst.
    intros ([k' a] & -> & Hin)%list_elem_of_fmap.
    apply elem_of_map_to_list in Hin. cbn in Hk. congruence.
Qed.



End Source_columns.

Section Templates.
Import Convert Pipeline RoundTrip.

Lemma chain_mono {A} (P Q : nat → A → nat → nat → Prop) (ts : list A) :
  Forall (λ t, ∀ tag lo c, P tag t lo c → Q tag t lo c) ts →
  ∀ tag cs lo hi, chain P tag ts cs lo hi → chain Q tag ts cs lo hi.
Proof.
  induction 1 as [|t ts Ht _ IH]; intros tag [|c cs] lo hi; cbn; try done.
  intros [Hp Hc]. split; [by apply Ht | by apply IH].
Qed.


Lemma chain_bounds {A} (P : nat → A → nat → nat → Prop) (ts : list A) :
  Forall (λ t, ∀ tag lo c, P tag t lo c → (lo ≤ c)%nat) ts →
  ∀ tag cs lo hi, chain P tag ts cs lo hi → (lo ≤ hi)%nat.
Proof.
  induction 1 as [|t ts Ht _ IH]; intros tag [|c cs] lo hi; cbn; try done.
  intros [Hp Hc]. specialize (Ht _ _ _ Hp). specialize (IH _ _ _ _ Hc). lia.
Qed.

(** A template stays one when more nodes are built. *)
Lemma Template_mono H ext (tpe : ty) :
  ∀ name lo t, Template H tpe name lo t → Template (H ++ ext) tpe name lo t.
Proof.
  induction tpe as [dt|t IH|ts IH|fs IH|] using ty_nested_ind; intros name lo r;
    cbn [Template]; [| | | |done].
  - intros [Hlo Hr]. split; [done | by apply lookup_app_l_Some].
  - intros (c & Hr & Hc & Ht). exists c. split; [by apply lookup_app_l_Some|].
    split; [done | by apply IH].
  - intros (cs & Hr & Hch). exists cs. split; [by apply lookup_app_l_Some|].
    revert Hch. apply chain_mono. eapply Forall_impl; [exact IH|].
    intros t Ht tag lo' c. apply Ht.
  - intros (cs & Hr & Hn & Hch). exists cs. split; [by apply lookup_app_l_Some|].
    split; [done|]. revert Hch. apply chain_mono. eapply Forall_impl; [exact IH|].
    intros p Hp tag lo' c. apply Hp.
Qed.

Lemma Template_bounds H (tpe : ty) :
  ∀ name lo t, Template H tpe name lo t → (lo ≤ t)%nat.
Proof.
  induction tpe as [dt|t IH|ts IH|fs IH|] using ty_nested_ind; intros name lo r;
    cbn [Template]; [| | | |done].
  - by intros [Hlo _].
  - intros (c & _ & Hc & Ht). specialize (IH _ _ _ Ht). lia.
  - intros (cs & _ & Hch). revert Hch. apply chain_bounds.
    eapply Forall_impl; [exact IH|]. intros t Ht tag lo' c. apply Ht.
  - intros (cs & _ & _ & Hch). revert Hch. apply chain_bounds.
    eapply Forall_impl; [exact IH|]. intros p Hp tag lo' c. apply Hp.
Qed.

(** [schema_of] builds a template at the end of the heap, its root last. *)
Lemma schema_of_Template (tpe : ty) :
  supported tpe = true →
  ∀ name h, ∃ t ext, schema_of tpe name h = Some (t, h ++ ext)
                     ∧ Template (h ++ ext) tpe name (length h) t
                     ∧ length (h ++ ext) = S t.
Proof.
  induction tpe as [dt|t IH|ts IH|fs IH|] using ty_nested_ind; intros Hsup name h;
    cbn [supported] in Hsup; [| | | |done].
  - eexists (length h), [_]. cbn [schema_of Schema.alloc]. split; [done|].
    split; [|rewrite length_app; cbn; lia].
    split; [done|]. by rewrite lookup_app_r, Nat.sub_diag.
  - destruct (IH Hsup (toListData name) h) as (c & ext & Hc & Ht & Hlen).
    eexists (length (h ++ ext)), (ext ++ [_]). cbn [schema_of]. rewrite Hc. cbn.
    unfold Schema.alloc. rewrite <- app_assoc. split; [done|].
    rewrite app_assoc. split; [|rewrite length_app; cbn; lia].
    exists c. split; [by rewrite lookup_app_r, Nat.sub_diag|].
    split; [lia | by apply Template_mono].
  - assert (Hbuild : ∀ tag h, ∃ cs ext,
              build (λ tag t h, schema_of t (toUnionData name tag) h) tag ts h
              = Some (cs, h ++ ext)
              ∧ chain (λ tag t lo c, Template (h ++ ext) t (toUnionData name tag) lo c)
                  tag ts cs (length h) (length (h ++ ext))).
    { clear h. induction IH as [|t ts Ht _ IHts]; intros tag h.
      - exists [], []. cbn. rewrite app_nil_r. by split.
      - cbn in Hsup. apply andb_true_iff in Hsup as [Hs1 Hs2].
        destruct (Ht Hs1 (toUnionData name tag) h) as (c & ext1 & Hc & HT & Hlen).
        destruct (IHts Hs2 (S tag) (h ++ ext1)) as (cs & ext2 & Hcs & Hch).
        exists (c :: cs), (ext1 ++ ext2). cbn [build]. rewrite Hc. cbn. rewrite Hcs. cbn.
        rewrite !app_assoc. split; [done|]. cbn [chain].
        split; [by apply Template_mono|]. by rewrite <- Hlen. }
    destruct (Hbuild 0%nat h) as (cs & ext & Hcs & Hch).
    eexists (length (h ++ ext)), (ext ++ [_]). cbn [schema_of]. rewrite Hcs. cbn.
    unfold Schema.alloc. rewrite <- app_assoc. split; [done|].
    rewrite app_assoc. split; [|rewrite length_app; cbn; lia].
    exists cs. split; [by rewrite lookup_app_r, Nat.sub_diag|].
    revert Hch. apply chain_mono. apply Forall_forall. intros t _ tag lo c.
    apply Template_mono.
  - assert (Hbuild : ∀ tag h, ∃ cs ext,
              build (λ _ field h,
                       '(c, h) ← schema_of field.2 (toRecord name field.1) h;
                       Some ((field.1, c), h)) tag fs h
              = Some (cs, h ++ ext)
              ∧ cs.*1 = fs.*1
              ∧ chain (λ _ p lo c, Template (h ++ ext) p.2 (toRecord name p.1) lo c)
                  tag fs cs.*2 (length h) (length (h ++ ext))).
    { clear h. induction IH as [|p fs Hp _ IHfs]; intros tag h.
      - exists [], []. cbn. rewrite app_nil_r. by split.
      - cbn in Hsup. apply andb_true_iff in Hsup as [Hs1 Hs2].
        destruct (Hp Hs1 (toRecord name p.1) h) as (c & ext1 & Hc & HT & Hlen).
        destruct (IHfs Hs2 (S tag) (h ++ ext1)) as (cs & ext2 & Hcs & Hnames & Hch).
        exists ((p.1, c) :: cs), (ext1 ++ ext2). cbn [build]. rewrite Hc. cbn.
        rewrite Hcs. cbn. rewrite !app_assoc. split; [done|].
        split; [by rewrite Hnames|]. cbn [chain].
        split; [by apply Template_mono|]. by rewrite <- Hlen. }
    destruct (Hbuild 0%nat h) as (cs & ext & Hcs & Hnames & Hch).
    eexists (length (h ++ ext)), (ext ++ [_]). cbn [schema_of]. rewrite Hcs. cbn.
    unfold Schema.alloc. rewrite <- app_assoc. split; [done|].
    rewrite app_assoc. split; [|rewrite length_app; cbn; lia].
    exists cs. split; [by rewrite lookup_app_r, Nat.sub_diag|]. split; [done|].
    revert Hch. apply chain_mono. apply Forall_forall. intros t _ tag lo c.
    apply Template_mono.
Qed.

End Templates.

Section Resolution.
Import Convert Pipeline RoundTrip.

Variable garbage : nat → Z.
Variable src : Schema.source.
Variable st : state.



Lemma depth_le_max {A} (f : A → nat) (l : list A) k x :
  l !! k = Some x → (f x ≤ foldr max 0 (map f l))%nat.
Proof.
  revert k. induction l as [|y l IH]; intros [|k] Hk; try done; cbn in *.
  - injection Hk as ->. lia.
  - specialize (IH k Hk). lia.
Qed.


Lemma mapM_st_fields {S} (f : nat → S → res (nat * S)) (contents : list (string * nat))
    (s : S) :
  Schema.mapM_st (λ '(k, v) s, '(r, s) ← f v s; Ok ((k, r), s)) contents s
  = '(rs, s') ← Schema.mapM_st f contents.*2 s; Ok (zip contents.*1 rs, s').
Proof.
  revert s. induction contents as [|[k v] contents IH]; intros s; [done|].
  cbn [Schema.mapM_st fmap list_fmap]. cbn [snd fst].
  destruct (f v s) as [[r s1]| |]; [|done|done]. cbn [mbind res_bind].
  rewrite IH. destruct (Schema.mapM_st f contents.*2 s1) as [[rs s2]| |]; done.
Qed.



End Resolution.

Section Materialization.
Import Convert Pipeline RoundTrip.

Variable garbage : nat → Z.
Variable st : state.

Lemma getitem_lookup {A} (l : list A) (i : Z) (x : A) :
  0 ≤ i → l !! Z.to_nat i = Some x → getitem l i = Ok x.
Proof.
  intros Hi Hx. pose proof (lookup_lt_Some _ _ _ Hx) as Hlt. unfold getitem.
  rewrite (proj2 (Z.ltb_ge _ _)) by lia.
  rewrite (proj2 (Z.leb_le _ _)) by lia. rewrite (proj2 (Z.ltb_lt _ _)) by lia.
  cbn. by rewrite Hx.
Qed.






End Materialization.

Section Round_trip.
Import Convert Pipeline RoundTrip.



(** The flattened columns the spec lists for one record: the column of the
    number, the offsets [0, 3] of the list and its three elements. *)
Lemma toarrays_of_a_record :
  toarrays (λ _ _, true) "p" (PDict [("x", PNum 1); ("y", PList [PNum 1; PNum 2; PNum 3])])
    (Record [("x", Primitive int64); ("y", List (Primitive int64))]) "-" uint64
  = Ok {["p-R_x" := array int64 [1]; "p-R_y-Lo" := array uint64 [0; 3];
         "p-R_y-Ld" := array int64 [1; 2; 3]]}.
Proof. vm_compute. reflexivity. Qed.




End Round_trip.

(** * Further properties *)

(** ** Iterating, slicing and reversing a list view ([oamap/proxy.py]) *)

Section Views.
Import Proxy.

Lemma mapM_fmap {A B C} (f : B → res C) (g : A → B) (l : list A) :
  mapM f (g <$> l) = mapM (λ x, f (g x)) l.
Proof. induction l as [|x l IH]; cbn; [done | by rewrite IH]. Qed.

Lemma mapM_ext {A B} (f g : A → res B) (l : list A) :
  Forall (λ x, f x = g x) l → mapM f l = mapM g l.
Proof. induction 1 as [|x l Hx _ IH]; cbn; [done | by rewrite Hx, IH]. Qed.

Lemma mapM_app {A B} (f : A → res B) (l1 l2 : list A) :
  mapM f (l1 ++ l2) = ys1 ← mapM f l1; ys2 ← mapM f l2; Ok (ys1 ++ ys2).
Proof.
  induction l1 as [|x l1 IH]; cbn.
  - by destruct (mapM f l2).
  - destruct (f x) as [y| |]; cbn; [|done|done]. rewrite IH.
    destruct (mapM f l1) as [ys1| |]; cbn; [|done|done].
    by destruct (mapM f l2).
Qed.

Lemma mapM_rev {A B} (f : A → res B) (l : list A) (ys : list B) :
  mapM f l = Ok ys → mapM f (rev l) = Ok (rev ys).
Proof.
  revert ys. induction l as [|x l IH]; intros ys; cbn; [by intros [= <-]|].
  destruct (f x) as [y| |] eqn:Hy; cbn; [|done|done].
  destruct (mapM f l) as [ys'| |]; cbn; [|done|done]. intros [= <-].
  rewrite mapM_app, (IH ys' eq_refl). cbn. by rewrite Hy.
Qed.

Lemma mapM_length {A B} (f : A → res B) (l : list A) (ys : list B) :
  mapM f l = Ok ys → length ys = length l.
Proof.
  revert ys. induction l as [|x l IH]; intros ys; cbn; [by intros [= <-]|].
  destruct (f x) as [y| |]; cbn; [|done|done].
  destruct (mapM f l) as [ys'| |]; cbn; [|done|done]. intros [= <-].
  cbn. by rewrite (IH ys').
Qed.

Lemma len_Ok (v : listproxy) (n : Z) :
  len v = Ok n → 0 ≤ n ∧ n = (_stop v - _start v) `div` _step v.
Proof.
  unfold len, __len__. destruct (_ <? 0) eqn:E; [done|]. intros [= <-]. lia.
Qed.

Lemma getitem_int_in_range (v : listproxy) (n i : Z) :
  len v = Ok n → 0 ≤ i < n →
  __getitem__ v (IInt i) = new (_content v) (_arrays v) (_start v + _step v * i).
Proof.
  intros Hlen Hi. unfold __getitem__. rewrite Hlen. cbn [mbind res_bind].
  rewrite (proj2 (Z.geb_le _ _)) by lia.
  rewrite (proj2 (Z.leb_le _ _)), (proj2 (Z.ltb_lt _ _)) by lia. done.
Qed.

(** The positions a view with a positive stride iterates over. *)
Lemma xrange_positive (a b k : Z) :
  0 < k →
  xrange a b k = Ok ((λ i, a + k * i) <$> seqZ 0 ((b - a + k - 1) `div` k)).
Proof.
  intros Hk. unfold xrange. rewrite (proj2 (Z.eqb_neq _ _)) by lia.
  by rewrite (proj2 (Z.ltb_lt _ _)) by lia.
Qed.

Lemma seqZ_rev (n : nat) :
  (λ k, Z.of_nat n - k - 1) <$> seqZ 0 (Z.of_nat n) = rev (seqZ 0 (Z.of_nat n)).
Proof.
  induction n as [|n IH]; [done|].
  rewrite seqZ_S at 2. rewrite rev_app_distr. cbn [rev app]. rewrite <- IH.
  rewrite seqZ_cons by lia. cbn [fmap list_fmap]. f_equal; [lia|].
  replace (Z.pred (Z.of_nat (S n))) with (Z.of_nat n) by lia.
  change (Z.succ 0) with (1 + 0). rewrite <- fmap_add_seqZ, <- list_fmap_compose.
  apply list_fmap_ext. intros i x _. cbn. lia.
Qed.

(** X1. Indexing into a slice reads the view it was cut from: for a view
    [v] of length [n] and a positive step [k], [v[start:stop:k]] is a view of
    length [(b - a) // k], where [a] and [b] are the clamped bounds, and its
    element [i] is the element [a + k * i] of [v]. *)
Theorem slice_then_index (v : listproxy) (n : Z) (start stop : option Z) (k : Z) :
  len v = Ok n → 0 < k →
  let a := Z.min n (Z.max 0 (default 0 start)) in
  let b := Z.max a (Z.min n (Z.max 0 (default n stop))) in
  ∃ sub, __getitem__ v (ISlice {| start := start; stop := stop; step := Some k |})
         = Ok (ListObj sub)
         ∧ len sub = Ok ((b - a) `div` k)
         ∧ ∀ i, 0 ≤ i < (b - a) `div` k →
             __getitem__ sub (IInt i) = __getitem__ v (IInt (a + k * i)).
Proof.
  intros Hlen Hk a b. destruct (len_Ok v n Hlen) as [Hn Hdiv].
  set (sub := _slice (_content v) (_arrays v) (_start v + _step v * a)
                (_start v + _step v * b) (_step v * k)).
  assert (Hab : 0 ≤ a ≤ b ∧ b ≤ n) by (unfold b, a; lia).
  assert (Hm : 0 ≤ (b - a) `div` k) by (apply Z.div_pos; lia).
  assert (Hsub : len sub = Ok ((b - a) `div` k)).
  { unfold len, __len__, sub. cbn.
    replace (_start v + _step v * b - (_start v + _step v * a))
      with (_step v * (b - a)) by lia.
    destruct (decide (_step v = 0)) as [Hz|Hz].
    - rewrite Hz in *. rewrite Z.div_0_r in Hdiv.
      assert (b - a = 0) as -> by lia. cbn. done.
    - rewrite Z.div_mul_cancel_l by lia.
      by rewrite (proj2 (Z.ltb_ge _ _)) by lia. }
  exists sub. split; [|split; [done|]].
  - unfold __getitem__. rewrite Hlen.
    cbn [mbind res_bind Proxy.start Proxy.stop Proxy.step].
    change (default 1 (Some k)) with k.
    rewrite (proj2 (Z.eqb_neq _ _)) by lia. fold a.
    set (b0 := Z.min n (Z.max 0 (default n stop))).
    assert (Hb : (if b0 <? a then a else b0) = b).
    { unfold b. fold b0. destruct (b0 <? a) eqn:E; lia. }
    by rewrite Hb.
  - intros i Hi. rewrite (getitem_int_in_range sub _ i Hsub Hi).
    assert (Hlt : a + k * i < b).
    { pose proof (Z.mul_div_le (b - a) k Hk). nia. }
    rewrite (getitem_int_in_range v n (a + k * i) Hlen) by nia.
    unfold sub. cbn. f_equal. lia.
Qed.

(** The theorem at the view over five rows, cut from row 1 with step 2. *)
Lemma slice_then_index_witness :
  ∃ sub, __getitem__ (_slice (PrimitiveProxy "d") {["d" := [10; 20; 30; 40; 50]]} 0 5 1)
           (ISlice {| start := Some 1; stop := None; step := Some 2 |}) = Ok (ListObj sub)
         ∧ len sub = Ok 2
         ∧ ∀ i, 0 ≤ i < 2 →
             __getitem__ sub (IInt i)
             = __getitem__ (_slice (PrimitiveProxy "d") {["d" := [10; 20; 30; 40; 50]]} 0 5 1)
                 (IInt (1 + 2 * i)).
Proof.
  apply (slice_then_index (_slice (PrimitiveProxy "d") {["d" := [10; 20; 30; 40; 50]]} 0 5 1)
           5 (Some 1) None 2).
  - reflexivity.
  - lia.
Defined.

(** X2. Iterating over a view visits [v[0]], [v[1]], ..., [v[len(v) - 1]]
    when the stride is positive and divides the span from [_start] to
    [_stop], as it does in every view [__new__] builds (stride 1). *)
Theorem iter_is_indexing (v : listproxy) (n : Z) :
  len v = Ok n → 0 < _step v → (_stop v - _start v) `mod` _step v = 0 →
  __iter__ v = mapM (λ i, __getitem__ v (IInt i)) (seqZ 0 n).
Proof.
  intros Hlen Hk Hmod. destruct (len_Ok v n Hlen) as [Hn Hdiv].
  unfold __iter__. rewrite xrange_positive by done. cbn [mbind res_bind].
  assert (Hspan : _stop v - _start v = _step v * n).
  { rewrite Hdiv. apply Z.div_exact; [lia | done]. }
  replace ((_stop v - _start v + _step v - 1) `div` _step v) with n.
  2:{ rewrite Hspan. replace (_step v * n + _step v - 1) with (n * _step v + (_step v - 1))
        by lia.
      rewrite Z.div_add_l by lia. rewrite Z.div_small by lia. lia. }
  rewrite mapM_fmap. apply mapM_ext. apply Forall_seqZ. intros i Hi.
  by rewrite (getitem_int_in_range v n i Hlen) by lia.
Qed.


Lemma iter_is_indexing_witness :
  __iter__ (_slice (PrimitiveProxy "d") {["d" := [10; 20; 30; 40; 50]]} 1 4 1)
  = mapM (λ i, __getitem__ (_slice (PrimitiveProxy "d") {["d" := [10; 20; 30; 40; 50]]} 1 4 1)
                 (IInt i)) (seqZ 0 3).
Proof.
  apply (iter_is_indexing (_slice (PrimitiveProxy "d") {["d" := [10; 20; 30; 40; 50]]} 1 4 1) 3).
  - reflexivity.
  - reflexivity.
  - reflexivity.
Defined.

(** X3. When the stride is positive and does not divide the span, iterating
    over the view yields one element more than [len] counts (the iteration
    rounds the number of strides up, [__len__] rounds it down): the last
    element iterated cannot be reached by index. *)
Theorem iter_outruns_len (v : listproxy) (n : Z) (l : list obj) :
  len v = Ok n → 0 < _step v → (_stop v - _start v) `mod` _step v ≠ 0 →
  __iter__ v = Ok l →
  Z.of_nat (length l) = n + 1
  ∧ __getitem__ v (IInt n) = Raise (IndexError out_of_bounds).
Proof.
  intros Hlen Hk Hmod Hiter. destruct (len_Ok v n Hlen) as [Hn Hdiv]. split.
  - unfold __iter__ in Hiter. rewrite xrange_positive in Hiter by done.
    cbn [mbind res_bind] in Hiter. apply mapM_length in Hiter.
    rewrite Hiter, length_fmap, length_seqZ.
    pose proof (Z.div_mod (_stop v - _start v) (_step v) ltac:(lia)) as Hdm.
    pose proof (Z.mod_pos_bound (_stop v - _start v) (_step v) Hk) as Hb.
    rewrite <- Hdiv in Hdm.
    replace (_stop v - _start v + _step v - 1)
      with ((n + 1) * _step v + ((_stop v - _start v) `mod` _step v - 1)) by lia.
    rewrite Z.div_add_l by lia. rewrite Z.div_small by lia. lia.
  - unfold __getitem__. rewrite Hlen. cbn [mbind res_bind].
    rewrite (proj2 (Z.geb_le _ _)) by lia.
    rewrite (proj2 (Z.leb_le _ _)) by lia. by rewrite Z.ltb_irrefl.
Qed.

(** The theorem at the view [v[0:5:2]] of five rows: three elements are
    iterated, [len] is 2. *)
Lemma iter_outruns_len_witness :
  Z.of_nat (length [Scalar 10; Scalar 30; Scalar 50]) = 2 + 1
  ∧ __getitem__ (_slice (PrimitiveProxy "d") {["d" := [10; 20; 30; 40; 50]]} 0 5 2) (IInt 2)
    = Raise (IndexError out_of_bounds).
Proof.
  apply (iter_outruns_len (_slice (PrimitiveProxy "d") {["d" := [10; 20; 30; 40; 50]]} 0 5 2) 2
           [Scalar 10; Scalar 30; Scalar 50]).
  - reflexivity.
  - reflexivity.
  - vm_compute. discriminate.
  - reflexivity.
Defined.

(** X4. Reversing a view of length [n] yields [v[n - 1]], ..., [v[0]]: when
    every element can be read by index, the reversal is the list of those
    elements in reverse order. *)
Theorem reversed_is_rev (v : listproxy) (n : Z) (l : list obj) :
  len v = Ok n →
  mapM (λ i, __getitem__ v (IInt i)) (seqZ 0 n) = Ok l →
  __reversed__ v = Ok (rev l).
Proof.
  intros Hlen Hiter. destruct (len_Ok v n Hlen) as [Hn _].
  unfold __reversed__. rewrite Hlen. cbn [mbind res_bind].
  unfold xrange. cbn [Z.eqb Z.ltb Z.compare Z.opp]. cbn [mbind res_bind].
  assert (Hcount : ((n - 0 - -1 - 1) `div` (- (-1))) = n).
  { change (- (-1)) with 1. rewrite Z.div_1_r. lia. }
  rewrite Hcount.
  rewrite mapM_fmap.
  rewrite (mapM_ext _ (λ x, __getitem__ v (IInt (n - x - 1)))).
  2:{ apply Forall_forall. intros x _.
      by replace (n + -1 * x - 1) with (n - x - 1) by lia. }
  rewrite <- (mapM_fmap (λ i, __getitem__ v (IInt i)) (λ x, n - x - 1)).
  destruct (Z_of_nat_complete n Hn) as [m ->]. rewrite seqZ_rev. by apply mapM_rev.
Qed.

Lemma reversed_is_rev_witness :
  __reversed__ (_slice (PrimitiveProxy "d") {["d" := [10; 20; 30; 40; 50]]} 1 4 1)
  = Ok (rev [Scalar 20; Scalar 30; Scalar 40]).
Proof.
  apply (reversed_is_rev (_slice (PrimitiveProxy "d") {["d" := [10; 20; 30; 40; 50]]} 1 4 1) 3).
  - reflexivity.
  - reflexivity.
Defined.

Lemma mapM_items (_arrays : arrays_t) (_index : Z) (suf : list cls) :
  ∀ pre,
    mapM (λ i, TupleProxy_item (pre ++ suf) _arrays _index (Z.of_nat (length pre) + i))
      (seqZ 0 (Z.of_nat (length suf)))
    = mapM (λ t, new t _arrays _index) suf.
Proof.
  induction suf as [|t suf IH]; intros pre; [done|].
  cbn [length]. rewrite Nat2Z.inj_succ, seqZ_cons by lia. cbn [mapM].
  rewrite Z.pred_succ.
  assert (Hhead : TupleProxy_item (pre ++ t :: suf) _arrays _index
                    (Z.of_nat (length pre) + 0) = new t _arrays _index).
  { unfold TupleProxy_item. rewrite (getitem_lookup (pre ++ t :: suf) _ t); [done | lia |].
    rewrite Z.add_0_r, Nat2Z.id. by rewrite lookup_app_r, Nat.sub_diag. }
  rewrite Hhead. destruct (new t _arrays _index) as [y| |]; cbn; [|done|done].
  change (Z.succ 0) with (1 + 0). rewrite <- fmap_add_seqZ, mapM_fmap.
  rewrite <- (IH (pre ++ [t])). rewrite <- app_assoc. cbn [app].
  erewrite mapM_ext; [done|]. apply Forall_forall. intros i _. f_equal.
  rewrite length_app. cbn. lia.
Qed.

(** X5. The full slice [t[:]] of a tuple view builds the same elements as
    iterating over it.  Unlike a tuple, the view does not clamp a slice: when
    every element can be built, a slice that ends past the last element raises
    [IndexError]. *)
Theorem TupleProxy_slices (_types : list cls) (_arrays : arrays_t) (_index : Z) :
  TupleProxy__getitem__ _types _arrays _index {| start := None; stop := None; step := None |}
  = TupleProxy__iter__ _types _arrays _index
  ∧ ∀ l past,
      TupleProxy__iter__ _types _arrays _index = Ok l → 0 < past →
      TupleProxy__getitem__ _types _arrays _index
        {| start := None; stop := Some (TupleProxy__len__ _types + past); step := None |}
      = Raise (IndexError out_of_range).
Proof.
  assert (Hrange : ∀ n, xrange 0 n 1 = Ok (seqZ 0 n)).
  { intros n. unfold xrange. cbn [Z.eqb Z.ltb Z.compare]. f_equal.
    replace ((n - 0 + 1 - 1) `div` 1) with n by (rewrite Z.div_1_r; lia).
    rewrite <- (list_fmap_id (seqZ 0 n)) at 2. apply list_fmap_ext. intros i x _. cbn. lia. }
  assert (Hfull : mapM (TupleProxy_item _types _arrays _index)
                    (seqZ 0 (TupleProxy__len__ _types))
                  = TupleProxy__iter__ _types _arrays _index).
  { unfold TupleProxy__iter__. rewrite <- (mapM_items _arrays _index _types []).
    apply mapM_ext. apply Forall_forall. intros i _. cbn. done. }
  split.
  - unfold TupleProxy__getitem__. cbn [Proxy.start Proxy.stop Proxy.step default from_option id].
    by rewrite Hrange.
  - intros l past Hl Hpast. unfold TupleProxy__getitem__.
    cbn [Proxy.start Proxy.stop Proxy.step default from_option id]. rewrite Hrange.
    cbn [mbind res_bind]. unfold TupleProxy__len__ in *.
    rewrite seqZ_app by lia. rewrite mapM_app, Hfull, Hl. cbn [mbind res_bind].
    rewrite seqZ_cons by lia. cbn [mapM].
    assert (Hend : TupleProxy_item _types _arrays _index (0 + Z.of_nat (length _types))
                   = Raise (IndexError out_of_range)).
    { unfold TupleProxy_item, getitem. rewrite (proj2 (Z.ltb_ge _ _)) by lia.
      rewrite (proj2 (Z.leb_le _ _)) by lia. rewrite Z.add_0_l. by rewrite Z.ltb_irrefl. }
    by rewrite Hend.
Qed.

Lemma TupleProxy_slices_witness :
  TupleProxy__getitem__ [PrimitiveProxy "a"; PrimitiveProxy "b"]
    {["a" := [1; 2]; "b" := [3; 4]]} 1
    {| start := None; stop := Some (TupleProxy__len__ [PrimitiveProxy "a"; PrimitiveProxy "b"] + 1);
       step := None |}
  = Raise (IndexError out_of_range).
Proof.
  apply (proj2 (TupleProxy_slices [PrimitiveProxy "a"; PrimitiveProxy "b"]
                  {["a" := [1; 2]; "b" := [3; 4]]} 1) [Scalar 2; Scalar 4] 1).
  - reflexivity.
  - lia.
Defined.

End Views.

(** ** The array cache of the generators ([oamap/generator.py]) *)

Section Cache_facts.
Import Generator.

(** An induction principle that reaches the possibilities of a union. *)
Lemma gen_nested_ind (P : gen → Prop) :
  (∀ d i dt dims, P (PrimitiveGenerator d i dt dims)) →
  (∀ s si e ei c, P (ListGenerator s si e ei c)) →
  (∀ t ti o oi ps, Forall P ps → P (UnionGenerator t ti o oi ps)) →
  (∀ fs, P (RecordGenerator fs)) →
  (∀ ts, P (TupleGenerator ts)) →
  (∀ p pi t, P t → P (PointerGenerator p pi t)) →
  (∀ m mi b, P b → P (Masked m mi b)) →
  ∀ g, P g.
Proof.
  intros HP HL HU HR HT HX HM. fix IH 1. intros [d i dt dims|s si e ei c|t ti o oi ps|fs|ts|p pi t|m mi b].
  - apply HP.
  - apply HL.
  - apply HU. induction ps as [|q ps IHps]; constructor; [apply IH | apply IHps].
  - apply HR.
  - apply HT.
  - apply HX, IH.
  - apply HM, IH.
Qed.

Lemma kept_refl c : kept c c.
Proof. by split. Qed.

Lemma kept_trans c1 c2 c3 : kept c1 c2 → kept c2 c3 → kept c1 c3.
Proof. intros [L1 H1] [L2 H2]. split; [congruence | auto]. Qed.

Lemma _getarray_hit arrays name c cacheidx dt dims a :
  c !! cacheidx = Some (Some a) → _getarray arrays name c cacheidx dt dims = Ok (a, c).
Proof. intros Hc. unfold _getarray. by rewrite Hc. Qed.

Lemma _getarray_Ok arrays name c cacheidx dt dims a c' :
  _getarray arrays name c cacheidx dt dims = Ok (a, c') →
  c' !! cacheidx = Some (Some a) ∧ kept c c'.
Proof.
  unfold _getarray. destruct (c !! cacheidx) as [[b|]|] eqn:Hc; [| |done].
  - intros [= <- <-]. split; [done | apply kept_refl].
  - unfold dict_get. destruct (arrays !! name) as [b|]; [|done]. cbn.
    destruct (bool_decide (dtype_of b = dt)); [|done]. cbn.
    destruct (bool_decide (shape_tail b = dims)); [|done]. cbn.
    intros [= <- <-]. pose proof (lookup_lt_Some _ _ _ Hc) as Hlt.
    split; [by apply list_lookup_insert_eq|]. split; [by rewrite length_insert|].
    intros i a Hi. rewrite list_lookup_insert_ne; [done|]. intros <-. congruence.
Qed.

Lemma _getarray_again arrays name c cacheidx dt dims a c1 arrays' name' dt' dims' c2 :
  _getarray arrays name c cacheidx dt dims = Ok (a, c1) → kept c1 c2 →
  _getarray arrays' name' c2 cacheidx dt' dims' = Ok (a, c2).
Proof.
  intros Ha [_ Hk]. apply _getarray_Ok in Ha as [Ha _]. apply _getarray_hit. by apply Hk.
Qed.

(** What a call leaves in the cache. *)
Lemma _generate_keeps_cache_lemma (g : gen) :
  ∀ arrays index c v c', _generate g arrays index c = Ok (v, c') → kept c c'.
Proof.
  induction g as [d i dt dims|s si e ei ct|t ti o oi ps IH|fs|ts|p pi tg IH|m mi b IH]
    using gen_nested_ind; intros arrays index c v c'; cbn [_generate].
  - intros ([a c1] & Ha & H)%bind_Ok. apply _getarray_Ok in Ha as [_ Hk].
    apply bind_Ok in H as (x & _ & [= <- <-]). done.
  - intros ([a c1] & Ha & H)%bind_Ok. apply _getarray_Ok in Ha as [_ Hk1].
    apply bind_Ok in H as ([b c2] & Hb & H). apply _getarray_Ok in Hb as [_ Hk2].
    apply bind_Ok in H as (x & _ & H). by apply bind_Ok in H as (y & _ & H).
  - intros ([a c1] & Ha & H)%bind_Ok. apply _getarray_Ok in Ha as [_ Hk1].
    apply bind_Ok in H as ([b c2] & Hb & H). apply _getarray_Ok in Hb as [_ Hk2].
    apply bind_Ok in H as (tag & _ & H).
    destruct (_ && _); [|done].
    enough (Hc : kept c2 c') by (eapply kept_trans; [|exact Hc]; by eapply kept_trans).
    revert H. generalize (Z.to_nat (if tag <? 0 then tag + Z.of_nat (length ps) else tag)).
    induction IH as [|q ps Hq _ IHps]; intros [|k]; try done.
    + intros (offset & _ & H)%bind_Ok. by eapply Hq.
    + apply IHps.
  - done.
  - done.
  - intros ([a c1] & Ha & H)%bind_Ok. apply _getarray_Ok in Ha as [_ Hk1].
    apply bind_Ok in H as (x & _ & H). eapply kept_trans; [exact Hk1|]. by eapply IH.
  - intros ([a c1] & Ha & H)%bind_Ok. apply _getarray_Ok in Ha as [_ Hk1].
    apply bind_Ok in H as (x & _ & H).
    destruct (negb _); [by injection H as <- <-|].
    eapply kept_trans; [exact Hk1|]. by eapply IH.
Qed.


(** X6. Generating a row only fills the cache: whenever [_generate] returns
    (the list, record and tuple generators raise), no slot is added or
    dropped, and a slot that held an array before the call holds the same
    array after it. *)
Theorem _generate_keeps_cache (g : gen) arrays index c v c' :
  _generate g arrays index c = Ok (v, c') →
  length c' = length c
  ∧ ∀ i a, c !! i = Some (Some a) → c' !! i = Some (Some a).
Proof.
  intros Hgen. destruct (_generate_keeps_cache_lemma g _ _ _ _ _ Hgen)
    as [Hlen Hslots]. split; [exact Hlen | exact Hslots].
Qed.

(** The theorem at a masked primitive whose mask is already cached. *)
Lemma _generate_keeps_cache_witness :
  length [Some (array bool_ [0; 1]); Some (array int64 [7; 8])]
  = length [Some (array bool_ [0; 1]); None]
  ∧ ∀ i a, [Some (array bool_ [0; 1]); None] !! i = Some (Some a) →
           [Some (array bool_ [0; 1]); Some (array int64 [7; 8])] !! i = Some (Some a).
Proof.
  apply (_generate_keeps_cache
           (Masked "m" 0 (PrimitiveGenerator "d" 1 int64 []))
           {["d" := array int64 [7; 8]]} 0
           [Some (array bool_ [0; 1]); None] (GScalar 7)
           [Some (array bool_ [0; 1]); Some (array int64 [7; 8])]).
  reflexivity.
Defined.

(** X7. Arrays are loaded once: after a row was generated, generating it
    again from the cache the first call left (or any later state of it)
    returns the same object and leaves the cache as it is, whatever [arrays]
    holds by then. *)
Theorem _generate_again (g : gen) :
  ∀ arrays index c v c1, _generate g arrays index c = Ok (v, c1) →
    ∀ arrays' c2, kept c1 c2 → _generate g arrays' index c2 = Ok (v, c2).
Proof.
  induction g as [d i dt dims|s si e ei ct|t ti o oi ps IH|fs|ts|p pi tg IH|m mi b IH]
    using gen_nested_ind; intros arrays index c v c'; cbn [_generate].
  - intros ([a c1] & Ha & H)%bind_Ok arrays' c2 Hk.
    apply bind_Ok in H as (x & Hx & [= <- <-]).
    rewrite (_getarray_again _ _ _ _ _ _ _ _ arrays' d dt dims c2 Ha Hk).
    cbn [mbind res_bind]. by rewrite Hx.
  - intros ([a c1] & Ha & H)%bind_Ok arrays' c3 Hk.
    apply bind_Ok in H as ([b c2] & Hb & H).
    apply bind_Ok in H as (x & Hx & H). by apply bind_Ok in H as (y & Hy & H).
  - intros ([a c1] & Ha & H)%bind_Ok arrays' c3 Hk.
    apply bind_Ok in H as ([b c2] & Hb & H).
    apply bind_Ok in H as (tag & Htag & H).
    pose proof (proj2 (_getarray_Ok _ _ _ _ _ _ _ _ Hb)) as Hk2.
    destruct (_ && _) eqn:Hrange; [|done].
    assert (Hrest : kept c2 c' ∧
              (fix pick (ps : list gen) (i : nat) {struct ps} : res (gobj * cache) :=
                 match ps, i with
                 | [], _ => Raise (IndexError out_of_range)
                 | p :: _, O =>
                     offset ← getitem (data b) index;
                     _generate p arrays' offset c3
                 | _ :: ps', S i' => pick ps' i'
                 end) ps (Z.to_nat (if tag <? 0 then tag + Z.of_nat (length ps) else tag))
              = Ok (v, c3)).
    { revert H. generalize (Z.to_nat (if tag <? 0 then tag + Z.of_nat (length ps) else tag)).
      clear Hrange. induction IH as [|q ps Hq _ IHps]; intros [|k]; try done.
      - intros (offset & Hoff & H)%bind_Ok. split.
        + by eapply _generate_keeps_cache_lemma.
        + rewrite Hoff. cbn [mbind res_bind]. by eapply Hq.
      - apply IHps. }
    destruct Hrest as [Hk3 Hpick].
    rewrite (_getarray_again _ _ _ _ _ _ _ _ arrays' t int32 [] c3 Ha)
      by (eapply kept_trans; [exact Hk2|]; by eapply kept_trans).
    cbn [mbind res_bind].
    rewrite (_getarray_again _ _ _ _ _ _ _ _ arrays' o int32 [] c3 Hb)
      by (by eapply kept_trans).
    cbn [mbind res_bind]. rewrite Htag. cbn [mbind res_bind]. by rewrite Hrange.
  - done.
  - done.
  - intros ([a c1] & Ha & H)%bind_Ok arrays' c3 Hk.
    apply bind_Ok in H as (x & Hx & H).
    pose proof (_generate_keeps_cache_lemma _ _ _ _ _ _ H) as Hk1.
    rewrite (_getarray_again _ _ _ _ _ _ _ _ arrays' p int32 [] c3 Ha)
      by (by eapply kept_trans).
    cbn [mbind res_bind]. rewrite Hx. cbn [mbind res_bind]. by eapply IH.
  - intros ([a c1] & Ha & H)%bind_Ok arrays' c3 Hk.
    apply bind_Ok in H as (x & Hx & H).
    destruct (negb _) eqn:Hflag.
    + injection H as <- <-.
      rewrite (_getarray_again _ _ _ _ _ _ _ _ arrays' m bool_ [] c3 Ha Hk).
      cbn [mbind res_bind]. rewrite Hx. cbn [mbind res_bind]. by rewrite Hflag.
    + pose proof (_generate_keeps_cache_lemma _ _ _ _ _ _ H) as Hk1.
      rewrite (_getarray_again _ _ _ _ _ _ _ _ arrays' m bool_ [] c3 Ha)
        by (by eapply kept_trans).
      cbn [mbind res_bind]. rewrite Hx. cbn [mbind res_bind]. rewrite Hflag. by eapply IH.
Qed.

(** The theorem at a masked primitive: the second call reads no array. *)
Lemma _generate_again_witness :
  _generate (Masked "m" 0 (PrimitiveGenerator "d" 1 int64 [])) ∅ 0
    [Some (array bool_ [0; 1]); Some (array int64 [7; 8])]
  = Ok (GScalar 7, [Some (array bool_ [0; 1]); Some (array int64 [7; 8])]).
Proof.
  apply (_generate_again (Masked "m" 0 (PrimitiveGenerator "d" 1 int64 []))
           {["m" := array bool_ [0; 1]; "d" := array int64 [7; 8]]} 0 [None; None]
           (GScalar 7) [Some (array bool_ [0; 1]); Some (array int64 [7; 8])]).
  - reflexivity.
  - split; [reflexivity | intros i a H; exact H].
Defined.

End Cache_facts.

(** ** What resolution leaves behind ([arrowed/schema.py]) *)

Section Resolution_effects.
Import Schema Fresh.

Variable garbage : nat → Z.

Lemma grown_refl st : grown st st.
Proof. split; [exists []; by rewrite app_nil_r | done]. Qed.

Lemma grown_trans st1 st2 st3 : grown st1 st2 → grown st2 st3 → grown st1 st3.
Proof.
  intros [[e1 H1] M1] [[e2 H2] M2]. split; [|auto].
  exists (e1 ++ e2). by rewrite H2, H1, app_assoc.
Qed.

Lemma grown_alloc st (memo : gmap id (option id)) (h : heap) (n : node) :
  grown st (memo, h) → grown st (memo, h ++ [n]).
Proof.
  intros Hg. eapply grown_trans; [exact Hg|]. split; [by exists [n] | done].
Qed.

Lemma grown_insert st (memo : gmap id (option id)) (h : heap) k v :
  grown st (memo, h) → grown st (<[k := v]> memo, h).
Proof.
  intros Hg. eapply grown_trans; [exact Hg|]. split; [exists []; by rewrite app_nil_r|].
  intros k' Hk'. cbn in *. destruct (decide (k = k')) as [->|Hne].
  - by rewrite lookup_insert_eq.
  - by rewrite lookup_insert_ne.
Qed.

Lemma grown_lookup (st st' : gmap id (option id) * heap) i n :
  grown st st' → st.2 !! i = Some n → st'.2 !! i = Some n.
Proof. intros [[ext ->] _] Hi. by apply lookup_app_l_Some. Qed.

Lemma grown_length (st st' : gmap id (option id) * heap) :
  grown st st' → (length st.2 ≤ length st'.2)%nat.
Proof. intros [[ext ->] _]. rewrite length_app. lia. Qed.

Lemma mapM_st_grown {A B} (f : A → gmap id (option id) * heap → res (B * _)) (l : list A) :
  (∀ x s y s', f x s = Ok (y, s') → grown s s') →
  ∀ s ys s', mapM_st f l s = Ok (ys, s') → grown s s'.
Proof.
  intros Hf. induction l as [|x l IH]; intros s ys s' H; cbn in H.
  - injection H as <- <-. apply grown_refl.
  - apply bind_Ok in H as ([y s1] & Hy & H). apply bind_Ok in H as ([ys' s2] & Hys & H).
    injection H as <- <-. eapply grown_trans; [by eapply Hf | by eapply IH].
Qed.

Lemma recursion_check_Ok self (memo memo1 : gmap id (option id)) :
  _recursion_check self memo = Ok memo1 → memo1 = <[self := None]> memo.
Proof. unfold _recursion_check. destruct (memo !! self); [done | by intros [= <-]]. Qed.

Lemma deref_Ok (h : heap) i n : deref h i = Ok n → h !! i = Some n.
Proof. unfold deref. destruct (h !! i); [by intros [= ->] | done]. Qed.

(** The end of every [resolved]: the new node is allocated last and, for a
    node that keeps a memo entry, recorded. *)
Lemma resolved_ending st (memo : gmap id (option id)) (h : heap) self (n : node) :
  grown st (memo, h) → base_of n = Some self →
  grown st (<[self := Some (length h)]> memo, h ++ [n])
  ∧ (length st.2 ≤ length h)%nat
  ∧ (∃ n', (<[self := Some (length h)]> memo, h ++ [n]).2 !! length h = Some n'
           ∧ base_of n' = Some self)
  ∧ (∀ n0, st.2 !! self = Some n0 → is_container n0 = true →
       (<[self := Some (length h)]> memo, h ++ [n]).1 !! self = Some (Some (length h))).
Proof.
  intros Hg Hb. split; [by apply grown_alloc, grown_insert|].
  split; [by apply grown_length in Hg|]. split.
  - exists n. cbn. by rewrite lookup_app_r, Nat.sub_diag.
  - intros n0 _ _. cbn. by rewrite lookup_insert_eq.
Qed.

Lemma resolved_effects src lazy :
  ∀ fuel self st r st',
    resolved garbage fuel src lazy self st = Ok (r, st') →
    grown st st'
    ∧ (length st.2 ≤ r)%nat
    ∧ (∃ n, st'.2 !! r = Some n ∧ base_of n = Some self)
    ∧ (∀ n, st.2 !! self = Some n → is_container n = true → st'.1 !! self = Some (Some r)).
Proof.
  induction fuel as [|fuel IH]; intros self [memo h] r st' H; [done|].
  cbn [resolved] in H. apply bind_Ok in H as (n & Hn%deref_Ok & H).
  assert (Hkids : ∀ cs s ys s',
            mapM_st (resolved garbage fuel src lazy) cs s = Ok (ys, s') → grown s s').
  { intros cs. apply mapM_st_grown. intros x s y s' Hx. by apply IH in Hx as [? _]. }
  assert (Hfields : ∀ (cs : list (string * id)) s ys s',
            mapM_st (λ '(k, v) st, '(r, st) ← resolved garbage fuel src lazy v st;
                                   Ok ((k, r), st)) cs s = Ok (ys, s') → grown s s').
  { intros cs. apply mapM_st_grown. intros [k v] s y s' Hx. cbn in Hx.
    apply bind_Ok in Hx as ([r' s1] & Hx & [= <- <-]). by apply IH in Hx as [? _]. }
  assert (Hcheck : grown (memo, h) (<[self := None]> memo, h))
    by apply grown_insert, grown_refl.
  destruct n.
  - (* Primitive *)
    assert (Hprim : ∀ N, base_of N = Some self →
              grown (memo, h) (memo, h ++ [N])
              ∧ (length (memo, h).2 ≤ length h)%nat
              ∧ (∃ n', (memo, h ++ [N]).2 !! length h = Some n' ∧ base_of n' = Some self)
              ∧ (∀ n0, (memo, h).2 !! self = Some n0 → is_container n0 = true →
                   (memo, h ++ [N]).1 !! self = Some (Some (length h)))).
    { intros N HN. split; [apply grown_alloc, grown_refl|]. split; [done|]. split.
      - exists N. cbn. by rewrite lookup_app_r, Nat.sub_diag.
      - intros n0 Hn0. cbn in Hn0. rewrite Hn in Hn0. by injection Hn0 as <-. }
    destruct lazy.
    + unfold alloc in H. injection H as <- <-. by apply Hprim.
    + apply bind_Ok in H as (a & _ & H). unfold alloc in H. injection H as <- <-.
      by apply Hprim.
  - (* ListCount *)
    apply bind_Ok in H as (memo1 & Hm1%recursion_check_Ok & H). subst memo1.
    destruct lazy.
    + apply bind_Ok in H as ([c [memo2 h2]] & Hc & H). unfold alloc in H.
      injection H as <- <-. apply resolved_ending; [|done].
      eapply grown_trans; [exact Hcheck | by apply IH in Hc as [? _]].
    + apply bind_Ok in H as (p & _ & H). destruct p; try done.
      apply bind_Ok in H as ([c [memo2 h2]] & Hc & H). unfold alloc in H.
      injection H as <- <-. apply resolved_ending; [|done].
      eapply grown_trans; [exact Hcheck | by apply IH in Hc as [? _]].
  - (* ListOffset *)
    apply bind_Ok in H as (memo1 & Hm1%recursion_check_Ok & H). subst memo1.
    destruct lazy.
    + apply bind_Ok in H as ([c [memo2 h2]] & Hc & H). unfold alloc in H.
      injection H as <- <-. apply resolved_ending; [|done].
      eapply grown_trans; [exact Hcheck | by apply IH in Hc as [? _]].
    + apply bind_Ok in H as (p & _ & H). destruct p; try done.
      apply bind_Ok in H as ([c [memo2 h2]] & Hc & H). unfold alloc in H.
      injection H as <- <-. apply resolved_ending; [|done].
      eapply grown_trans; [exact Hcheck | by apply IH in Hc as [? _]].
  - (* ListStartEnd *)
    apply bind_Ok in H as (memo1 & Hm1%recursion_check_Ok & H). subst memo1.
    destruct lazy.
    + apply bind_Ok in H as ([c [memo2 h2]] & Hc & H). unfold alloc in H.
      injection H as <- <-. apply resolved_ending; [|done].
      eapply grown_trans; [exact Hcheck | by apply IH in Hc as [? _]].
    + apply bind_Ok in H as (p & _ & H). destruct p; try done.
      apply bind_Ok in H as ([c [memo2 h2]] & Hc & H). unfold alloc in H.
      injection H as <- <-. apply resolved_ending; [|done].
      eapply grown_trans; [exact Hcheck | by apply IH in Hc as [? _]].
  - (* Record *)
    apply bind_Ok in H as (memo1 & Hm1%recursion_check_Ok & H). subst memo1.
    apply bind_Ok in H as ([cs [memo2 h2]] & Hcs & H). unfold alloc in H.
    injection H as <- <-. apply resolved_ending; [|done].
    eapply grown_trans; [exact Hcheck | by eapply Hfields].
  - (* Tuple *)
    apply bind_Ok in H as (memo1 & Hm1%recursion_check_Ok & H). subst memo1.
    apply bind_Ok in H as ([cs [memo2 h2]] & Hcs & H). unfold alloc in H.
    injection H as <- <-. apply resolved_ending; [|done].
    eapply grown_trans; [exact Hcheck | by eapply Hkids].
  - (* UnionSparse *)
    apply bind_Ok in H as (memo1 & Hm1%recursion_check_Ok & H). subst memo1.
    destruct lazy.
    + apply bind_Ok in H as ([cs [memo2 h2]] & Hcs & H). unfold alloc in H.
      injection H as <- <-. apply resolved_ending; [|done].
      eapply grown_trans; [exact Hcheck | by eapply Hkids].
    + apply bind_Ok in H as (p & _ & H). destruct p; try done.
      apply bind_Ok in H as ([cs [memo2 h2]] & Hcs & H). unfold alloc in H.
      injection H as <- <-. apply resolved_ending; [|done].
      eapply grown_trans; [exact Hcheck | by eapply Hkids].
  - (* UnionSparseOffset *)
    apply bind_Ok in H as (memo1 & Hm1%recursion_check_Ok & H). subst memo1.
    destruct lazy.
    + apply bind_Ok in H as ([cs [memo2 h2]] & Hcs & H). unfold alloc in H.
      injection H as <- <-. apply resolved_ending; [|done].
      eapply grown_trans; [exact Hcheck | by eapply Hkids].
    + apply bind_Ok in H as (p & _ & H). destruct p; try done.
      apply bind_Ok in H as ([cs [memo2 h2]] & Hcs & H). unfold alloc in H.
      injection H as <- <-. apply resolved_ending; [|done].
      eapply grown_trans; [exact Hcheck | by eapply Hkids].
  - (* Pointer *)
    apply bind_Ok in H as ([memo2 h2] & Hpre & H).
    assert (Hg : grown (memo, h) (memo2, h2)).
    { destruct (memo !! target).
      - injection Hpre as <- <-. apply grown_refl.
      - apply bind_Ok in Hpre as ([r' s1] & Hx & [= <-]). by apply IH in Hx as [? _]. }
    destruct lazy.
    + apply bind_Ok in H as (t & _ & H). apply bind_Ok in H as ([r' h3] & Hnew & H).
      injection H as <- <-. unfold new_Pointer in Hnew. destruct t; [|done].
      unfold alloc in Hnew. injection Hnew as <- <-. by apply resolved_ending.
    + apply bind_Ok in H as (p & _ & H). destruct p; try done.
      apply bind_Ok in H as (t & _ & H). apply bind_Ok in H as ([r' h3] & Hnew & H).
      injection H as <- <-. unfold new_Pointer in Hnew. destruct t; [|done].
      unfold alloc in Hnew. injection Hnew as <- <-. by apply resolved_ending.
Qed.

(** X8. Resolution does not touch the schema it resolves: it only adds nodes
    to the heap (every node that existed is unchanged), and what it returns is
    a node it built, whose [base] is the node that was resolved. *)
Theorem resolved_only_adds fuel src lazy self (memo : gmap id (option id)) (h : heap) r memo' h' :
  resolved garbage fuel src lazy self (memo, h) = Ok (r, (memo', h')) →
  (∃ ext, h' = h ++ ext)
  ∧ (∀ i n, h !! i = Some n → h' !! i = Some n)
  ∧ (length h ≤ r)%nat
  ∧ ∃ n, h' !! r = Some n ∧ base_of n = Some self.
Proof.
  intros H. destruct (resolved_effects _ _ _ _ _ _ _ H) as (Hg & Hr & Hn & _).
  split; [apply Hg|]. split; [|by split].
  intros i n Hi. by apply (grown_lookup (memo, h) (memo', h')).
Qed.

Lemma hasbase_app fuel (h ext : heap) self base b :
  hasbase fuel h self base = Ok b → hasbase fuel (h ++ ext) self base = Ok b.
Proof.
  revert self. induction fuel as [|fuel IH]; intros self; [done|]. cbn [hasbase].
  case_bool_decide; [done|]. intros (n & Hn%deref_Ok & Hrest)%bind_Ok.
  unfold deref. rewrite (lookup_app_l_Some _ _ _ _ Hn). cbn [mbind res_bind].
  destruct (base_of n); [by apply IH | done].
Qed.

Lemma name_app fuel (h ext : heap) self nm :
  name fuel h self = Ok nm → name fuel (h ++ ext) self = Ok nm.
Proof.
  revert self. induction fuel as [|fuel IH]; intros self; [done|]. cbn [name].
  intros (n & Hn%deref_Ok & H)%bind_Ok.
  unfold deref. rewrite (lookup_app_l_Some _ _ _ _ Hn). cbn [mbind res_bind].
  destruct (base_of n); [by apply IH | done].
Qed.

(** X9. A resolved node descends from the node it was resolved from:
    [hasbase] finds that node (and every base of it), and the resolved node
    goes by the same [name]. *)
Theorem resolved_keeps_base_and_name fuel src lazy self (memo : gmap id (option id))
    (h : heap) r memo' h' :
  resolved garbage fuel src lazy self (memo, h) = Ok (r, (memo', h')) →
  hasbase 2 h' r (Some self) = Ok true
  ∧ (∀ f base, hasbase f h self base = Ok true → hasbase (S f) h' r base = Ok true)
  ∧ (∀ f nm, name f h self = Ok nm → name (S f) h' r = Ok nm).
Proof.
  intros H. destruct (resolved_effects _ _ _ _ _ _ _ H) as (Hg & Hr & (n & Hn & Hb) & _).
  destruct Hg as [[ext Hext] _]. cbn in *. subst h'.
  assert (Hne : r ≠ self → True) by done.
  split; [|split].
  - cbn [hasbase]. case_bool_decide; [done|]. unfold deref. rewrite Hn.
    cbn [mbind res_bind]. rewrite Hb. by rewrite bool_decide_eq_true_2.
  - intros f base Hf. cbn [hasbase]. case_bool_decide; [done|]. unfold deref. rewrite Hn.
    cbn [mbind res_bind]. rewrite Hb. by apply hasbase_app.
  - intros f nm Hf. cbn [name]. unfold deref. rewrite Hn. cbn [mbind res_bind]. rewrite Hb.
    by apply name_app.
Qed.

Lemma mapM_st_app {A B S} (f : A → S → res (B * S)) (l1 l2 : list A) (s : S) :
  mapM_st f (l1 ++ l2) s
  = '(ys1, s1) ← mapM_st f l1 s; '(ys2, s2) ← mapM_st f l2 s1; Ok (ys1 ++ ys2, s2).
Proof.
  revert s. induction l1 as [|x l1 IH]; intros s; cbn [mapM_st app].
  - cbn. by destruct (mapM_st f l2 s) as [[ys2 s2]| |].
  - destruct (f x s) as [[y s1]| |]; cbn; [|done|done]. rewrite IH.
    destruct (mapM_st f l1 s1) as [[ys1 s2]| |]; cbn; [|done|done].
    by destruct (mapM_st f l2 s2) as [[ys2 s3]| |].
Qed.

(** The state in which the element at position [i] of a comprehension is
    evaluated. *)
Lemma mapM_st_at {A B} (f : A → gmap id (option id) * heap → res (B * _)) (l : list A) :
  (∀ x s y s', f x s = Ok (y, s') → grown s s') →
  ∀ s ys s' i x, mapM_st f l s = Ok (ys, s') → l !! i = Some x →
    ∃ s1 y s2, grown s s1 ∧ f x s1 = Ok (y, s2)
               ∧ ∃ ys2, mapM_st f (drop (S i) l) s2 = Ok (ys2, s').
Proof.
  intros Hf. induction l as [|x0 l IH]; intros s ys s' i x H Hi; [done|].
  cbn [mapM_st] in H. apply bind_Ok in H as ([y s1] & Hy & H).
  apply bind_Ok in H as ([ys' s2] & Hys & H). injection H as <- <-.
  destruct i as [|i]; cbn in Hi.
  - injection Hi as <-. exists s, y, s1. split; [apply grown_refl|]. split; [done|].
    by exists ys'.
  - destruct (IH _ _ _ _ _ Hys Hi) as (sa & ya & sb & Hg & Hx & Hrest).
    exists sa, ya, sb. split; [|done]. eapply grown_trans; [by eapply Hf | done].
Qed.

(** A container that the memo already holds is refused. *)
Lemma resolved_twice fuel src lazy c (memo : gmap id (option id)) (h : heap) n :
  h !! c = Some n → is_container n = true → is_Some (memo !! c) →
  is_ok (resolved garbage fuel src lazy c (memo, h)) = false.
Proof.
  intros Hn Hc [v Hv]. destruct fuel as [|fuel]; [done|]. cbn [resolved].
  unfold deref. rewrite Hn. cbn [mbind res_bind]. unfold _recursion_check. rewrite Hv.
  by destruct n.
Qed.

Lemma is_ok_false_Ok {A} (m : res A) a : is_ok m = false → m = Ok a → False.
Proof. by intros H ->. Qed.

(** X10. A container (a list, record, tuple or union) that sits at two
    places among the contents of the same record, tuple or union is refused:
    [resolved] returns no tree, lazily or not. *)
Theorem shared_container_rejected fuel src lazy t (memo : gmap id (option id)) (h : heap)
    n c nc (i j : nat) :
  h !! t = Some n →
  children_of n !! i = Some c → children_of n !! j = Some c → (i < j)%nat →
  h !! c = Some nc → is_container nc = true →
  is_ok (resolved garbage fuel src lazy t (memo, h)) = false.
Proof.
  intros Hn Hi Hj Hij Hc Hcont.
  destruct (resolved garbage fuel src lazy t (memo, h)) as [[r st']| |] eqn:H; [|done|done].
  exfalso. destruct fuel as [|fuel]; [done|].
  assert (Hf : ∀ x s y s', resolved garbage fuel src lazy x s = Ok (y, s') → grown s s').
  { intros x s y s' Hx. by apply resolved_effects in Hx as [? _]. }
  assert (Hkids : ∀ cs m0 ys s', cs !! i = Some c → cs !! j = Some c →
            mapM_st (resolved garbage fuel src lazy) cs (m0, h) = Ok (ys, s') → False).
  { intros cs m0 ys s' Hci Hcj Hm.
    destruct (mapM_st_at _ cs Hf _ _ _ i c Hm Hci) as (sa & ya & sb & Hga & Ha & ys2 & Hrest).
    assert (Hcj' : drop (S i) cs !! (j - S i)%nat = Some c).
    { rewrite lookup_drop. by replace (S i + (j - S i))%nat with j by lia. }
    destruct (mapM_st_at _ _ Hf _ _ _ _ c Hrest Hcj') as (sc & yc & sd & Hgc & Hc2 & _).
    destruct (resolved_effects _ _ _ _ _ _ _ Ha) as (_ & _ & _ & Hmemo).
    pose proof (grown_lookup _ _ _ _ Hga Hc) as Hca.
    specialize (Hmemo nc Hca Hcont).
    destruct (resolved_effects _ _ _ _ _ _ _ Ha) as (Hgab & _).
    assert (Hcc : sc.2 !! c = Some nc).
    { eapply grown_lookup; [exact Hgc|]. eapply grown_lookup; [exact Hgab | exact Hca]. }
    assert (Hmc : is_Some (sc.1 !! c)).
    { destruct Hgc as [_ Hkeep]. apply Hkeep. by rewrite Hmemo. }
    destruct sc as [mc hc].
    exact (is_ok_false_Ok _ _ (resolved_twice fuel src lazy c mc hc nc Hcc Hcont Hmc) Hc2). }
  cbn [resolved] in H. unfold deref in H. rewrite Hn in H. cbn [mbind res_bind] in H.
  destruct n; cbn [children_of] in Hi, Hj.
  - done.
  - destruct i, j; cbn in *; done || lia.
  - destruct i, j; cbn in *; done || lia.
  - destruct i, j; cbn in *; done || lia.
  - apply bind_Ok in H as (memo1 & _ & H).
    apply bind_Ok in H as ([cs [memo2 h2]] & Hcs & _).
    rewrite mapM_st_fields in Hcs. apply bind_Ok in Hcs as ([rs s2] & Hcs & _).
    by eapply Hkids.
  - apply bind_Ok in H as (memo1 & _ & H).
    apply bind_Ok in H as ([cs [memo2 h2]] & Hcs & _). by eapply Hkids.
  - apply bind_Ok in H as (memo1 & _ & H). destruct lazy.
    + apply bind_Ok in H as ([cs [memo2 h2]] & Hcs & _). by eapply Hkids.
    + apply bind_Ok in H as (p & _ & H). destruct p; try done.
      apply bind_Ok in H as ([cs [memo2 h2]] & Hcs & _). by eapply Hkids.
  - apply bind_Ok in H as (memo1 & _ & H). destruct lazy.
    + apply bind_Ok in H as ([cs [memo2 h2]] & Hcs & _). by eapply Hkids.
    + apply bind_Ok in H as (p & _ & H). destruct p; try done.
      apply bind_Ok in H as ([cs [memo2 h2]] & Hcs & _). by eapply Hkids.
  - destruct i, j; cbn in *; done || lia.
Qed.

End Resolution_effects.

Section Resolution_effects_examples.
Import Schema Fresh.

(** The theorem at a list of numbers read through the keys [o] and [d]. *)
Lemma resolved_only_adds_witness :
  (∃ ext, [Primitive (AKey "d") false None; ListOffset (AKey "o") 0%nat false None;
           Primitive (AArray (array int64 [7; 8])) false (Some 0%nat);
           ListStartEnd (AArray (array int64 [0])) (AArray (array int64 [2])) 2%nat false
             (Some 1%nat)]
          = [Primitive (AKey "d") false None; ListOffset (AKey "o") 0%nat false None] ++ ext)
  ∧ (∀ i n, [Primitive (AKey "d") false None; ListOffset (AKey "o") 0%nat false None] !! i
            = Some n →
            [Primitive (AKey "d") false None; ListOffset (AKey "o") 0%nat false None;
             Primitive (AArray (array int64 [7; 8])) false (Some 0%nat);
             ListStartEnd (AArray (array int64 [0])) (AArray (array int64 [2])) 2%nat false
               (Some 1%nat)] !! i = Some n)
  ∧ (length [Primitive (AKey "d") false None; ListOffset (AKey "o") 0%nat false None] ≤ 3)%nat
  ∧ ∃ n, [Primitive (AKey "d") false None; ListOffset (AKey "o") 0%nat false None;
          Primitive (AArray (array int64 [7; 8])) false (Some 0%nat);
          ListStartEnd (AArray (array int64 [0])) (AArray (array int64 [2])) 2%nat false
            (Some 1%nat)] !! 3%nat = Some n
         ∧ base_of n = Some 1%nat.
Proof.
  apply (resolved_only_adds (λ _, 0) 4
           (<["o" := SArray (array int64 [0; 2])]> (<["d" := SArray (array int64 [7; 8])]> ∅))
           false 1%nat ∅
           [Primitive (AKey "d") false None; ListOffset (AKey "o") 0%nat false None]
           3%nat (<[1%nat := Some 3%nat]> (<[1%nat := None]> ∅))).
  vm_compute. reflexivity.
Defined.

(** The theorem at lazy resolution of the primitive read through the key
    [d]: the resolved node is still named [d]. *)
Lemma resolved_keeps_base_and_name_witness :
  name 2 [Primitive (AKey "d") false None; Primitive (AResolve 0%nat ∅) false (Some 0%nat)]
    1%nat
  = Ok (NArray (AKey "d")).
Proof.
  apply (proj2 (proj2 (resolved_keeps_base_and_name (λ _, 0) 1 ∅ true 0%nat ∅
                         [Primitive (AKey "d") false None] 1%nat ∅
                         [Primitive (AKey "d") false None;
                          Primitive (AResolve 0%nat ∅) false (Some 0%nat)] eq_refl))
           1%nat (NArray (AKey "d"))).
  reflexivity.
Defined.

(** The theorem at a tuple that holds the same list twice. *)
Lemma shared_container_rejected_witness :
  is_ok (resolved (λ _, 0) 5
           (<["o" := SArray (array int64 [0; 2])]> (<["d" := SArray (array int64 [7; 8])]> ∅))
           false 2%nat
           (∅, [Primitive (AKey "d") false None; ListOffset (AKey "o") 0%nat false None;
                Tuple [1%nat; 1%nat] None])) = false.
Proof.
  apply (shared_container_rejected (λ _, 0) 5 _ false 2%nat ∅
           [Primitive (AKey "d") false None; ListOffset (AKey "o") 0%nat false None;
            Tuple [1%nat; 1%nat] None]
           (Tuple [1%nat; 1%nat] None) 1%nat (ListOffset (AKey "o") 0%nat false None)
           0%nat 1%nat).
  - reflexivity.
  - reflexivity.
  - reflexivity.
  - lia.
  - reflexivity.
  - reflexivity.
Defined.

End Resolution_effects_examples.

(** ** What the searches of a schema find ([arrowed/schema.py]) *)

Section Search_facts.
Import Schema Fresh.

Lemma reaches_trans h x y z : reaches h x y → reaches h y z → reaches h x z.
Proof.
  induction 1 as [x|x n c y Hn Hc _ IH]; [done|]. intros Hz.
  eapply reaches_child; [exact Hn | exact Hc | by apply IH].
Qed.

Lemma reaches_one h x n c : h !! x = Some n → c ∈ children_of n → reaches h x c.
Proof. intros Hn Hc. eapply reaches_child; [exact Hn | exact Hc | constructor]. Qed.

(** X11. [hasany] answers [True] only for a tree that holds one of the
    nodes asked for: the node itself, or a node reached from it through
    contents and targets. *)
Theorem hasany_true_is_reached (h : heap) (others : list id) :
  ∀ fuel self memo memo',
    hasany fuel h self others memo = Ok (true, memo') →
    ∃ x, reaches h self x ∧ x ∈ others.
Proof.
  induction fuel as [|fuel IH]; intros self memo memo' H; [done|].
  cbn [hasany] in H. apply bind_Ok in H as (n & Hn & H).
  unfold deref in Hn. destruct (h !! self) as [n'|] eqn:Hself; [|done].
  injection Hn as ->.
  assert (Hhere : is_in self others = true → ∃ x, reaches h self x ∧ x ∈ others).
  { intros Hin%bool_decide_eq_true. exists self. split; [constructor | done]. }
  assert (Hone : ∀ child, child ∈ children_of n →
            (if is_in self others then Ok (true, memo)
             else if bool_decide (child ∈ memo) then Ok (false, memo)
                  else hasany fuel h child others ({[child]} ∪ memo)) = Ok (true, memo') →
            ∃ x, reaches h self x ∧ x ∈ others).
  { intros child Hchild Hc. destruct (is_in self others) eqn:E; [by apply Hhere|].
    destruct (bool_decide (child ∈ memo)); [done|].
    destruct (IH _ _ _ Hc) as (x & Hx & Hin). exists x. split; [|done].
    eapply reaches_child; [exact Hself | exact Hchild | exact Hx]. }
  assert (Hmany : ∀ cs, (∀ c, c ∈ cs → c ∈ children_of n) →
            (if is_in self others then Ok (true, memo)
             else match first_unseen cs memo with
                  | Some x => hasany fuel h x others ({[x]} ∪ memo)
                  | None => Ok (false, memo)
                  end) = Ok (true, memo') →
            ∃ x, reaches h self x ∧ x ∈ others).
  { intros cs Hcs Hc. destruct (is_in self others) eqn:E; [by apply Hhere|].
    destruct (first_unseen cs memo) as [c|] eqn:Hfirst; [|done].
    destruct (IH _ _ _ Hc) as (x & Hx & Hin). exists x. split; [|done].
    eapply reaches_child; [exact Hself | | exact Hx].
    apply Hcs. by eapply first_unseen_elem. }
  destruct n; cbn [children_of] in *.
  - injection H as Hin _. by apply Hhere.
  - apply (Hone contents); [by left | done].
  - apply (Hone contents); [by left | done].
  - apply (Hone contents); [by left | done].
  - by apply (Hmany contents.*2).
  - by apply (Hmany contents).
  - by apply (Hmany contents).
  - by apply (Hmany contents).
  - apply (Hone target); [by left | done].
Qed.

(** The theorem at a list whose content is asked for. *)
Lemma hasany_true_is_reached_witness :
  ∃ x, reaches [Primitive (AKey "d") false None; ListOffset (AKey "o") 0%nat false None]
         1%nat x
       ∧ x ∈ [0%nat].
Proof.
  apply (hasany_true_is_reached
           [Primitive (AKey "d") false None; ListOffset (AKey "o") 0%nat false None]
           [0%nat] 2 1%nat ∅ {[0%nat]}).
  vm_compute. reflexivity.
Defined.

Lemma hasbase_more (h : heap) base :
  ∀ fuel self b, hasbase fuel h self base = Ok b → hasbase (S fuel) h self base = Ok b.
Proof.
  induction fuel as [|fuel IH]; intros self b H; [done|].
  cbn [hasbase] in H. change (hasbase (S (S fuel)) h self base)
    with (if bool_decide (Some self = base) then Ok true
          else n ← deref h self;
               match base_of n with
               | Some b => hasbase (S fuel) h b base
               | None => Ok false
               end).
  case_bool_decide; [done|]. apply bind_Ok in H as (n & -> & H). cbn [mbind res_bind].
  destruct (base_of n); [by apply IH | done].
Qed.

(** X12. [findbybase] returns nothing but a node of the tree it searches
    that has the base asked for. *)
Theorem findbybase_is_sound (h : heap) (base : option id) :
  ∀ fuel self memo r memo',
    findbybase fuel h self base memo = Ok (Some r, memo') →
    reaches h self r ∧ hasbase fuel h r base = Ok true.
Proof.
  induction fuel as [|fuel IH]; intros self memo r memo' H; [done|].
  cbn [findbybase] in H. apply bind_Ok in H as (n & Hn & H).
  unfold deref in Hn. destruct (h !! self) as [n'|] eqn:Hself; [|done].
  injection Hn as ->. apply bind_Ok in H as (found & Hfound & H).
  destruct found.
  { injection H as <- <-. split; [constructor | by apply hasbase_more]. }
  assert (Hone : ∀ child, child ∈ children_of n →
            (if bool_decide (child ∈ memo) then Ok (None, memo)
             else findbybase fuel h child base ({[child]} ∪ memo)) = Ok (Some r, memo') →
            reaches h self r ∧ hasbase (S fuel) h r base = Ok true).
  { intros child Hchild Hc. destruct (bool_decide (child ∈ memo)); [done|].
    destruct (IH _ _ _ _ Hc) as [Hr Hb]. split; [|by apply hasbase_more].
    eapply reaches_child; [exact Hself | exact Hchild | exact Hr]. }
  assert (Hmany : ∀ cs m, (∀ c, c ∈ cs → c ∈ children_of n) →
            (fix loop (contents : list id) (memo : gset id) {struct contents}
                 : res (option id * gset id) :=
               match contents with
               | [] => Ok (None, memo)
               | x :: contents' =>
                   if bool_decide (x ∈ memo) then loop contents' memo
                   else '(out, memo) ← findbybase fuel h x base ({[x]} ∪ memo);
                        match out with
                        | Some r => Ok (Some r, memo)
                        | None => loop contents' memo
                        end
               end) cs m = Ok (Some r, memo') →
            reaches h self r ∧ hasbase (S fuel) h r base = Ok true).
  { induction cs as [|c cs IHcs]; intros m Hcs Hc; [done|].
    destruct (bool_decide (c ∈ m)).
    - apply (IHcs m); [|done]. intros c' Hc'. apply Hcs. by right.
    - apply bind_Ok in Hc as ([out m1] & Hout & Hc). destruct out as [r'|].
      + injection Hc as <- <-. destruct (IH _ _ _ _ Hout) as [Hr Hb].
        split; [|by apply hasbase_more].
        eapply reaches_child; [exact Hself | apply Hcs; by left | exact Hr].
      + apply (IHcs m1); [|done]. intros c' Hc'. apply Hcs. by right. }
  destruct n; cbn [children_of] in *.
  - done.
  - apply (Hone contents); [by left | done].
  - apply (Hone contents); [by left | done].
  - apply (Hone contents); [by left | done].
  - by apply (Hmany contents.*2 memo).
  - by apply (Hmany contents memo).
  - by apply (Hmany contents memo).
  - by apply (Hmany contents memo).
  - apply (Hone target); [by left | done].
Qed.

(** The theorem at a resolved list: the resolved content is found by the
    node it was resolved from. *)
Lemma findbybase_is_sound_witness :
  reaches [Primitive (AKey "d") false None; ListOffset (AKey "o") 0%nat false None;
           Primitive (AKey "d") false (Some 0%nat);
           ListOffset (AKey "o") 2%nat false (Some 1%nat)] 3%nat 2%nat
  ∧ hasbase 4 [Primitive (AKey "d") false None; ListOffset (AKey "o") 0%nat false None;
               Primitive (AKey "d") false (Some 0%nat);
               ListOffset (AKey "o") 2%nat false (Some 1%nat)] 2%nat (Some 0%nat)
    = Ok true.
Proof.
  apply (findbybase_is_sound
           [Primitive (AKey "d") false None; ListOffset (AKey "o") 0%nat false None;
            Primitive (AKey "d") false (Some 0%nat);
            ListOffset (AKey "o") 2%nat false (Some 1%nat)] (Some 0%nat)
           4 3%nat ∅ 2%nat {[2%nat]}).
  vm_compute. reflexivity.
Defined.

End Search_facts.

(** ** What projection leaves behind ([arrowed/schema.py]) *)

Section Projection_effects.
Import Schema Fresh.

Lemma memoized_grown f x s r s' :
  (∀ x s r s', f x s = Ok (r, s') → grown s s') →
  memoized f x s = Ok (r, s') → grown s s'.
Proof.
  intros Hf H. destruct s as [memo h]. unfold memoized in H.
  destruct (memo !! x) as [content|].
  - injection H as <- <-. apply grown_refl.
  - apply bind_Ok in H as ([content [memo1 h1]] & Hp & H). injection H as <- <-.
    apply grown_insert. eapply grown_trans; [|by eapply Hf].
    apply grown_insert, grown_refl.
Qed.

Lemma projection_ending st (memo : gmap id (option id)) (h : heap) self (n : node) :
  grown st (memo, h) → base_of n = Some self →
  grown st (memo, h ++ [n])
  ∧ ∀ p, Some (length h) = Some p →
      (length st.2 ≤ p)%nat
      ∧ ∃ n', (memo, h ++ [n]).2 !! p = Some n' ∧ base_of n' = Some self.
Proof.
  intros Hg Hb. split; [by apply grown_alloc|]. intros p [= <-].
  split; [by apply grown_length in Hg|]. exists n. cbn.
  by rewrite lookup_app_r, Nat.sub_diag.
Qed.

Lemma projection_effects (required : list id) :
  ∀ fuel self st r st',
    projection fuel required self st = Ok (r, st') →
    grown st st'
    ∧ ∀ p, r = Some p →
        (length st.2 ≤ p)%nat ∧ ∃ n, st'.2 !! p = Some n ∧ base_of n = Some self.
Proof.
  induction fuel as [|fuel IH]; intros self [memo h] r st' H; [done|].
  cbn [projection] in H. apply bind_Ok in H as (n & Hn & H).
  apply bind_Ok in H as ([any memo0] & _ & H).
  destruct (negb any).
  { injection H as <- <-. split; [apply grown_refl | done]. }
  assert (Hf : ∀ x s r s', projection fuel required x s = Ok (r, s') → grown s s').
  { intros x s r' s' Hx. by apply IH in Hx as [? _]. }
  assert (Hchild : ∀ x s r s',
            memoized (projection fuel required) x s = Ok (r, s') → grown s s').
  { intros x s r' s'. by apply memoized_grown. }
  assert (Hmany : ∀ cs s kept s',
            surviving (projection fuel required) cs s = Ok (kept, s') → grown s s').
  { intros cs s kept s' Hs. unfold surviving in Hs.
    apply bind_Ok in Hs as ([cs' s1] & Hcs & [= _ <-]).
    by eapply mapM_st_grown. }
  assert (Hfields : ∀ cs s kept s',
            surviving_fields (projection fuel required) cs s = Ok (kept, s') → grown s s').
  { intros cs s kept s' Hs. unfold surviving_fields in Hs.
    apply bind_Ok in Hs as ([cs' s1] & Hcs & [= _ <-]).
    eapply mapM_st_grown; [|exact Hcs]. intros [k x] s0 y s0' Hx. cbn in Hx.
    apply bind_Ok in Hx as ([content s2] & Hx & [= _ <-]). by eapply Hchild. }
  assert (Hlist : ∀ content (memo1 : gmap id (option id)) (h1 : heap) (N : node) c h2,
            grown (memo, h) (memo1, h1) →
            match content with
            | Some c => (c, h1)
            | None => alloc N h1
            end = (c, h2) → grown (memo, h) (memo1, h2)).
  { intros [c0|] memo1 h1 N c h2 Hg Hc.
    - by injection Hc as <- <-.
    - unfold alloc in Hc. injection Hc as <- <-. by apply grown_alloc. }
  destruct n.
  - unfold alloc in H. injection H as <- <-. apply projection_ending; [apply grown_refl | done].
  - apply bind_Ok in H as ([content [memo1 h1]] & Hc%Hchild & H).
    destruct (match content with Some c => _ | None => _ end) as [c h2] eqn:Hsel.
    unfold alloc in H. injection H as <- <-. apply projection_ending; [|done].
    by eapply Hlist.
  - apply bind_Ok in H as ([content [memo1 h1]] & Hc%Hchild & H).
    destruct (match content with Some c => _ | None => _ end) as [c h2] eqn:Hsel.
    unfold alloc in H. injection H as <- <-. apply projection_ending; [|done].
    by eapply Hlist.
  - apply bind_Ok in H as ([content [memo1 h1]] & Hc%Hchild & H).
    destruct (match content with Some c => _ | None => _ end) as [c h2] eqn:Hsel.
    unfold alloc in H. injection H as <- <-. apply projection_ending; [|done].
    by eapply Hlist.
  - apply bind_Ok in H as ([kept [memo1 h1]] & Hk%Hfields & H).
    destruct kept; [injection H as <- <-; by split|].
    unfold alloc in H. injection H as <- <-. by apply projection_ending.
  - apply bind_Ok in H as ([kept [memo1 h1]] & Hk%Hmany & H).
    destruct kept; [injection H as <- <-; by split|].
    unfold alloc in H. injection H as <- <-. by apply projection_ending.
  - apply bind_Ok in H as ([kept [memo1 h1]] & Hk%Hmany & H).
    destruct kept; [injection H as <- <-; by split|].
    unfold alloc in H. injection H as <- <-. by apply projection_ending.
  - apply bind_Ok in H as ([kept [memo1 h1]] & Hk%Hmany & H).
    destruct kept; [injection H as <- <-; by split|].
    unfold alloc in H. injection H as <- <-. by apply projection_ending.
  - apply bind_Ok in H as ([content [memo1 h1]] & Hc%Hchild & H).
    destruct (match content with Some c => _ | None => _ end) as [c h2] eqn:Hsel.
    unfold alloc in H. injection H as <- <-. apply projection_ending; [|done].
    by eapply Hlist.
Qed.

(** X13. Projection does not touch the schema it projects: every node that
    existed is unchanged, and a projection that is not [None] is a node that
    was built by the call, whose [base] is the node that was projected. *)
Theorem projection_only_adds fuel (required : list id) self (h : heap) r h' :
  project fuel required self h = Ok (r, h') →
  (∀ i n, h !! i = Some n → h' !! i = Some n)
  ∧ ∀ p, r = Some p →
      (length h ≤ p)%nat ∧ ∃ n, h' !! p = Some n ∧ base_of n = Some self.
Proof.
  unfold project. intros ([r' [memo' h'']] & Hp & [= <- <-])%bind_Ok.
  destruct (projection_effects _ _ _ _ _ _ Hp) as [Hg Hr]. split; [|exact Hr].
  intros i n Hi. by apply (grown_lookup (∅, h) (memo', h'')).
Qed.

(** The theorem at a record of which one field is asked for. *)
Lemma projection_only_adds_witness :
  (∀ i n, [Primitive (AKey "a") false None; Primitive (AKey "b") false None;
           Record [("a", 0%nat); ("b", 1%nat)] None "Record-0"] !! i = Some n →
          [Primitive (AKey "a") false None; Primitive (AKey "b") false None;
           Record [("a", 0%nat); ("b", 1%nat)] None "Record-0";
           Primitive (AKey "a") false (Some 0%nat);
           Record [("a", 3%nat)] (Some 2%nat) "Record-0"] !! i = Some n)
  ∧ ∀ p, Some 4%nat = Some p →
      (length [Primitive (AKey "a") false None; Primitive (AKey "b") false None;
               Record [("a", 0%nat); ("b", 1%nat)] None "Record-0"] ≤ p)%nat
      ∧ ∃ n, [Primitive (AKey "a") false None; Primitive (AKey "b") false None;
              Record [("a", 0%nat); ("b", 1%nat)] None "Record-0";
              Primitive (AKey "a") false (Some 0%nat);
              Record [("a", 3%nat)] (Some 2%nat) "Record-0"] !! p = Some n
             ∧ base_of n = Some 2%nat.
Proof.
  apply (projection_only_adds 4 [0%nat] 2%nat
           [Primitive (AKey "a") false None; Primitive (AKey "b") false None;
            Record [("a", 0%nat); ("b", 1%nat)] None "Record-0"]).
  vm_compute. reflexivity.
Defined.

End Projection_effects.

(** ** Lazy and eager resolution of the schema of a type *)

Section Lazy_and_eager.
Import Convert Pipeline RoundTrip.

Variable garbage : nat → Z.

Lemma children_resolved_lazily {A} (ty_of : A → ty) (nm : nat → A → ArrayName) src fuel
    (ts : list A) :
  Forall (λ x, resolves_lazily garbage (ty_of x)) ts →
  Forall (λ x, (depth (ty_of x) ≤ fuel)%nat) ts →
  ∀ tag cs lo hi memo H,
    chain (λ tag x lo c, Template H (ty_of x) (nm tag x) lo c) tag ts cs lo hi →
    (∀ k, (lo ≤ k < hi)%nat → memo !! k = None) →
    ∃ rs memo' ext,
      Schema.mapM_st (Schema.resolved garbage fuel src true) cs (memo, H)
      = Ok (rs, (memo', H ++ ext))
      ∧ ∀ k, ¬ (lo ≤ k < hi)%nat → memo' !! k = memo !! k.
Proof.
  intros IH Hfuel. induction IH as [|x ts Hx IH IHts];
    intros tag [|c cs] lo hi memo H Hch Hmemo; cbn [chain] in Hch; try done.
  - exists [], memo, []. cbn. rewrite app_nil_r. done.
  - apply Forall_cons in Hfuel as [Hfx Hfuel]. destruct Hch as [HT Hch].
    pose proof (Template_bounds _ _ _ _ _ HT) as Hloc.
    assert (Hchi : (S c ≤ hi)%nat).
    { revert Hch. apply chain_bounds. apply Forall_forall. intros y _ tg l c'.
      apply Template_bounds. }
    destruct (Hx src (nm tag x) lo c memo H fuel HT) as (r & memo1 & ext1 & Hres & Hm1).
    { intros k Hk. apply Hmemo. lia. }
    { done. }
    destruct (IHts Hfuel (S tag) cs (S c) hi memo1 (H ++ ext1)) as
      (rs & memo2 & ext2 & Hrest & Hm2).
    { revert Hch. apply chain_mono. apply Forall_forall. intros y _ tg l c'.
      apply Template_mono. }
    { intros k Hk. rewrite Hm1 by lia. apply Hmemo. lia. }
    exists (r :: rs), memo2, (ext1 ++ ext2). cbn [Schema.mapM_st]. rewrite Hres.
    cbn [mbind res_bind]. rewrite Hrest. cbn [mbind res_bind]. rewrite !app_assoc.
    split; [done|]. intros k Hk. rewrite Hm2 by lia. apply Hm1. lia.
Qed.

Lemma lazy_resolved_Template (tpe : ty) : resolves_lazily garbage tpe.
Proof.
  induction tpe as [dt|t IH|ts IH|fs IH|] using ty_nested_ind;
    intros src name lo r memo H fuel HT Hmemo Hfuel; cbn [Template depth] in *;
    [| | | |done].
  - destruct HT as [Hlo Hr]. destruct fuel as [|fuel]; [lia|].
    eexists (length H), memo, [_]. cbn [Schema.resolved].
    unfold Schema.deref. rewrite Hr. cbn [mbind res_bind Schema.alloc]. done.
  - destruct HT as (c & Hr & Hc & HT). destruct fuel as [|fuel]; [lia|].
    pose proof (Template_bounds _ _ _ _ _ HT) as Hloc.
    destruct (IH src (toListData name) lo c (<[r := None]> memo) H fuel HT)
      as (rc & memo' & ext & Hres & Hm').
    { intros k Hk. rewrite lookup_insert_ne by lia. apply Hmemo. lia. }
    { lia. }
    eexists (length (H ++ ext)), (<[r := Some (length (H ++ ext))]> memo'), (ext ++ [_]).
    cbn [Schema.resolved]. unfold Schema.deref. rewrite Hr. cbn [mbind res_bind].
    unfold Schema._recursion_check. rewrite (Hmemo r) by lia. cbn [mbind res_bind].
    rewrite Hres. cbn [mbind res_bind Schema.alloc]. rewrite <- app_assoc. split; [done|].
    intros k Hk. rewrite lookup_insert_ne by lia. rewrite Hm' by lia.
    by rewrite lookup_insert_ne by lia.
  - destruct HT as (cs & Hr & Hch). destruct fuel as [|fuel]; [lia|].
    assert (Hlor : (lo ≤ r)%nat).
    { revert Hch. apply chain_bounds. apply Forall_forall. intros y _ tg l c'.
      apply Template_bounds. }
    assert (Hdepth : Forall (λ t, (depth t ≤ fuel)%nat) ts).
    { apply Forall_lookup. intros k t Hk.
      pose proof (depth_le_max depth ts k t Hk). lia. }
    assert (Hm1 : ∀ k, (lo ≤ k < r)%nat → <[r := None]> memo !! k = None).
    { intros k Hk. rewrite lookup_insert_ne by lia. apply Hmemo. lia. }
    destruct (children_resolved_lazily (λ t, t) (λ tag _, toUnionData name tag) src fuel ts IH
                Hdepth 0%nat cs lo r (<[r := None]> memo) H Hch Hm1)
      as (rs & memo' & ext & Hres & Hm').
    eexists (length (H ++ ext)), (<[r := Some (length (H ++ ext))]> memo'), (ext ++ [_]).
    cbn [Schema.resolved]. unfold Schema.deref. rewrite Hr. cbn [mbind res_bind].
    unfold Schema._recursion_check. rewrite (Hmemo r) by lia. cbn [mbind res_bind].
    rewrite Hres. cbn [mbind res_bind Schema.alloc]. rewrite <- app_assoc. split; [done|].
    intros k Hk. rewrite lookup_insert_ne by lia. rewrite Hm' by lia.
    by rewrite lookup_insert_ne by lia.
  - destruct HT as (cs & Hr & Hnames & Hch). destruct fuel as [|fuel]; [lia|].
    assert (Hlor : (lo ≤ r)%nat).
    { revert Hch. apply chain_bounds. apply Forall_forall. intros y _ tg l c'.
      apply Template_bounds. }
    assert (Hdepth : Forall (λ p : string * ty, (depth p.2 ≤ fuel)%nat) fs).
    { apply Forall_lookup. intros k p Hk.
      pose proof (depth_le_max (λ p : string * ty, depth p.2) fs k p Hk). cbn in *. lia. }
    assert (Hm1 : ∀ k, (lo ≤ k < r)%nat → <[r := None]> memo !! k = None).
    { intros k Hk. rewrite lookup_insert_ne by lia. apply Hmemo. lia. }
    destruct (children_resolved_lazily (λ p : string * ty, p.2) (λ _ p, toRecord name p.1)
                src fuel fs IH Hdepth 0%nat cs.*2 lo r (<[r := None]> memo) H Hch Hm1)
      as (rs & memo' & ext & Hres & Hm').
    eexists (length (H ++ ext)), (<[r := Some (length (H ++ ext))]> memo'), (ext ++ [_]).
    cbn [Schema.resolved]. unfold Schema.deref. rewrite Hr. cbn [mbind res_bind].
    unfold Schema._recursion_check. rewrite (Hmemo r) by lia. cbn [mbind res_bind].
    rewrite (mapM_st_fields (Schema.resolved garbage fuel src true)), Hres.
    cbn [mbind res_bind Schema.alloc]. rewrite <- app_assoc. split; [done|].
    intros k Hk. rewrite lookup_insert_ne by lia. rewrite Hm' by lia.
    by rewrite lookup_insert_ne by lia.
Qed.

(** X14. Lazy resolution reads no array: for the schema of a type built
    from primitives, lists, unions and records it returns a tree whatever the
    source holds, also when the source is empty. *)
Theorem lazy_resolution_needs_no_source src fuel (tpe : ty) name h t h' :
  supported tpe = true → schema_of tpe name h = Some (t, h') →
  (depth tpe ≤ fuel)%nat →
  is_ok (Schema.resolve garbage fuel src true t h') = true.
Proof.
  intros Hsup Hsch Hfuel.
  destruct (schema_of_Template tpe Hsup name h) as (t' & ext & Hsch' & HT & _).
  rewrite Hsch in Hsch'. injection Hsch' as -> ->.
  destruct (lazy_resolved_Template tpe src name (length h) t' ∅ (h ++ ext) fuel HT)
    as (r & memo' & ext' & Hres & _); [done | done |].
  unfold Schema.resolve. by rewrite Hres.
Qed.

Lemma _resolved_key_inv fuel h self k src message extracheck a :
  Schema._resolved garbage fuel h self (Schema.AKey k) src message false extracheck = Ok a →
  src !! k = Some (Schema.SArray a) ∧ plain a ∧ extracheck a = true.
Proof.
  destruct fuel as [|fuel]; [done|]. cbn [Schema._resolved].
  destruct (src !! k) as [o|]; [|done]. unfold Schema._resolved_check.
  destruct o as [b| |]; [|done|done].
  destruct (recarray b) eqn:Hr; [done|]. cbn [negb andb].
  case_bool_decide as Hs; [|done]. cbn [andb].
  destruct (extracheck b) eqn:He; [|done]. cbn [andb].
  case_bool_decide as Hm; [|done]. intros [= <-]. done.
Qed.

Lemma chain_lookup {A} (P : nat → A → nat → nat → Prop) (ts : list A) :
  ∀ tag cs lo hi j t, chain P tag ts cs lo hi → ts !! j = Some t →
    ∃ c lo', cs !! j = Some c ∧ P (tag + j)%nat t lo' c.
Proof.
  induction ts as [|t0 ts IH]; intros tag [|c0 cs] lo hi [|j] t; cbn; try done.
  - intros [Hp _] [= <-]. exists c0, lo. by rewrite Nat.add_0_r.
  - intros [_ Hp] Hj. destruct (IH _ _ _ _ _ _ Hp Hj) as (c & lo' & Hc & HP).
    exists c, lo'. split; [done|]. by replace (tag + S j)%nat with (S tag + j)%nat by lia.
Qed.

(** The children of a union or record, when the comprehension over them
    returned. *)
Lemma children_validated {A} (ty_of : A → ty) (nm : nat → A → ArrayName) src fuel
    (ts : list A) memo H cs rs st' lo hi j x :
  Forall (λ x, validates garbage (ty_of x)) ts →
  chain (λ tag x lo c, Template H (ty_of x) (nm tag x) lo c) 0 ts cs lo hi →
  Schema.mapM_st (Schema.resolved garbage fuel src false) cs (memo, H) = Ok (rs, st') →
  ts !! j = Some x →
  ∀ k kd, (k, kd) ∈ kinded (ty_of x) (nm (0 + j)%nat x) →
    ∃ a, src !! k = Some (Schema.SArray a) ∧ plain a
         ∧ (kd ≠ KData → is_integer (dtype_of a) = true).
Proof.
  intros IH Hch Hm Hj k kd Hk.
  destruct (chain_lookup _ _ _ _ _ _ _ _ Hch Hj) as (c & lo' & Hc & HT).
  assert (Hf : ∀ y s z s', Schema.resolved garbage fuel src false y s = Ok (z, s') →
                           Fresh.grown s s').
  { intros y s z s' Hy. by apply resolved_effects in Hy as [? _]. }
  destruct (mapM_st_at _ cs Hf _ _ _ j c Hm Hc) as ([m1 h1] & y & s2 & Hg & Hres & _).
  destruct Hg as [[ext Hext] _]. cbn in Hext. subst h1.
  rewrite Forall_lookup in IH.
  apply (IH j x Hj src (nm (0 + j)%nat x) lo' c m1 (H ++ ext) fuel y s2); [|done|done].
  by apply Template_mono.
Qed.

Lemma resolved_validates (tpe : ty) : validates garbage tpe.
Proof.
  induction tpe as [dt|t IH|ts IH|fs IH|] using ty_nested_ind;
    intros src name lo r memo H fuel res st' HT Hres k kd Hk;
    cbn [Template kinded] in *; [| | | |done].
  - destruct HT as [Hlo Hr]. apply list_elem_of_singleton in Hk as [= -> ->].
    destruct fuel as [|fuel]; [done|]. cbn [Schema.resolved] in Hres.
    unfold Schema.deref in Hres. rewrite Hr in Hres. cbn [mbind res_bind] in Hres.
    apply bind_Ok in Hres as (a & Ha & _).
    apply _resolved_key_inv in Ha as (Hsrc & Hp & _). exists a. by split.
  - destruct HT as (c & Hr & Hc & HT). destruct fuel as [|fuel]; [done|].
    cbn [Schema.resolved] in Hres. unfold Schema.deref in Hres. rewrite Hr in Hres.
    cbn [mbind res_bind] in Hres. apply bind_Ok in Hres as (memo1 & _ & Hres).
    apply bind_Ok in Hres as (p & Hforce & Hres).
    destruct p as [|s e|]; [done| |done].
    apply bind_Ok in Hres as ([rc [memo2 h2]] & Hchild & _).
    apply elem_of_cons in Hk as [[= -> ->]|Hk].
    + destruct fuel as [|fuel]; [done|]. cbn [Schema.force] in Hforce.
      unfold Schema.deref in Hforce. rewrite Hr in Hforce. cbn [mbind res_bind] in Hforce.
      apply bind_Ok in Hforce as (o & Ho & _).
      apply _resolved_key_inv in Ho as (Hsrc & Hp & Hint). exists o. by split.
    + by apply (IH src _ lo c memo1 H fuel rc (memo2, h2) HT Hchild).
  - destruct HT as (cs & Hr & Hch). destruct fuel as [|fuel]; [done|].
    cbn [Schema.resolved] in Hres. unfold Schema.deref in Hres. rewrite Hr in Hres.
    cbn [mbind res_bind] in Hres. apply bind_Ok in Hres as (memo1 & _ & Hres).
    apply bind_Ok in Hres as (p & Hforce & Hres).
    destruct p as [|s e|]; [done| |done].
    apply bind_Ok in Hres as ([rs [memo2 h2]] & Hkids & _).
    destruct fuel as [|fuel']; [done|]. cbn [Schema.force] in Hforce.
    unfold Schema.deref in Hforce. rewrite Hr in Hforce. cbn [mbind res_bind] in Hforce.
    apply bind_Ok in Hforce as (a & Ha & Hforce).
    apply bind_Ok in Hforce as (o & Ho & _).
    apply _resolved_key_inv in Ha as (Hsa & Hpa & Hia).
    apply _resolved_key_inv in Ho as (Hso & Hpo & Hio).
    apply elem_of_cons in Hk as [[= -> ->]|Hk]; [exists a; by split|].
    apply elem_of_cons in Hk as [[= -> ->]|Hk]; [exists o; by split|].
    apply elem_of_concat_branches in Hk as (j & tj & Hj & Hk).
    by eapply (children_validated (λ t, t) (λ tag _, toUnionData name tag)).
  - destruct HT as (cs & Hr & Hnames & Hch). destruct fuel as [|fuel]; [done|].
    cbn [Schema.resolved] in Hres. unfold Schema.deref in Hres. rewrite Hr in Hres.
    cbn [mbind res_bind] in Hres. apply bind_Ok in Hres as (memo1 & _ & Hres).
    apply bind_Ok in Hres as ([rs [memo2 h2]] & Hkids & _).
    rewrite mapM_st_fields in Hkids. apply bind_Ok in Hkids as ([rs' s2] & Hkids & _).
    apply elem_of_concat_map in Hk as (j & p & Hj & Hk).
    by eapply (children_validated (λ p : string * ty, p.2) (λ _ p, toRecord name p.1)).
Qed.

(** X15. Eager resolution checks every array before it returns: when it
    returns a tree for the schema of a type, the source holds every column of
    the type as a one-dimensional non-record array without a mask, of
    integers where the column is an offset or tag column. *)
Theorem eager_resolution_validates src fuel (tpe : ty) name h t h' r h'' :
  supported tpe = true → schema_of tpe name h = Some (t, h') →
  Schema.resolve garbage fuel src false t h' = Ok (r, h'') →
  ∀ k kd, (k, kd) ∈ kinded tpe name →
    ∃ a, src !! k = Some (Schema.SArray a)
         ∧ recarray a = false ∧ shape_tail a = [] ∧ mask a = None
         ∧ (kd ≠ KData → is_integer (dtype_of a) = true).
Proof.
  intros Hsup Hsch Hres k kd Hk.
  destruct (schema_of_Template tpe Hsup name h) as (t' & ext & Hsch' & HT & _).
  rewrite Hsch in Hsch'. injection Hsch' as -> ->.
  unfold Schema.resolve in Hres.
  apply bind_Ok in Hres as ([r' [memo' h3]] & Hres & _).
  destruct (resolved_validates tpe src name _ _ _ _ _ _ _ HT Hres k kd Hk)
    as (a & Ha & (Hs & Hr & Hm) & Hi).
  exists a. done.
Qed.

End Lazy_and_eager.

Section Lazy_and_eager_examples.
Import Convert Pipeline RoundTrip.

(** The theorem at a list of numbers and the empty source. *)
Lemma lazy_resolution_needs_no_source_witness :
  is_ok (Schema.resolve (λ _, 0) 2 ∅ true 1%nat
           [Schema.Primitive (Schema.AKey "p-Ld") false None;
            Schema.ListOffset (Schema.AKey "p-Lo") 0%nat false None]) = true.
Proof.
  apply (lazy_resolution_needs_no_source (λ _, 0) ∅ 2 (List (Primitive int64)) (root "p") []).
  - reflexivity.
  - reflexivity.
  - cbn. lia.
Defined.

(** The theorem at a list of numbers whose columns are in the source. *)
Lemma eager_resolution_validates_witness :
  ∃ a, (<["p-Lo" := Schema.SArray (array int64 [0; 2])]>
          (<["p-Ld" := Schema.SArray (array int64 [7; 8])]> ∅) : Schema.source) !! "p-Lo"
       = Some (Schema.SArray a)
       ∧ recarray a = false ∧ shape_tail a = [] ∧ mask a = None
       ∧ (KOffset ≠ KData → is_integer (dtype_of a) = true).
Proof.
  apply (eager_resolution_validates (λ _, 0) _ 4 (List (Primitive int64)) (root "p") [] 1%nat
           [Schema.Primitive (Schema.AKey "p-Ld") false None;
            Schema.ListOffset (Schema.AKey "p-Lo") 0%nat false None]
           3%nat
           [Schema.Primitive (Schema.AKey "p-Ld") false None;
            Schema.ListOffset (Schema.AKey "p-Lo") 0%nat false None;
            Schema.Primitive (Schema.AArray (array int64 [7; 8])) false (Some 0%nat);
            Schema.ListStartEnd (Schema.AArray (array int64 [0]))
              (Schema.AArray (array int64 [2])) 2%nat false (Some 1%nat)]).
  - reflexivity.
  - reflexivity.
  - vm_compute. reflexivity.
  - vm_compute. left.
Defined.

End Lazy_and_eager_examples.

(** ** The first access to a lazily resolved primitive *)

Section Lazy_access.
Import Schema.

Variable garbage : nat → Z.

Lemma insert_last {A} (l : list A) (x y : A) : <[length l := y]> (l ++ [x]) = l ++ [y].
Proof. rewrite insert_app_r_alt by done. by rewrite Nat.sub_diag. Qed.

(** X16. Lazy resolution of a primitive that names its array by a key binds
    nothing (it succeeds whatever the source holds); the first access binds
    the array the eager resolution binds and stores it in the node, which is
    from then on the eagerly resolved node; and it returns what the access to
    the eagerly resolved node returns.  With the key missing from the source,
    eager resolution raises [ValueError], and lazy resolution puts the same
    error off to the first access. *)
Theorem lazy_Primitive_first_access fuel src (memo : gmap id (option id)) (h : heap) self k
    masked base :
  h !! self = Some (Primitive (AKey k) masked base) →
  let lazy_node := Primitive (AResolve self src) masked (Some self) in
  resolved garbage (S fuel) src true self (memo, h)
  = Ok (length h, (memo, h ++ [lazy_node]))
  ∧ (∀ a index f,
       resolved garbage (S (S fuel)) src false self (memo, h)
       = Ok (length h, (memo, h ++ [Primitive (AArray a) masked (Some self)])) →
       proxy garbage (S (S (S f))) (length h) index (h ++ [lazy_node])
       = proxy garbage (S f) (length h) index
           (h ++ [Primitive (AArray a) masked (Some self)])
       ∧ ∀ v h', proxy garbage (S (S (S f))) (length h) index (h ++ [lazy_node]) = Ok (v, h') →
           h' = h ++ [Primitive (AArray a) masked (Some self)])
  ∧ (src !! k = None → ∀ index f,
       resolved garbage (S (S fuel)) src false self (memo, h)
       = Raise (ValueError msg_not_found)
       ∧ proxy garbage (S (S (S f))) (length h) index (h ++ [lazy_node])
         = Raise (ValueError msg_not_found)).
Proof.
  intros Hself lazy_node. subst lazy_node.
  assert (Hself' : ∀ x, (h ++ [x]) !! self = Some (Primitive (AKey k) masked base))
    by (intros x; by apply lookup_app_l_Some).
  assert (Hlast : ∀ x : node, (h ++ [x]) !! length h = Some x)
    by (intros x; by rewrite lookup_app_r, Nat.sub_diag).
  split; [|split].
  - cbn [resolved]. unfold deref. rewrite Hself. done.
  - intros a index f Heager.
    cbn [resolved] in Heager. unfold deref in Heager. rewrite Hself in Heager.
    cbn [mbind res_bind] in Heager. apply bind_Ok in Heager as (a' & Ha & Heager).
    unfold alloc in Heager. injection Heager as Heq. apply app_inv_head in Heq.
    injection Heq as ->.
    assert (Hforce : force garbage (S (S f)) (h ++ [Primitive (AResolve self src) masked (Some self)]) self src
                     = Ok (SArray a)).
    { cbn [force]. unfold deref. rewrite Hself'. cbn [mbind res_bind].
      cbn [_resolved] in Ha |- *. destruct (src !! k) as [o|]; [|done].
      by rewrite Ha. }
    assert (Hlazy : proxy garbage (S (S (S f))) (length h) index
                      (h ++ [Primitive (AResolve self src) masked (Some self)])
                    = (flag ← invalid_at (AArray a) index;
                       if (flag : bool)
                       then Ok (VNone, h ++ [Primitive (AArray a) masked (Some self)])
                       else x ← getitem (data a) index;
                            Ok (VScalar x, h ++ [Primitive (AArray a) masked (Some self)]))).
    { remember (S (S f)) as f2 eqn:Hf2. cbn [proxy]. unfold deref. rewrite Hlast.
      cbn [mbind res_bind callable call0]. rewrite Hforce.
      cbn [mbind res_bind aref_of]. by rewrite insert_last. }
    split.
    + rewrite Hlazy. cbn [proxy]. unfold deref. rewrite Hlast. done.
    + intros v h'. rewrite Hlazy. intros (flag & _ & H)%bind_Ok.
      destruct flag; [by injection H as _ <-|].
      apply bind_Ok in H as (x & _ & H). by injection H as _ <-.
  - intros Hmissing index f. split.
    + cbn [resolved]. unfold deref. rewrite Hself. cbn [mbind res_bind _resolved].
      by rewrite Hmissing.
    + remember (S (S f)) as f2 eqn:Hf2. cbn [proxy]. unfold deref. rewrite Hlast.
      cbn [mbind res_bind callable call0]. rewrite Hf2. cbn [force]. unfold deref.
      rewrite Hself'. cbn [mbind res_bind _resolved]. by rewrite Hmissing.
Qed.

End Lazy_access.

Section Lazy_access_examples.
Import Schema.

(** The theorem at the primitive read through the key [d]: the first access
    to row 1 returns 8 and leaves the eagerly resolved node. *)
Lemma lazy_Primitive_first_access_witness :
  proxy (λ _, 0) 3 1%nat 1
    [Primitive (AKey "d") false None;
     Primitive (AResolve 0%nat {["d" := SArray (array int64 [7; 8])]}) false (Some 0%nat)]
  = proxy (λ _, 0) 1 1%nat 1
      [Primitive (AKey "d") false None;
       Primitive (AArray (array int64 [7; 8])) false (Some 0%nat)].
Proof.
  apply (proj1 (proj2 (lazy_Primitive_first_access (λ _, 0) 0
                         {["d" := SArray (array int64 [7; 8])]} ∅
                         [Primitive (AKey "d") false None] 0%nat "d" false None eq_refl))
           (array int64 [7; 8]) 1 0%nat).
  vm_compute. reflexivity.
Defined.

End Lazy_access_examples.

(** ** What the flattener accepts and what it writes ([plur/python/convert.py]) *)

Section Flattener_facts.
Import Convert Pipeline RoundTrip.

Variable issubtype : pyobj → ty → bool.

Lemma appended_refl st : appended st st.
Proof. split; [apply grows_refl | done]. Qed.

Lemma appended_trans st1 st2 st3 : appended st1 st2 → appended st2 st3 → appended st1 st3.
Proof. intros [G1 N1] [G2 N2]. split; [by eapply grows_trans | auto]. Qed.

Lemma appended_counters st st' :
  fillables st' = fillables st → appended st st'.
Proof.
  intros Hf. split; [|by rewrite Hf]. intros k f Hk. exists f. rewrite Hf.
  split; [done|]. split; [done|]. exists []. by rewrite app_nil_r.
Qed.

Lemma fill_at_appended name z st st' : fill_at name z st = Ok st' → appended st st'.
Proof.
  unfold fill_at, dict_get. destruct (fillables st !! str name) as [f|] eqn:Hf; [|done].
  intros [= <-]. split; [by apply grows_fill|].
  intros k Hk. cbn. rewrite lookup_insert_ne; [done|]. intros <-. congruence.
Qed.

Lemma each_appended {A} (body : A → state → res state) (xs : list A) :
  (∀ x st st', x ∈ xs → body x st = Ok st' → appended st st') →
  ∀ st st', each body xs st = Ok st' → appended st st'.
Proof.
  induction xs as [|x xs IH]; intros Hbody st st' H; cbn in H.
  - injection H as <-. apply appended_refl.
  - apply bind_Ok in H as (st1 & Hx & H). eapply appended_trans.
    + eapply Hbody; [by left | exact Hx].
    + eapply IH; [|exact H]. intros y s s' Hy. apply Hbody. by right.
Qed.

Lemma first_match_inv {A R} (test : A → bool) (found : nat → A → R) (none : R) (ts : list A) :
  ∀ i, first_match test found none i ts = none
       ∨ ∃ k t, ts !! k = Some t ∧ test t = true
                ∧ first_match test found none i ts = found (i + k)%nat t.
Proof.
  induction ts as [|t ts IH]; intros i; cbn; [by left|].
  destruct (test t) eqn:Ht.
  - right. exists 0%nat, t. by rewrite Nat.add_0_r.
  - destruct (IH (S i)) as [Hn|(k & t' & Hk & Ht' & Hf)]; [by left|].
    right. exists (S k), t'. rewrite Hf. split; [done|]. split; [done|].
    by replace (i + S k)%nat with (S i + k)%nat by lia.
Qed.

Lemma recurse_appended (tpe : ty) :
  ∀ obj name st st', recurse issubtype tpe obj name st = Ok st' → appended st st'.
Proof.
  induction tpe as [dt|t IH|ts IH|fs IH|] using ty_nested_ind; intros obj name st st' H;
    cbn [recurse] in H; [| | | |done].
  - destruct (negb (contains dt obj)); [done|]. destruct obj; try done.
    by eapply fill_at_appended.
  - destruct obj as [|items| |]; try done.
    apply bind_Ok in H as (st1 & Hfill%fill_at_appended & H).
    eapply appended_trans; [|eapply appended_trans; [exact Hfill|]].
    + by apply appended_counters.
    + eapply each_appended; [|exact H]. intros x s s' _. apply IH.
  - match type of H with
    | first_match ?test ?found ?none ?i ?l = _ =>
        destruct (first_match_inv test found none l i) as [Hn|(k & t & Hk & _ & Hf)]
    end.
    + rewrite Hn in H. done.
    + rewrite Hf in H. cbn zeta in H.
      apply bind_Ok in H as (st1 & H1%fill_at_appended & H).
      apply bind_Ok in H as (st2 & H2%fill_at_appended & H).
      rewrite Forall_lookup in IH. apply (IH k t Hk) in H.
      eapply appended_trans; [exact H1|]. eapply appended_trans; [exact H2|].
      eapply appended_trans; [|exact H]. by apply appended_counters.
  - eapply each_appended; [|exact H]. intros field s s' Hin Hbody. cbn in Hbody.
    destruct (lookup_field field.1 _) as [v|]; [|done].
    rewrite Forall_forall in IH. by eapply IH.
Qed.

(** X17. The flattener never rewrites what it wrote: whenever the walk over
    a value returns, every column holds what it held before, followed by what
    the walk appended; its dtype is unchanged, and no column was added. *)
Theorem recurse_only_appends (tpe : ty) obj name st st' :
  recurse issubtype tpe obj name st = Ok st' →
  (∀ k f, fillables st !! k = Some f →
     ∃ f', fillables st' !! k = Some f' ∧ dtype f' = dtype f
           ∧ ∃ more, filled f' = filled f ++ more)
  ∧ ∀ k, fillables st !! k = None → fillables st' !! k = None.
Proof.
  intros H. destruct (recurse_appended tpe _ _ _ _ H) as [Hg Hn]. split; [exact Hg | exact Hn].
Qed.

(** X18. [toarrays] returns exactly the columns that [type2columns]
    declares for the type, each as a plain array of its declared dtype, also
    the columns the value gave nothing to write into. *)
Theorem toarrays_returns_declared_columns prefix obj (tpe : ty) delimiter indextype columns :
  toarrays issubtype prefix obj tpe delimiter indextype = Ok columns →
  let declared : gmap string Numpy.dtype :=
    list_to_map (type2columns tpe {| prefix := prefix; delimiter := delimiter; path := [] |}
                   indextype) in
  ∀ k, match columns !! k with
       | Some a => declared !! k = Some (dtype_of a) ∧ plain a
       | None => declared !! k = None
       end.
Proof.
  intros H declared k. unfold toarrays in H.
  apply bind_Ok in H as (st & Hrec & Hfin).
  destruct (recurse_appended tpe _ _ _ _ Hrec) as [Hg Hn]. cbn [fillables] in Hg, Hn.
  pose proof (comprehension_Ok finalize (fillables st) columns k Hfin) as Hcol.
  pose proof (list_to_map_named FillableInMemory
                (type2columns tpe {| prefix := prefix; delimiter := delimiter; path := [] |}
                   indextype) k) as Hinit.
  fold declared in Hinit.
  destruct (declared !! k) as [d|] eqn:Hd; cbn in Hinit.
  - destruct (Hg k _ Hinit) as (f' & Hf' & Hdt & _). rewrite Hf' in Hcol.
    destruct Hcol as (b & Hb & ->). unfold finalize in Hb.
    destruct (forallb _ _); [|done]. injection Hb as <-. cbn. by rewrite Hdt.
  - rewrite (Hn k Hinit) in Hcol. by rewrite Hcol.
Qed.

Lemma each_Ok_elem {A} (body : A → state → res state) (xs : list A) :
  ∀ st st', each body xs st = Ok st' → ∀ x, x ∈ xs → ∃ s s', body x s = Ok s'.
Proof.
  induction xs as [|x xs IH]; intros st st' H y Hy; [by apply elem_of_nil in Hy|].
  cbn in H. apply bind_Ok in H as (st1 & Hx & H).
  apply elem_of_cons in Hy as [->|Hy]; [by exists st, st1 | by eapply IH].
Qed.

(** X19. The flattener accepts no value that does not fit the type: when
    the walk returns, every number is in the domain of its primitive, a list
    stands where a list is declared, the value at a union fits the first
    possibility the classification accepts, and every declared field was found
    on its record and fits. *)
Theorem recurse_Ok_fits (tpe : ty) :
  ∀ obj name st st', recurse issubtype tpe obj name st = Ok st' →
    fitsb issubtype tpe obj = true.
Proof.
  induction tpe as [dt|t IH|ts IH|fs IH|] using ty_nested_ind; intros obj name st st' H;
    cbn [recurse fitsb] in *; [| | | |done].
  - by destruct (contains dt obj).
  - destruct obj as [|items| |]; try done.
    apply bind_Ok in H as (st1 & _ & H). apply forallb_forall. intros x Hx%list_elem_of_In.
    destruct (each_Ok_elem _ _ _ _ H x Hx) as (s & s' & Hbody). by eapply IH.
  - revert H. generalize 0%nat. induction IH as [|t ts Ht _ IHts]; intros i H; [done|].
    cbn [first_match] in *. destruct (issubtype obj t); [|by eapply IHts].
    cbn zeta in H. apply bind_Ok in H as (st1 & _ & H). apply bind_Ok in H as (st2 & _ & H).
    by eapply Ht.
  - apply forallb_forall. intros field Hf%list_elem_of_In.
    destruct (each_Ok_elem _ _ _ _ H field Hf) as (s & s' & Hbody). cbn in Hbody.
    destruct (lookup_field field.1 _) as [v|]; [|done].
    rewrite Forall_forall in IH. by eapply IH.
Qed.

End Flattener_facts.

Section Flattener_examples.
Import Convert Pipeline RoundTrip.

(** The theorem at a list of two numbers written after one number. *)
Lemma recurse_only_appends_witness :
  (∀ k f,
     fillables
       {| fillables := {["p-Lo" := {| dtype := uint64; filled := [1] |};
                       "p-Ld" := {| dtype := int64; filled := [9] |}]};
        last_list_offset := {["p-Lo" := 1]}; last_union_offset := ∅ |} !! k = Some f →
     ∃ f',
       fillables
         {| fillables := {["p-Lo" := {| dtype := uint64; filled := [1; 3] |};
                       "p-Ld" := {| dtype := int64; filled := [9; 7; 8] |}]};
        last_list_offset := {["p-Lo" := 3]}; last_union_offset := ∅ |} !! k = Some f'
       ∧ dtype f' = dtype f ∧ ∃ more, filled f' = filled f ++ more)
  ∧ ∀ k,
      fillables
        {| fillables := {["p-Lo" := {| dtype := uint64; filled := [1] |};
                       "p-Ld" := {| dtype := int64; filled := [9] |}]};
        last_list_offset := {["p-Lo" := 1]}; last_union_offset := ∅ |} !! k = None →
      fillables
        {| fillables := {["p-Lo" := {| dtype := uint64; filled := [1; 3] |};
                       "p-Ld" := {| dtype := int64; filled := [9; 7; 8] |}]};
        last_list_offset := {["p-Lo" := 3]}; last_union_offset := ∅ |} !! k = None.
Proof.
  apply (recurse_only_appends (λ _ _, true) (List (Primitive int64))
           (PList [PNum 7; PNum 8]) (root "p")).
  vm_compute. reflexivity.
Defined.

(** The theorem at a union of which the value takes the first branch: the
    offset column of the second branch is returned, with its initial offset
    only. *)
Lemma toarrays_returns_declared_columns_witness :
  (list_to_map (type2columns (Union [Primitive int64; List (Primitive int64)])
                  {| prefix := "p"; delimiter := "-"; path := [] |} uint64)
   : gmap string Numpy.dtype) !! "p-Ud1-Lo" = Some uint64
  ∧ plain (array uint64 [0]).
Proof.
  pose proof (toarrays_returns_declared_columns
                (λ o t, match o, t with
                        | PNum _, Primitive _ | PList _, List _ => true
                        | _, _ => false
                        end)
                "p" (PNum 5) (Union [Primitive int64; List (Primitive int64)]) "-" uint64
                {["p-Ut" := array uint64 [0]; "p-Uo" := array uint64 [0];
                  "p-Ud0" := array int64 [5]; "p-Ud1-Lo" := array uint64 [0];
                  "p-Ud1-Ld" := array int64 []]}) as Hdeclared.
  assert (Hrun : toarrays
                   (λ o t, match o, t with
                           | PNum _, Primitive _ | PList _, List _ => true
                           | _, _ => false
                           end)
                   "p" (PNum 5) (Union [Primitive int64; List (Primitive int64)]) "-" uint64
                 = Ok {["p-Ut" := array uint64 [0]; "p-Uo" := array uint64 [0];
                        "p-Ud0" := array int64 [5]; "p-Ud1-Lo" := array uint64 [0];
                        "p-Ud1-Ld" := array int64 []]}) by (vm_compute; reflexivity).
  exact (Hdeclared Hrun "p-Ud1-Lo").
Defined.

(** The theorem at a record read from a dict with one more key. *)
Lemma recurse_Ok_fits_witness :
  fitsb (λ _ _, true) (Record [("x", Primitive int64)])
    (PDict [("y", PNum 2); ("x", PNum 1)]) = true.
Proof.
  apply (recurse_Ok_fits (λ _ _, true) (Record [("x", Primitive int64)])
           (PDict [("y", PNum 2); ("x", PNum 1)]) (root "p")
           {| fillables := {["p-R_x" := {| dtype := int64; filled := [] |}]};
              last_list_offset := ∅; last_union_offset := ∅ |}
           {| fillables := {["p-R_x" := {| dtype := int64; filled := [1] |}]};
              last_list_offset := ∅; last_union_offset := ∅ |}).
  vm_compute. reflexivity.
Defined.

End Flattener_examples.
